(** * Simon's algorithm, classical post-processing: a shallow embedding

    The development follows [simon_qiskit.py]: bit conversions, the
    construction of a Simon function, the GF(2) forward elimination used by
    the rank check and by the solver, the back-substitution that extracts a
    nullspace vector, the validating front end and the retry loop; the
    gates of the oracle circuit with their action on basis states, and
    the measurement noise with its random draws as inputs. *)

From Stdlib Require Import ZArith Ascii String DecimalString.
From stdpp Require Import base tactics option list numbers gmap.

Local Open Scope Z_scope.

(** ** Python exceptions as a result type *)

Inductive pyexc : Type := ValueError | IndexError.

Inductive result (A : Type) : Type :=
| Ok (a : A)
| Raise (e : pyexc).
Arguments Ok {A} a.
Arguments Raise {A} e.

#[global] Instance result_ret : MRet result := fun A a => Ok a.
#[global] Instance result_bind : MBind result := fun A B f m =>
  match m with
  | Ok a => f a
  | Raise e => Raise e
  end.

(** ** Utilities: bit conversions *)

(** [[(x >> i) & 1 for i in reversed(range(n))]] *)
Definition int_to_bits (x : Z) (n : nat) : list Z :=
  map (fun i : nat => Z.land (Z.shiftr x (Z.of_nat i)) 1) (rev (seq 0 n)).

(** [x = (x << 1) | (int(b) & 1)] for every [b], starting from 0 *)
Definition bits_to_int (bits : list Z) : Z :=
  fold_left (fun x b => Z.lor (Z.shiftl x 1) (Z.land b 1)) bits 0.

(** ** Python list indexing *)

(** An index [i] into a list of length [len]: negative indices count from
    the end, anything else out of range raises. *)
Definition py_index (len : nat) (i : Z) : result nat :=
  if decide (0 <= i < Z.of_nat len) then Ok (Z.to_nat i)
  else if decide (- Z.of_nat len <= i < 0) then Ok (Z.to_nat (Z.of_nat len + i))
  else Raise IndexError.

Definition py_setitem {A : Type} (l : list A) (i : Z) (v : A) : result (list A) :=
  k ← py_index (length l) i; Ok (<[k := v]> l).

(** ** The classical Simon function *)

Record simon_state : Type := {
  seen : list bool;
  mapping : gmap Z Z;
  next_output : Z
}.

(** One iteration of [for x in range(N)]. *)
Definition simon_step (s_int : Z) (st : simon_state) (x : nat) : result simon_state :=
  match seen st !! x with
  | None => Raise IndexError
  | Some true => Ok st
  | Some false =>
      let y := Z.lxor (Z.of_nat x) s_int in
      if decide (y = Z.of_nat x) then
        Ok {| seen := <[x := true]> (seen st);
              mapping := <[Z.of_nat x := next_output st]> (mapping st);
              next_output := next_output st + 1 |}
      else
        seen' ← py_setitem (<[x := true]> (seen st)) y true;
        Ok {| seen := seen';
              mapping := <[y := next_output st]>
                           (<[Z.of_nat x := next_output st]> (mapping st));
              next_output := next_output st + 1 |}
  end.

Fixpoint simon_loop (s_int : Z) (xs : list nat) (st : simon_state) : result simon_state :=
  match xs with
  | [] => Ok st
  | x :: rest => st' ← simon_step s_int st x; simon_loop s_int rest st'
  end.

(** [s_bits = int_to_bits(s_int, n)] is computed there and never used. *)
Definition build_simon_function (n : nat) (s_int : Z) : result (gmap Z Z) :=
  let N := Z.to_nat (Z.shiftl 1 (Z.of_nat n)) in
  st ← simon_loop s_int (seq 0 N)
         {| seen := replicate N false; mapping := ∅; next_output := 0 |};
  Ok (mapping st).

(** ** The oracle circuit *)

(** The gates that [build_oracle_circuit] emits. *)
Inductive gate : Type :=
| GateX (q : nat)
| GateCX (c t : nat)
| GateMCX (controls : list nat) (t : nat).

(** A [QuantumCircuit]: its width and its gates in order. *)
Record circuit : Type := {
  num_qubits : nat;
  gates : list gate
}.

(** [for idx, bit in enumerate(x_bits): if bit == 0: qc.x(idx)], counting
    from [idx]. *)
Fixpoint control_flips (idx : nat) (x_bits : list Z) : list gate :=
  match x_bits with
  | [] => []
  | bit :: rest =>
      (if decide (bit = 0) then [GateX idx] else []) ++ control_flips (S idx) rest
  end.

(** [[n + i for i, b in enumerate(fx_bits) if b == 1]], counting from [i]. *)
Fixpoint target_qubits (n i : nat) (fx_bits : list Z) : list nat :=
  match fx_bits with
  | [] => []
  | b :: rest =>
      (if decide (b = 1) then [(n + i)%nat] else []) ++ target_qubits n (S i) rest
  end.

(** [qc.x(t)] for [n == 0], [qc.cx(0, t)] for [n == 1], otherwise
    [qc.mcx(list(range(n)), t)]. *)
Definition controlled_x (n t : nat) : gate :=
  match n with
  | O => GateX t
  | S O => GateCX 0 t
  | _ => GateMCX (seq 0 n) t
  end.

(** The body of [for t in target]: flip the controls that must be 0, apply
    the controlled X, undo the flips. *)
Definition target_block (n : nat) (x_bits : list Z) (t : nat) : list gate :=
  control_flips 0 x_bits ++ [controlled_x n t] ++ control_flips 0 x_bits.

(** The body of [for x, fx in mapping.items()]. *)
Definition oracle_item (n : nat) (item : Z * Z) : list gate :=
  let x_bits := int_to_bits (fst item) n in
  let fx_bits := int_to_bits (snd item) n in
  match target_qubits n 0 fx_bits with
  | [] => []
  | target => concat (map (target_block n x_bits) target)
  end.

(** [items] are [mapping.items()] in the dictionary's order. *)
Definition build_oracle_circuit (n : nat) (items : list (Z * Z)) : circuit :=
  {| num_qubits := 2 * n; gates := concat (map (oracle_item n) items) |}.

(** ** Measurement strings and numpy matrices *)

Abbreviation matrix := (list (list Z)).

Fixpoint chars (m : string) : list ascii :=
  match m with
  | EmptyString => []
  | String ch rest => ch :: chars rest
  end.

(** [int(ch)] on one character. A character of the model is one [ascii],
    a code point below 256; among these [int] accepts exactly the ten
    digits '0'..'9' and raises [ValueError] on every other one. ([int] also
    accepts the decimal digits of other scripts; their code points, U+0660
    and up, are not values of [ascii].) *)
Definition int_of_char (ch : ascii) : result Z :=
  let k := Z.of_nat (nat_of_ascii ch) in
  if decide (48 <= k <= 57) then Ok (k - 48) else Raise ValueError.

Fixpoint mapM {A B : Type} (f : A → result B) (l : list A) : result (list B) :=
  match l with
  | [] => Ok []
  | a :: rest => b ← f a; bs ← mapM f rest; Ok (b :: bs)
  end.

(** [[int(ch) for ch in b]] *)
Definition row_of_string (b : string) : result (list Z) :=
  mapM int_of_char (chars b).

(** [np.array(rows, dtype=int)]: the rows must all have one length. *)
Definition np_array (rows : matrix) : result matrix :=
  match rows with
  | [] => Ok []
  | row0 :: _ =>
      if decide (Forall (fun row => length row = length row0) rows)
      then Ok rows else Raise ValueError
  end.

(** [A.shape] of a two-dimensional array, [(r, c)]. *)
Definition shape (A : matrix) : nat * nat :=
  (length A, match A with [] => 0%nat | row0 :: _ => length row0 end).

(** [A[row, col]] *)
Definition getitem2 (A : matrix) (row col : nat) : result Z :=
  match A !! row with
  | Some rw =>
      match rw !! col with
      | Some v => Ok v
      | None => Raise IndexError
      end
  | None => Raise IndexError
  end.

(** [A[row]] *)
Definition getrow (A : matrix) (row : nat) : result (list Z) :=
  match A !! row with
  | Some rw => Ok rw
  | None => Raise IndexError
  end.

Definition xor_rows (a b : list Z) : list Z := zip_with Z.lxor a b.

(** [A[[pivot, rank]] = A[[rank, pivot]]] *)
Definition swap_rows (A : matrix) (pivot rank : nat) : result matrix :=
  rp ← getrow A pivot;
  rr ← getrow A rank;
  Ok (<[rank := rp]> (<[pivot := rr]> A)).

(** [A[row] ^= A[rank]] *)
Definition xor_row_into (A : matrix) (row rank : nat) : result matrix :=
  a ← getrow A row;
  b ← getrow A rank;
  Ok (<[row := xor_rows a b]> A).

(** ** Forward elimination over GF(2) *)

(** The scan [for row in range(rank, r): if A[row, col] == 1: pivot = row; break]. *)
Fixpoint find_pivot (A : matrix) (col : nat) (rows : list nat) : result (option nat) :=
  match rows with
  | [] => Ok None
  | row :: rest =>
      v ← getitem2 A row col;
      if decide (v = 1) then Ok (Some row) else find_pivot A col rest
  end.

(** [for row in range(rank+1, r): if A[row, col] == 1: A[row] ^= A[rank]] *)
Fixpoint eliminate_below (A : matrix) (col rank : nat) (rows : list nat) : result matrix :=
  match rows with
  | [] => Ok A
  | row :: rest =>
      v ← getitem2 A row col;
      if decide (v = 1) then
        A' ← xor_row_into A row rank; eliminate_below A' col rank rest
      else eliminate_below A col rank rest
  end.

Record elim_state : Type := {
  es_A : matrix;
  es_rank : nat;
  es_pivot_cols : list nat
}.

(** The loop over the columns, shared by the solver ([for col in range(n)])
    and by the rank check ([for col in range(min(n, r))], which keeps no
    [pivot_cols]); [r] is the row count and the loop leaves at
    [rank == r]. *)
Fixpoint forward_elimination (r : nat) (cols : list nat) (st : elim_state) : result elim_state :=
  match cols with
  | [] => Ok st
  | col :: rest =>
      let rank := es_rank st in
      p ← find_pivot (es_A st) col (seq rank (r - rank));
      match p with
      | None => forward_elimination r rest st
      | Some pivot =>
          A1 ← (if decide (pivot ≠ rank) then swap_rows (es_A st) pivot rank
                else Ok (es_A st));
          A2 ← eliminate_below A1 col rank (seq (rank + 1) (r - (rank + 1)));
          let st' := {| es_A := A2; es_rank := (rank + 1)%nat;
                        es_pivot_cols := es_pivot_cols st ++ [col] |} in
          if decide ((rank + 1)%nat = r) then Ok st'
          else forward_elimination r rest st'
      end
  end.

Definition elim_start (A : matrix) : elim_state :=
  {| es_A := A; es_rank := 0; es_pivot_cols := [] |}.

(** ** Back-substitution *)

(** [for j in range(n): if row[j] == 1: pivot_col = j; break] *)
Fixpoint first_one (row : list Z) (js : list nat) : result (option nat) :=
  match js with
  | [] => Ok None
  | j :: rest =>
      match row !! j with
      | None => Raise IndexError
      | Some v => if decide (v = 1) then Ok (Some j) else first_one row rest
      end
  end.

(** [for j in range(pivot_col+1, n): rhs ^= (row[j] & s[j])] *)
Fixpoint compute_rhs (row s : list Z) (js : list nat) (rhs : Z) : result Z :=
  match js with
  | [] => Ok rhs
  | j :: rest =>
      match row !! j, s !! j with
      | Some a, Some b => compute_rhs row s rest (Z.lxor rhs (Z.land a b))
      | _, _ => Raise IndexError
      end
  end.

(** [for i in reversed(range(rank))]: solve for the pivot variables. *)
Fixpoint back_substitute (n : nat) (A : matrix) (rows : list nat) (s : list Z) : result (list Z) :=
  match rows with
  | [] => Ok s
  | i :: rest =>
      row ← getrow A i;
      p ← first_one row (seq 0 n);
      match p with
      | None => back_substitute n A rest s
      | Some pivot_col =>
          rhs ← compute_rhs row s (seq (pivot_col + 1) (n - (pivot_col + 1))) 0;
          back_substitute n A rest (<[pivot_col := rhs]> s)
      end
  end.

(** ** The solver *)

(** The first half of [solve_for_s_from_measurements]: the rows are read,
    and unless the array is empty ([None]) they are reduced to echelon
    form; the state holds the reduced [A], [rank] and [pivot_cols]. *)
Definition solver_reduction (n : nat) (measured_bitstrings : list string)
  : result (option elim_state) :=
  rows ← mapM row_of_string measured_bitstrings;
  A ← np_array rows;
  let '(r0, c0) := shape A in
  let r := if decide ((r0 * c0)%nat = 0%nat) then 0%nat else r0 in
  if decide (r = 0%nat) then Ok None else
  st ← forward_elimination r (seq 0 n) (elim_start A);
  Ok (Some st).

(** The second half: 0 at full rank, otherwise the first free column is
    set to 1 and the pivot variables are solved from the bottom row up. *)
Definition nullspace_vector (n : nat) (st : elim_state) : result Z :=
  let rank := es_rank st in
  if decide (rank = n) then Ok 0 else
  let free_cols := filter (fun col => col ∉ es_pivot_cols st) (seq 0 n) in
  match free_cols with
  | [] => Ok 0
  | free_choice :: _ =>
      let s := <[free_choice := 1]> (replicate n 0) in
      s' ← back_substitute n (es_A st) (rev (seq 0 rank)) s;
      Ok (bits_to_int s')
  end.

Definition solve_for_s_from_measurements (n : nat) (measured_bitstrings : list string)
  : result (option Z) :=
  red ← solver_reduction n measured_bitstrings;
  match red with
  | None => Ok None
  | Some st => s_int ← nullspace_vector n st; Ok (Some s_int)
  end.

(** The pivot count of the solver's forward elimination. *)
Definition solver_rank (n : nat) (measured_bitstrings : list string)
  : result (option nat) :=
  red ← solver_reduction n measured_bitstrings;
  match red with
  | None => Ok None
  | Some st => Ok (Some (es_rank st))
  end.

(** ** The validating front end *)

(** Returns [(rank >= n - 1, rank)]. *)
Definition check_linear_independence (vectors : list string) (n : nat)
  : result (bool * Z) :=
  match vectors with
  | [] => Ok (false, 0)
  | _ =>
      rows ← mapM row_of_string vectors;
      A ← np_array rows;
      let '(r, c) := shape A in
      st ← forward_elimination r (seq 0 (min n r)) (elim_start A);
      let rank := Z.of_nat (es_rank st) in
      Ok (bool_decide (rank >= Z.of_nat n - 1), rank)
  end.

(** The second component of the pair that [solve_for_s_enhanced] returns. *)
Inductive status : Type :=
| NoMeasurements
| AllUninformative
| Insufficient (rank need : Z)
| Success.

Definition show_int (z : Z) : string := NilZero.string_of_int (Z.to_int z).

Definition status_message (st : status) : string :=
  match st with
  | NoMeasurements => "No measurements"
  | AllUninformative => "All measurements uninformative (y=0...0)"
  | Insufficient rank need =>
      "Insufficient independent vectors (rank=" ++ show_int rank
        ++ ", need " ++ show_int need ++ ")"
  | Success => "Success"
  end%string.

(** ['0'*n] *)
Fixpoint zeros (n : nat) : string :=
  match n with
  | O => EmptyString
  | S k => String "0" (zeros k)
  end.

(** [[m for m in measured_bitstrings if m != '0'*n]] *)
Definition useful_measurements (n : nat) (measured_bitstrings : list string) : list string :=
  filter (fun m => m ≠ zeros n) measured_bitstrings.

Definition solve_for_s_enhanced (n : nat) (measured_bitstrings : list string)
  : result (option Z * status) :=
  match measured_bitstrings with
  | [] => Ok (None, NoMeasurements)
  | _ =>
      let useful := useful_measurements n measured_bitstrings in
      match useful with
      | [] => Ok (None, AllUninformative)
      | _ =>
          '(is_independent, rank) ← check_linear_independence useful n;
          if negb is_independent && bool_decide (rank < Z.of_nat n - 1)
          then Ok (None, Insufficient rank (Z.of_nat n - 1))
          else
            s_int ← solve_for_s_from_measurements n useful;
            Ok (s_int, Success)
      end
  end.

(** ** Measurement noise *)

(** A [counts] dictionary: its items in insertion order, keys unique. *)
Abbreviation counts_dict := (list (string * Z)).

(** [d.get(k, default)] *)
Fixpoint dict_get (d : counts_dict) (k : string) (default : Z) : Z :=
  match d with
  | [] => default
  | (k', v') :: rest => if decide (k' = k) then v' else dict_get rest k default
  end.

(** [d[k] = v]: an existing key keeps its place, a new key goes last. *)
Fixpoint dict_set (d : counts_dict) (k : string) (v : Z) : counts_dict :=
  match d with
  | [] => [(k, v)]
  | (k', v') :: rest =>
      if decide (k' = k) then (k, v) :: rest else (k', v') :: dict_set rest k v
  end.

(** [''.join(bits)] *)
Fixpoint join (bits : list ascii) : string :=
  match bits with
  | [] => EmptyString
  | ch :: rest => String ch (join rest)
  end.

(** ['1' if ch == '0' else '0'] *)
Definition flip_char (ch : ascii) : ascii :=
  if decide (ch = "0"%char) then "1"%char else "0"%char.

Section MeasurementNoise.
(** The random draws of the run, by item: [None] when
    [random.random() < noise_prob] is false, [Some flip_pos] when it is
    true and [random.randint(0, len(bits)-1)] gives [flip_pos]. *)
Variable draws : nat → option nat.

(** The body of [for bitstring, count in counts.items()], for the item
    number [i]. [randint] raises [ValueError] on the empty range. *)
Definition noise_step (noisy_counts : counts_dict) (i : nat) (item : string * Z)
  : result counts_dict :=
  let '(bitstring, count) := item in
  match draws i with
  | Some flip_pos =>
      let bits := chars bitstring in
      if decide (length bits = 0%nat) then Raise ValueError else
      match bits !! flip_pos with
      | None => Raise IndexError
      | Some ch =>
          let noisy_bitstring := join (<[flip_pos := flip_char ch]> bits) in
          Ok (dict_set noisy_counts noisy_bitstring
                (dict_get noisy_counts noisy_bitstring 0 + count))
      end
  | None =>
      Ok (dict_set noisy_counts bitstring (dict_get noisy_counts bitstring 0 + count))
  end.

Fixpoint noise_loop (i : nat) (items : counts_dict) (noisy_counts : counts_dict)
  : result counts_dict :=
  match items with
  | [] => Ok noisy_counts
  | item :: rest =>
      noisy_counts' ← noise_step noisy_counts i item;
      noise_loop (S i) rest noisy_counts'
  end.

Definition add_measurement_noise (counts : counts_dict) : result counts_dict :=
  noise_loop 0 counts [].
End MeasurementNoise.

(** ** The test-case executor *)

(** [k[::-1]] *)
Definition string_rev (k : string) : string :=
  fold_left (fun acc ch => String ch acc) (chars k) EmptyString.

Section RunTestCase.
(** The keys of [counts] at each attempt, as [run_simon] and, under
    [add_noise], [add_measurement_noise] deliver them: the quantum
    simulation and the random bit flips are outside this model. *)
Variable counts_keys : nat → list string.
Variables (n : nat) (s_int : Z).
Variable limit_measurements : option nat.
Variable add_noise : bool.
Variable max_retries : nat.

(** [measured] as handed to the solver at one attempt. *)
Definition measured_at (attempt : nat) : list string :=
  let measured := map string_rev (counts_keys attempt) in
  match limit_measurements with
  | Some (S k) => take (S k) measured
  | _ => measured
  end.

(** The body of [for attempt in range(max_retries)]; [log] collects the
    attempts at which the oracle has been run, latest first. The first
    component is [Some] of what the function returns (or raises) inside
    the loop, and [None] when the loop runs to its end. *)
Fixpoint attempts_loop (attempts : list nat) (log : list nat)
  : option (result bool) * list nat :=
  match attempts with
  | [] => (None, log)
  | attempt :: rest =>
      let log := attempt :: log in
      match solve_for_s_enhanced n (measured_at attempt) with
      | Raise e => (Some (Raise e), log)
      | Ok (Some s_found, _) =>
          if decide (s_found = s_int) then (Some (Ok true), log)
          else if add_noise then attempts_loop rest log
          else (Some (Ok false), log)
      | Ok (None, _) =>
          if decide (attempt < max_retries - 1)%nat then attempts_loop rest log
          else (Some (Ok false), log)
      end
  end.

(** Returns the verdict and the attempts made, in order. *)
Definition run_test_case : result bool * list nat :=
  let '(ret, log) := attempts_loop (seq 0 max_retries) [] in
  (default (Ok false) ret, rev log).
End RunTestCase.

(** ** Vocabulary of the statements *)

Definition bit (v : Z) : Prop := v = 0 ∨ v = 1.

(** A bit vector of width [n]. *)
Definition bitvec (n : nat) (v : list Z) : Prop :=
  length v = n ∧ Forall bit v.

(** A measurement string of width [n]: [n] characters, each '0' or '1'. *)
Definition bitstring (n : nat) (m : string) : Prop :=
  length (chars m) = n ∧ Forall (fun ch => ch = "0"%char ∨ ch = "1"%char) (chars m).

(** The row that [row_of_string] reads off a string of digits. *)
Definition bits_of (m : string) : list Z :=
  map (fun ch => Z.of_nat (nat_of_ascii ch) - 48) (chars m).

(** The GF(2) dot product: XOR of the bitwise ANDs. *)
Definition dot (y s : list Z) : Z := foldr Z.lxor 0 (zip_with Z.land y s).

(** [s] is orthogonal to every row of [A]. *)
Definition orth (s : list Z) (A : matrix) : Prop :=
  Forall (fun row => dot row s = 0) A.

(** An [r] by [n] matrix of bits. *)
Definition bitmatrix (r n : nat) (A : matrix) : Prop :=
  length A = r ∧ Forall (bitvec n) A.

(** A row whose leading 1 is in column [p]. *)
Definition leads_at (p : nat) (row : list Z) : Prop :=
  row !! p = Some 1 ∧ ∀ q, (q < p)%nat → row !! q = Some 0.

(** One elementary row operation of the elimination. *)
Inductive row_op : matrix → matrix → Prop :=
| row_op_swap A p k rp rk :
    A !! p = Some rp → A !! k = Some rk →
    row_op A (<[k := rp]> (<[p := rk]> A))
| row_op_xor A i k a b :
    i ≠ k → A !! i = Some a → A !! k = Some b →
    row_op A (<[i := xor_rows a b]> A).

(** The loop invariant of the forward elimination on an [r] by [n] matrix
    once the columns below [j] are done: the rows above [rank] are in
    echelon form with their leading 1 in the recorded pivot columns, the
    remaining rows are zero in every column below [j]. *)
Record echelon (n r j : nat) (st : elim_state) : Prop := {
  ech_wf : bitmatrix r n (es_A st);
  ech_len : length (es_pivot_cols st) = es_rank st;
  ech_rank : (es_rank st ≤ r)%nat;
  ech_lt : Forall (fun p => (p < j)%nat) (es_pivot_cols st);
  ech_sorted : ∀ i1 i2 p1 p2, (i1 < i2)%nat →
    es_pivot_cols st !! i1 = Some p1 → es_pivot_cols st !! i2 = Some p2 →
    (p1 < p2)%nat;
  ech_lead : ∀ i p row,
    es_pivot_cols st !! i = Some p → es_A st !! i = Some row → leads_at p row;
  ech_low : ∀ i row q, (es_rank st ≤ i)%nat → es_A st !! i = Some row →
    (q < j)%nat → row !! q = Some 0
}.

(** The loop invariant of [build_simon_function] once the inputs below [x]
    are done, for [N] inputs and the period [s]. *)
Record simon_inv (N : nat) (s : Z) (x : nat) (st : simon_state) : Prop := {
  si_len : length (seen st) = N;
  si_seen : ∀ z : nat, (z < N)%nat →
    seen st !! z =
    Some (bool_decide (Z.of_nat z < Z.of_nat x ∨ Z.lxor (Z.of_nat z) s < Z.of_nat x));
  si_dom : ∀ z : Z, is_Some (mapping st !! z) ↔
    0 ≤ z < Z.of_nat N ∧ (z < Z.of_nat x ∨ Z.lxor z s < Z.of_nat x);
  si_val : ∀ z v, mapping st !! z = Some v → v < next_output st;
  si_pair : ∀ z v, mapping st !! z = Some v → mapping st !! Z.lxor z s = Some v;
  si_two : ∀ z1 z2 v, mapping st !! z1 = Some v → mapping st !! z2 = Some v →
    z2 = z1 ∨ z2 = Z.lxor z1 s
}.

(** The XOR of the rows of [vs] selected by [cs]. *)
Fixpoint combination (n : nat) (cs : list bool) (vs : matrix) : list Z :=
  match cs, vs with
  | c :: cs', v :: vs' =>
      if c then xor_rows v (combination n cs' vs') else combination n cs' vs'
  | _, _ => replicate n 0
  end.


Definition in_span (n : nat) (ws : matrix) (v : list Z) : Prop :=
  ∃ cs, length cs = length ws ∧ combination n cs ws = v.



(** Rows in echelon form, as a list: pivot rows leading at [pivots], in
    increasing columns below [j], then rows that are zero below [j]. *)
Fixpoint stair (n j : nat) (pivots : list nat) (rows : matrix) : Prop :=
  match pivots with
  | [] => Forall (fun row => bitvec n row ∧
                             ∀ q, (q < j)%nat → row !! q = Some 0) rows
  | p :: ps =>
      match rows with
      | [] => False
      | row :: rest =>
          bitvec n row ∧ leads_at p row ∧ (p < j)%nat ∧
          Forall (fun p' => (p < p')%nat) ps ∧ stair n j ps rest
      end
  end.

(** The GF(2) rank of [rows], stated on the rows alone: [k] is the number
    of columns in which some XOR of rows has its leading 1 (the pivot
    columns of every echelon form of the rows). *)
Definition row_rank (n : nat) (rows : matrix) (k : nat) : Prop :=
  ∃ pivots : list nat,
    length pivots = k ∧ NoDup pivots ∧
    ∀ c, c ∈ pivots ↔ (c < n)%nat ∧ ∃ x, in_span n rows x ∧ leads_at c x.

(** How often [m] occurs in a list. *)
Definition occurrences (m : string) (l : list string) : nat :=
  length (filter (fun x => x = m) l).

(** ** Vocabulary of the oracle circuit and of the noise *)

(** The action of a gate on a computational basis state, one boolean per
    qubit. *)
Definition apply_gate (g : gate) (st : list bool) : list bool :=
  match g with
  | GateX q => alter negb q st
  | GateCX c t => if nth c st false then alter negb t st else st
  | GateMCX controls t =>
      if forallb (fun c => nth c st false) controls then alter negb t st else st
  end.

Definition run_gates (gs : list gate) (st : list bool) : list bool :=
  fold_left (fun st g => apply_gate g st) gs st.

(** The register holding [x]: qubit [idx] carries [int_to_bits(x, n)[idx]]. *)
Definition basis_state (n : nat) (x : Z) : list bool :=
  map (fun b => bool_decide (b = 1)) (int_to_bits x n).

(** What [control_flips] does to the input register. *)
Definition flip_controls (inp : list bool) (x_bits : list Z) : list bool :=
  zip_with (fun b x => if decide (x = 0) then negb b else b) inp x_bits.

(** The input register on which all controls of the block for [x_bits]
    fire. *)
Definition control_pattern (x_bits : list Z) : list bool :=
  map (fun x => bool_decide (x ≠ 0)) x_bits.

(** The XOR of the output patterns of the items whose controls fire on the
    input register [inp]. *)
Fixpoint oracle_mask (n : nat) (items : list (Z * Z)) (inp : list bool) : list bool :=
  match items with
  | [] => replicate n false
  | item :: rest =>
      if decide (inp = control_pattern (int_to_bits (fst item) n))
      then zip_with xorb (basis_state n (snd item)) (oracle_mask n rest inp)
      else oracle_mask n rest inp
  end.

(** An ASCII character other than the digits '0'..'9': [int(ch)] raises
    [ValueError] on each of them. *)
Definition ascii_non_digit (ch : ascii) : Prop :=
  Z.of_nat (nat_of_ascii ch) < 128 ∧ ¬ (48 ≤ Z.of_nat (nat_of_ascii ch) ≤ 57).

(** The number of shots recorded in a dictionary. *)
Definition total_shots (d : counts_dict) : Z := foldr (fun item acc => snd item + acc) 0 d.

(** * Properties *)
(** ** Bits and integers *)

Lemma bit_land_1 v : bit v → Z.land v 1 = v.
Proof. by intros [-> | ->]. Qed.

Lemma lxor_bit a b : bit a → bit b → bit (Z.lxor a b).
Proof. intros [-> | ->] [-> | ->]; first [by left | by right]. Qed.

Lemma land_bit a b : bit a → bit b → bit (Z.land a b).
Proof. intros [-> | ->] [-> | ->]; first [by left | by right]. Qed.

Lemma land_lxor_distr_l a b c :
  Z.land (Z.lxor a b) c = Z.lxor (Z.land a c) (Z.land b c).
Proof.
  apply Z.bits_inj'; intros k _.
  rewrite !Z.lxor_spec, !Z.land_spec, Z.lxor_spec.
  by destruct (Z.testbit a k), (Z.testbit b k), (Z.testbit c k).
Qed.

Lemma testbit_1_high k : k ≠ 0 → Z.testbit 1 k = false.
Proof. intros Hk. change 1 with (2 ^ 0). apply Z.pow2_bits_false. lia. Qed.

Lemma int_to_bits_S x n :
  int_to_bits x (S n) = Z.land (Z.shiftr x (Z.of_nat n)) 1 :: int_to_bits x n.
Proof. unfold int_to_bits. by rewrite seq_S, rev_unit. Qed.

Lemma int_to_bits_length x n : length (int_to_bits x n) = n.
Proof. unfold int_to_bits. by rewrite length_map, length_rev, length_seq. Qed.

Lemma int_to_bits_snoc x n :
  int_to_bits x (S n) = int_to_bits (Z.shiftr x 1) n ++ [Z.land x 1].
Proof.
  induction n as [|n IH]; [done|].
  rewrite int_to_bits_S, IH, (int_to_bits_S _ n). simpl. f_equal.
  rewrite Z.shiftr_shiftr by lia. do 2 f_equal. lia.
Qed.

Lemma land_1_bit x : bit (Z.land x 1).
Proof.
  change 1 with (Z.ones 1). rewrite Z.land_ones by lia.
  unfold bit. change (2 ^ 1) with 2. pose proof (Z.mod_pos_bound x 2). lia.
Qed.

Lemma int_to_bits_bits x n : Forall bit (int_to_bits x n).
Proof. unfold int_to_bits. apply Forall_map, Forall_forall. intros; apply land_1_bit. Qed.

Lemma int_to_bits_bitvec x n : bitvec n (int_to_bits x n).
Proof. split; [apply int_to_bits_length | apply int_to_bits_bits]. Qed.

Lemma bits_to_int_snoc l b :
  bits_to_int (l ++ [b]) = Z.lor (Z.shiftl (bits_to_int l) 1) (Z.land b 1).
Proof. unfold bits_to_int. by rewrite fold_left_app. Qed.

Lemma shift_lor_bit x : Z.lor (Z.shiftl (Z.shiftr x 1) 1) (Z.land x 1) = x.
Proof.
  apply Z.bits_inj'; intros k Hk.
  rewrite Z.lor_spec, Z.land_spec.
  destruct (decide (k = 0)) as [-> | Hne].
  - rewrite Z.shiftl_spec_low by lia. simpl. by rewrite andb_true_r.
  - rewrite Z.shiftl_spec, Z.shiftr_spec by lia.
    replace (k - 1 + 1) with k by lia.
    by rewrite testbit_1_high, andb_false_r, orb_false_r.
Qed.

Lemma bits_to_int_to_bits n : ∀ x, 0 ≤ x < 2 ^ Z.of_nat n →
  bits_to_int (int_to_bits x n) = x.
Proof.
  induction n as [|n IH]; intros x Hx.
  - simpl in *. unfold int_to_bits, bits_to_int. simpl. lia.
  - rewrite int_to_bits_snoc, bits_to_int_snoc, IH.
    + rewrite (bit_land_1 (Z.land x 1)) by apply land_1_bit. apply shift_lor_bit.
    + rewrite Z.shiftr_div_pow2 by lia. change (2 ^ 1) with 2.
      rewrite Nat2Z.inj_succ, Z.pow_succ_r in Hx by lia.
      split; [apply Z.div_pos; lia | apply Z.div_lt_upper_bound; lia].
Qed.

Lemma bits_to_int_range l : 0 ≤ bits_to_int l < 2 ^ Z.of_nat (length l).
Proof.
  induction l as [|b l IH] using rev_ind; [done|].
  rewrite bits_to_int_snoc, length_app, Nat.add_1_r, Nat2Z.inj_succ, Z.pow_succ_r by lia.
  pose proof (land_1_bit b) as Hb.
  rewrite <- Z.lxor_lor, <- Z.add_nocarry_lxor.
  - rewrite Z.shiftl_mul_pow2 by lia. change (2 ^ 1) with 2. destruct Hb; lia.
  - apply Z.bits_inj'; intros k Hk. rewrite Z.land_spec, Z.bits_0.
    destruct (decide (k = 0)) as [-> | Hne].
    + by rewrite Z.shiftl_spec_low by lia.
    + by rewrite (Z.land_spec b), testbit_1_high, andb_false_r, andb_false_r.
  - apply Z.bits_inj'; intros k Hk. rewrite Z.land_spec, Z.bits_0.
    destruct (decide (k = 0)) as [-> | Hne].
    + by rewrite Z.shiftl_spec_low by lia.
    + by rewrite (Z.land_spec b), testbit_1_high, andb_false_r, andb_false_r.
Qed.

Lemma shift_lor_shiftr x b : bit b →
  Z.shiftr (Z.lor (Z.shiftl x 1) b) 1 = x ∧ Z.land (Z.lor (Z.shiftl x 1) b) 1 = b.
Proof.
  intros Hb. split.
  - rewrite Z.shiftr_lor, Z.shiftr_shiftl_l by lia. simpl.
    destruct Hb as [-> | ->]; simpl; by rewrite ?Z.lor_0_r.
  - rewrite Z.land_lor_distr_l.
    replace (Z.land (Z.shiftl x 1) 1) with 0; [by rewrite Z.lor_0_l, bit_land_1|].
    symmetry. apply Z.bits_inj'; intros k Hk. rewrite Z.land_spec, Z.bits_0.
    destruct (decide (k = 0)) as [-> | Hne].
    + by rewrite Z.shiftl_spec_low by lia.
    + by rewrite testbit_1_high, andb_false_r.
Qed.

Lemma int_to_bits_to_int l : Forall bit l →
  int_to_bits (bits_to_int l) (length l) = l.
Proof.
  induction l as [|b l IH] using rev_ind; [done|].
  rewrite Forall_app, Forall_singleton. intros [Hl Hb].
  rewrite length_app, Nat.add_1_r, int_to_bits_snoc, bits_to_int_snoc.
  rewrite (bit_land_1 b) by done.
  destruct (shift_lor_shiftr (bits_to_int l) b Hb) as [-> ->].
  by rewrite IH.
Qed.

Lemma bits_to_int_replicate n : bits_to_int (replicate n 0) = 0.
Proof.
  induction n as [|n IH]; [done|].
  rewrite replicate_S_end, bits_to_int_snoc, IH. done.
Qed.

Lemma bits_to_int_zero l : Forall bit l → bits_to_int l = 0 → l = replicate (length l) 0.
Proof.
  intros Hl H0. rewrite <- (int_to_bits_to_int l) at 1 by done. rewrite H0.
  clear. induction (length l) as [|n IH]; [done|].
  rewrite int_to_bits_S, IH. by rewrite Z.shiftr_0_l.
Qed.

(** ** Dot products and row XOR *)

Ltac xor_ac :=
  apply Z.bits_inj'; intros ? _; rewrite ?Z.lxor_spec;
  repeat match goal with
         | |- context [Z.testbit ?a ?k] => destruct (Z.testbit a k)
         end; reflexivity.

Lemma dot_cons a y b s : dot (a :: y) (b :: s) = Z.lxor (Z.land a b) (dot y s).
Proof. done. Qed.

Lemma dot_nil_r y : dot y [] = 0.
Proof. by destruct y. Qed.

Lemma dot_xor a : ∀ b s, length a = length b →
  dot (xor_rows a b) s = Z.lxor (dot a s) (dot b s).
Proof.
  induction a as [|x a IH]; intros [|y b] [|z s] Hlen; try done.
  simpl in Hlen. unfold xor_rows in *. simpl. rewrite !dot_cons, IH by lia.
  rewrite land_lxor_distr_l. xor_ac.
Qed.

Lemma dot_bit y : ∀ s, Forall bit y → Forall bit s → bit (dot y s).
Proof.
  induction y as [|a y IH]; intros [|b s] Hy Hs; try by left.
  inversion_clear Hy. inversion_clear Hs. rewrite dot_cons.
  apply lxor_bit; [by apply land_bit | by apply IH].
Qed.

Lemma dot_zero_l n : ∀ s, dot (replicate n 0) s = 0.
Proof. induction n as [|n IH]; intros [|b s]; try done. simpl. by rewrite dot_cons, IH. Qed.

Lemma dot_zero_r n : ∀ y, dot y (replicate n 0) = 0.
Proof.
  induction n as [|n IH]; intros [|a y]; try done. simpl.
  by rewrite dot_cons, IH, Z.land_0_r.
Qed.

Lemma dot_app y1 : ∀ y2 s1 s2, length y1 = length s1 →
  dot (y1 ++ y2) (s1 ++ s2) = Z.lxor (dot y1 s1) (dot y2 s2).
Proof.
  induction y1 as [|a y1 IH]; intros y2 [|b s1] s2 Hlen; try done.
  simpl in *. rewrite !dot_cons, IH by lia. xor_ac.
Qed.

Lemma dot_at p y s a b :
  length y = length s → y !! p = Some a → s !! p = Some b →
  dot y s = Z.lxor (dot (take p y) (take p s))
              (Z.lxor (Z.land a b) (dot (drop (S p) y) (drop (S p) s))).
Proof.
  intros Hlen Hy Hs.
  rewrite <- (take_drop_middle y p a Hy) at 1.
  rewrite <- (take_drop_middle s p b Hs) at 1.
  rewrite dot_app, dot_cons; [done|].
  rewrite !length_take. lia.
Qed.

Lemma take_zero p : ∀ y : list Z, (∀ q, (q < p)%nat → y !! q = Some 0) →
  take p y = replicate p 0.
Proof.
  induction p as [|p IH]; intros y Hy; [done|].
  destruct y as [|a y]; [by specialize (Hy 0%nat ltac:(lia))|].
  simpl. f_equal.
  - specialize (Hy 0%nat ltac:(lia)). by injection Hy.
  - apply IH. intros q Hq. apply (Hy (S q)). lia.
Qed.

Lemma dot_leads p row s b :
  length row = length s → leads_at p row → s !! p = Some b → bit b →
  dot row s = Z.lxor b (dot (drop (S p) row) (drop (S p) s)).
Proof.
  intros Hlen [H1 H0] Hs Hb.
  rewrite (dot_at p row s 1 b) by done.
  rewrite (take_zero p row H0), dot_zero_l, Z.lxor_0_l.
  destruct Hb as [-> | ->]; done.
Qed.

Lemma dot_insert_zero p row s v :
  length row = length s → row !! p = Some 0 →
  dot row (<[p := v]> s) = dot row s.
Proof.
  intros Hlen Hrow.
  assert (p < length s)%nat as Hp by (rewrite <- Hlen; by eapply lookup_lt_Some).
  destruct (lookup_lt_is_Some_2 s p Hp) as [b Hb].
  rewrite (dot_at p row (<[p := v]> s) 0 v);
    [| by rewrite length_insert | done | by apply list_lookup_insert_eq].
  rewrite (dot_at p row s 0 b) by done.
  by rewrite take_insert_ge, drop_insert_lt by lia.
Qed.

Lemma dot_insert_leads p row s :
  length row = length s → leads_at p row → Forall bit row → Forall bit s →
  dot row (<[p := dot (drop (S p) row) (drop (S p) s)]> s) = 0.
Proof.
  intros Hlen Hlead Hrow Hs.
  assert (p < length s)%nat as Hp
    by (rewrite <- Hlen; destruct Hlead as [H1 _]; by eapply lookup_lt_Some).
  set (rhs := dot (drop (S p) row) (drop (S p) s)).
  assert (bit rhs) as Hrhs by (apply dot_bit; by apply Forall_drop).
  rewrite (dot_leads p row _ rhs);
    [| by rewrite length_insert | done | by apply list_lookup_insert_eq | done].
  rewrite drop_insert_lt by lia. apply Z.lxor_nilpotent.
Qed.

(** ** Reading measurement strings *)

Lemma mapM_ok {A B} (f : A → result B) (g : A → B) l :
  Forall (fun a => f a = Ok (g a)) l → mapM f l = Ok (map g l).
Proof.
  induction 1 as [|a l Ha _ IH]; [done|].
  simpl. rewrite Ha. simpl. by rewrite IH.
Qed.

Lemma mapM_length {A B} (f : A → result B) l : ∀ bs,
  mapM f l = Ok bs → length bs = length l.
Proof.
  induction l as [|a l IH]; intros bs; simpl.
  - by intros [= <-].
  - destruct (f a); [|done]. simpl. destruct (mapM f l); [|done]. simpl.
    intros [= <-]. simpl. f_equal. by apply IH.
Qed.

Lemma bitstring_row n m : bitstring n m →
  row_of_string m = Ok (bits_of m) ∧ bitvec n (bits_of m).
Proof.
  intros [Hlen Hch]. unfold row_of_string, bits_of, bitvec. split; [|split].
  - apply mapM_ok. eapply Forall_impl; [exact Hch|].
    intros ch [-> | ->]; done.
  - by rewrite length_map.
  - apply Forall_map. eapply Forall_impl; [exact Hch|].
    intros ch [-> | ->]; [by left | by right].
Qed.

Lemma bitstrings_rows n ms : Forall (bitstring n) ms →
  mapM row_of_string ms = Ok (map bits_of ms) ∧
  bitmatrix (length ms) n (map bits_of ms).
Proof.
  intros Hms. split; [|split].
  - apply mapM_ok. eapply Forall_impl; [exact Hms|].
    intros m Hm. by apply (bitstring_row n).
  - by rewrite length_map.
  - apply Forall_map. eapply Forall_impl; [exact Hms|].
    intros m Hm. by apply (bitstring_row n).
Qed.

Lemma np_array_bitmatrix r n A : bitmatrix r n A → np_array A = Ok A.
Proof.
  intros [_ HA]. destruct A as [|row0 A]; [done|]. unfold np_array.
  rewrite decide_True; [done|].
  pose proof (Forall_inv HA) as [H0 _].
  eapply Forall_impl; [exact HA|]. intros row [Hrow _]. congruence.
Qed.

Lemma shape_bitmatrix r n A : bitmatrix r n A → (0 < r)%nat → shape A = (r, n).
Proof.
  intros [Hr HA] Hpos. destruct A as [|row0 A]; [simpl in *; lia|].
  unfold shape. pose proof (Forall_inv HA) as [H0 _]. simpl in *. by rewrite H0, <- Hr.
Qed.

(** ** The elementary steps *)

Lemma bitvec_lookup n row q : bitvec n row → (q < n)%nat →
  ∃ v, row !! q = Some v ∧ bit v.
Proof.
  intros [Hlen Hbits] Hq.
  destruct (lookup_lt_is_Some_2 row q) as [v Hv]; [lia|].
  exists v. split; [done|]. by eapply Forall_lookup_1.
Qed.

Lemma bitmatrix_lookup r n A i : bitmatrix r n A → (i < r)%nat →
  ∃ row, A !! i = Some row ∧ bitvec n row.
Proof.
  intros [Hlen Hrows] Hi.
  destruct (lookup_lt_is_Some_2 A i) as [row Hrow]; [lia|].
  exists row. split; [done|]. by eapply Forall_lookup_1.
Qed.

Lemma bitmatrix_row r n A i row : bitmatrix r n A → A !! i = Some row →
  bitvec n row ∧ (i < r)%nat.
Proof.
  intros [Hlen Hrows] Hrow. split; [by eapply Forall_lookup_1|].
  rewrite <- Hlen. by eapply lookup_lt_Some.
Qed.

Lemma bitmatrix_insert r n A i row :
  bitmatrix r n A → bitvec n row → bitmatrix r n (<[i := row]> A).
Proof.
  intros [Hlen Hrows] Hrow. split; [by rewrite length_insert|].
  destruct (decide (i < length A)%nat).
  - by apply Forall_insert.
  - by rewrite list_insert_ge by lia.
Qed.

Lemma xor_rows_bits a : ∀ b, Forall bit a → Forall bit b → Forall bit (xor_rows a b).
Proof.
  induction a as [|x a IH]; intros [|y b] Ha Hb; try by constructor.
  inversion_clear Ha. inversion_clear Hb.
  constructor; [by apply lxor_bit | by apply IH].
Qed.

Lemma xor_rows_bitvec n a b : bitvec n a → bitvec n b → bitvec n (xor_rows a b).
Proof.
  intros [Ha1 Ha2] [Hb1 Hb2]. split; [|by apply xor_rows_bits].
  unfold xor_rows. rewrite length_zip_with. lia.
Qed.

Lemma xor_rows_lookup a b q x y :
  a !! q = Some x → b !! q = Some y → xor_rows a b !! q = Some (Z.lxor x y).
Proof. intros Ha Hb. unfold xor_rows. by rewrite lookup_zip_with, Ha, Hb. Qed.

Lemma row_op_bitmatrix r n A A' : row_op A A' → bitmatrix r n A → bitmatrix r n A'.
Proof.
  intros Hop HA. destruct Hop as [A p k rp rk Hp Hk | A i k a b Hne Ha Hb].
  - apply bitmatrix_insert; [apply bitmatrix_insert; [done|]|];
      by eapply bitmatrix_row.
  - apply bitmatrix_insert; [done|].
    apply xor_rows_bitvec; by eapply bitmatrix_row.
Qed.

Lemma getitem2_ok A row col rw v :
  A !! row = Some rw → rw !! col = Some v → getitem2 A row col = Ok v.
Proof. intros H1 H2. unfold getitem2. by rewrite H1, H2. Qed.

Lemma getrow_ok A row rw : A !! row = Some rw → getrow A row = Ok rw.
Proof. intros H1. unfold getrow. by rewrite H1. Qed.

Lemma find_pivot_spec r n A col :
  bitmatrix r n A → (col < n)%nat →
  ∀ m a, (a + m ≤ r)%nat →
  ∃ o, find_pivot A col (seq a m) = Ok o ∧
       match o with
       | None => ∀ i row, (a ≤ i < a + m)%nat → A !! i = Some row →
                          row !! col = Some 0
       | Some p => (a ≤ p < a + m)%nat ∧
                   ∃ row, A !! p = Some row ∧ row !! col = Some 1
       end.
Proof.
  intros HA Hcol. induction m as [|m IH]; intros a Hle.
  - exists None. split; [done|]. intros; lia.
  - destruct (bitmatrix_lookup r n A a HA) as (rowa & Hrowa & Hbv); [lia|].
    destruct (bitvec_lookup n rowa col Hbv Hcol) as (v & Hv & Hbit).
    simpl. rewrite (getitem2_ok _ _ _ _ _ Hrowa Hv). simpl.
    destruct (decide (v = 1)) as [-> | Hne].
    + exists (Some a). split; [done|]. split; [lia|]. by exists rowa.
    + destruct (IH (S a)) as (o & Ho & Hspec); [lia|].
      exists o. split; [done|]. destruct o as [p|].
      * destruct Hspec as [Hp Hrow]. split; [lia | done].
      * intros i row Hi Hrow. destruct (decide (i = a)) as [-> | Hia].
        -- rewrite Hrowa in Hrow. injection Hrow as <-.
           rewrite Hv. destruct Hbit; congruence.
        -- apply (Hspec i); [lia | done].
Qed.

Lemma eliminate_below_spec r n col k prow :
  (col < n)%nat →
  ∀ m a A, bitmatrix r n A → A !! k = Some prow → (k < a)%nat → (a + m ≤ r)%nat →
  ∃ A', eliminate_below A col k (seq a m) = Ok A' ∧ rtc row_op A A' ∧
        ∀ i, A' !! i =
             (fun row => if decide ((a ≤ i < a + m)%nat ∧ row !! col = Some 1)
                         then xor_rows row prow else row) <$> A !! i.
Proof.
  intros Hcol. induction m as [|m IH]; intros a A HA Hk Hka Hle.
  - exists A. split; [done|]. split; [done|]. intros i.
    destruct (A !! i); [|done]. simpl. rewrite decide_False; [done | lia].
  - destruct (bitmatrix_lookup r n A a HA) as (rowa & Hrowa & Hbv); [lia|].
    destruct (bitvec_lookup n rowa col Hbv Hcol) as (v & Hv & Hbit).
    simpl. rewrite (getitem2_ok _ _ _ _ _ Hrowa Hv). simpl.
    destruct (decide (v = 1)) as [-> | Hne].
    + unfold xor_row_into. rewrite (getrow_ok _ _ _ Hrowa), (getrow_ok _ _ _ Hk). simpl.
      assert (row_op A (<[a := xor_rows rowa prow]> A)) as Hop
        by (apply (row_op_xor A a k); [lia | done | done]).
      destruct (IH (S a) (<[a := xor_rows rowa prow]> A)) as (A' & HA' & Hrtc & Hlook);
        [by eapply row_op_bitmatrix | by rewrite list_lookup_insert_ne by lia | lia | lia |].
      exists A'. split; [done|]. split; [by eapply rtc_l|].
      intros i. rewrite Hlook. destruct (decide (i = a)) as [-> | Hia].
      * rewrite list_lookup_insert_eq by (by eapply lookup_lt_Some).
        rewrite Hrowa. simpl. rewrite decide_False by lia.
        rewrite decide_True; [done|]. split; [lia | done].
      * rewrite list_lookup_insert_ne by done.
        destruct (A !! i); [|done]. simpl. f_equal.
        apply decide_ext. intuition lia.
    + destruct (IH (S a) A) as (A' & HA' & Hrtc & Hlook); [done | done | lia | lia |].
      exists A'. split; [done|]. split; [done|].
      intros i. rewrite Hlook. destruct (decide (i = a)) as [-> | Hia].
      * rewrite Hrowa. simpl. rewrite !decide_False; [done | | lia].
        intros [_ Hc]. congruence.
      * destruct (A !! i); [|done]. simpl. f_equal.
        apply decide_ext. intuition lia.
Qed.

Lemma rtc_row_op_bitmatrix r n A A' : rtc row_op A A' → bitmatrix r n A → bitmatrix r n A'.
Proof. induction 1; [done|]. intros. eauto using row_op_bitmatrix. Qed.

(** ** The forward elimination keeps the echelon invariant *)

Lemma echelon_mono n r j j' st :
  echelon n r j st → (j ≤ j')%nat → es_rank st = r → echelon n r j' st.
Proof.
  intros [Hwf Hlen Hrank Hlt Hsorted Hlead Hlow] Hj Hr. split; try done.
  - eapply Forall_impl; [exact Hlt|]. simpl. lia.
  - intros i row q Hi Hrow _. exfalso.
    destruct (bitmatrix_row _ _ _ _ _ Hwf Hrow). lia.
Qed.

Lemma echelon_start r n A : bitmatrix r n A → echelon n r 0 (elim_start A).
Proof.
  intros HA. split; simpl; first [done | lia].
Qed.

Lemma pivot_step n r j st p rowp :
  echelon n r j st → (j < n)%nat → (es_rank st ≤ p < r)%nat →
  es_A st !! p = Some rowp → rowp !! j = Some 1 →
  ∃ A2,
    (A1 ← (if decide (p ≠ es_rank st) then swap_rows (es_A st) p (es_rank st)
           else Ok (es_A st));
     eliminate_below A1 j (es_rank st)
       (seq (es_rank st + 1) (r - (es_rank st + 1)))) = Ok A2 ∧
    rtc row_op (es_A st) A2 ∧
    echelon n r (S j) {| es_A := A2; es_rank := (es_rank st + 1)%nat;
                         es_pivot_cols := es_pivot_cols st ++ [j] |}.
Proof.
  intros [Hwf Hlen Hrank Hlt Hsorted Hlead Hlow] Hj Hp Hrowp Hone.
  destruct st as [A k pivots]. simpl in *.
  destruct (bitmatrix_lookup r n A k Hwf) as (rowk & Hrowk & Hbvk); [lia|].
  set (A1 := <[k := rowp]> (<[p := rowk]> A)).
  assert (row_op A A1) as Hop by (by apply row_op_swap).
  assert ((if decide (p ≠ k) then swap_rows A p k else Ok A) = Ok A1) as ->.
  { case_decide as Hpk.
    - unfold swap_rows. by rewrite (getrow_ok _ _ _ Hrowp), (getrow_ok _ _ _ Hrowk).
    - assert (p = k) as -> by lia. unfold A1. f_equal.
      rewrite Hrowk in Hrowp. injection Hrowp as ->.
      by rewrite !(list_insert_id A k rowp). }
  assert (bitmatrix r n A1) as Hwf1 by (by eapply row_op_bitmatrix).
  assert (A1 !! k = Some rowp) as Hk1.
  { unfold A1. apply list_lookup_insert_eq. rewrite length_insert.
    by eapply lookup_lt_Some. }
  assert (∀ i, (i < k)%nat → A1 !! i = A !! i) as Hup.
  { intros i Hi. unfold A1. by rewrite !list_lookup_insert_ne by lia. }
  assert (∀ i row q, (k ≤ i)%nat → A1 !! i = Some row → (q < j)%nat →
                     row !! q = Some 0) as Hlow1.
  { intros i row q Hi Hrow Hq.
    destruct (decide (i = k)) as [-> | Hik].
    - rewrite Hk1 in Hrow. injection Hrow as <-. apply (Hlow p); [lia | done | lia].
    - unfold A1 in Hrow. rewrite list_lookup_insert_ne in Hrow by done.
      destruct (decide (i = p)) as [-> | Hip].
      + rewrite list_lookup_insert_eq in Hrow by (by eapply lookup_lt_Some).
        injection Hrow as <-. apply (Hlow k); [lia | done | lia].
      + rewrite list_lookup_insert_ne in Hrow by done. apply (Hlow i); [lia | done | lia]. }
  destruct (eliminate_below_spec r n j k rowp Hj (r - (k + 1)) (k + 1)%nat A1)
    as (A2 & HA2 & Hrtc & Hlook); [done | done | lia | lia |].
  exists A2. simpl. split; [done|]. split; [by eapply rtc_l|].
  assert (bitmatrix r n A2) as Hwf2 by (by eapply rtc_row_op_bitmatrix).
  split; simpl.
  - done.
  - rewrite length_app. simpl. lia.
  - lia.
  - apply Forall_app. split; [|by repeat constructor; lia].
    eapply Forall_impl; [exact Hlt|]. simpl. lia.
  - intros i1 i2 p1 p2 Hi H1 H2.
    assert (i2 < length (pivots ++ [j]))%nat as Hi2 by (by eapply lookup_lt_Some).
    rewrite length_app in Hi2. simpl in Hi2.
    rewrite lookup_app_l in H1 by lia.
    destruct (decide (i2 < length pivots)%nat) as [Hlt2 | Hge2].
    + rewrite lookup_app_l in H2 by done. by apply (Hsorted i1 i2).
    + rewrite lookup_app_r in H2 by lia.
      replace (i2 - length pivots)%nat with 0%nat in H2 by lia.
      injection H2 as <-. by eapply (Forall_lookup_1 _ _ _ _ Hlt).
  - intros i p' row Hpiv Hrow.
    assert (i < length (pivots ++ [j]))%nat as Hi by (by eapply lookup_lt_Some).
    rewrite length_app in Hi. simpl in Hi.
    rewrite Hlook in Hrow.
    destruct (A1 !! i) as [row1|] eqn:Hrow1; [|done]. simpl in Hrow.
    rewrite decide_False in Hrow by lia. injection Hrow as <-.
    destruct (decide (i < length pivots)%nat) as [Hlt2 | Hge2].
    + rewrite lookup_app_l in Hpiv by done. rewrite Hup in Hrow1 by lia.
      by eapply Hlead.
    + rewrite lookup_app_r in Hpiv by lia.
      replace (i - length pivots)%nat with 0%nat in Hpiv by lia.
      injection Hpiv as <-. assert (i = k) as -> by lia.
      rewrite Hk1 in Hrow1. injection Hrow1 as <-.
      split; [done|]. intros q Hq. apply (Hlow p); [lia | done | lia].
  - intros i row q Hi Hrow Hq.
    destruct (bitmatrix_row _ _ _ _ _ Hwf2 Hrow) as [_ Hir].
    rewrite Hlook in Hrow.
    destruct (A1 !! i) as [row1|] eqn:Hrow1; [|done]. simpl in Hrow.
    destruct (bitmatrix_row _ _ _ _ _ Hwf1 Hrow1) as [Hbv1 _].
    destruct (bitvec_lookup n row1 j Hbv1 Hj) as (v & Hv & Hbit).
    injection Hrow as <-.
    destruct (decide (q = j)) as [-> | Hqj].
    + case_decide as Hc.
      * destruct Hc as [_ Hc]. by rewrite (xor_rows_lookup _ _ _ 1 1).
      * rewrite Hv. f_equal. destruct Hbit as [-> | ->]; [done|].
        exfalso. apply Hc. split; [lia | done].
    + assert (row1 !! q = Some 0) as H0 by (apply (Hlow1 i); [lia | done | lia]).
      assert (rowp !! q = Some 0) as H0' by (apply (Hlow p); [lia | done | lia]).
      case_decide; [|done]. by rewrite (xor_rows_lookup _ _ _ 0 0).
Qed.

Lemma forward_elimination_cons r col rest st :
  forward_elimination r (col :: rest) st =
  (p ← find_pivot (es_A st) col (seq (es_rank st) (r - es_rank st));
   match p with
   | None => forward_elimination r rest st
   | Some pivot =>
       A1 ← (if decide (pivot ≠ es_rank st)
             then swap_rows (es_A st) pivot (es_rank st) else Ok (es_A st));
       A2 ← eliminate_below A1 col (es_rank st)
              (seq (es_rank st + 1) (r - (es_rank st + 1)));
       let st' := {| es_A := A2; es_rank := (es_rank st + 1)%nat;
                     es_pivot_cols := es_pivot_cols st ++ [col] |} in
       if decide ((es_rank st + 1)%nat = r) then Ok st'
       else forward_elimination r rest st'
   end).
Proof. done. Qed.

Lemma bind_Ok_inv {A B} (m : result A) (f : A → result B) b :
  m ≫= f = Ok b → ∃ a, m = Ok a ∧ f a = Ok b.
Proof. destruct m as [a|e]; [|done]. intros H. by exists a. Qed.

Lemma forward_elimination_spec n r :
  ∀ k j st, (j + k ≤ n)%nat → echelon n r j st →
  ∃ st', forward_elimination r (seq j k) st = Ok st' ∧
         echelon n r (j + k) st' ∧
         (es_rank st ≤ es_rank st')%nat ∧
         rtc row_op (es_A st) (es_A st').
Proof.
  induction k as [|k IH]; intros j st Hjk Hech.
  - exists st. rewrite Nat.add_0_r. split; [done|]. split; [done|]. split; [lia | done].
  - change (seq j (S k)) with (j :: seq (S j) k).
    rewrite forward_elimination_cons.
    destruct (find_pivot_spec r n (es_A st) j (ech_wf _ _ _ _ Hech) ltac:(lia)
                (r - es_rank st) (es_rank st)) as (o & -> & Ho);
      [pose proof (ech_rank _ _ _ _ Hech); lia|].
    cbn [mbind result_bind]. destruct o as [p|].
    + destruct Ho as (Hp & rowp & Hrowp & Hone).
      destruct (pivot_step n r j st p rowp Hech) as (A2 & HA2 & Hrtc & Hech2);
        [lia | lia | done | done |].
      apply bind_Ok_inv in HA2 as (A1 & HA1 & HA2).
      rewrite HA1. cbn [mbind result_bind]. rewrite HA2.
      cbn [mbind result_bind]. cbv zeta.
      destruct (decide ((es_rank st + 1)%nat = r)) as [Hbreak | Hbreak].
      * eexists. split; [reflexivity|]. simpl. split; [|split; [lia | done]].
        eapply echelon_mono; [exact Hech2 | lia | done].
      * destruct (IH (S j) _ ltac:(lia) Hech2) as (st' & Hst' & Hech' & Hrk & Hrtc').
        exists st'. split; [done|]. simpl in *.
        replace (j + S k)%nat with (S j + k)%nat by lia.
        split; [done|]. split; [lia|]. by etrans.
    + assert (echelon n r (S j) st) as Hech1.
      { destruct Hech as [Hwf Hlen Hrank Hlt Hsorted Hlead Hlow]. split; try done.
        - eapply Forall_impl; [exact Hlt|]. simpl. lia.
        - intros i row q Hi Hrow Hq.
          destruct (bitmatrix_row _ _ _ _ _ Hwf Hrow) as [_ Hir].
          destruct (decide (q = j)) as [-> | Hqj].
          + apply (Ho i); [lia | done].
          + apply (Hlow i); [done | done | lia]. }
      destruct (IH (S j) _ ltac:(lia) Hech1) as (st' & Hst' & Hech' & Hrk & Hrtc').
      exists st'. split; [done|].
      replace (j + S k)%nat with (S j + k)%nat by lia. done.
Qed.

(** ** Row operations keep the nullspace *)

Lemma orth_lookup s A : orth s A ↔ ∀ i row, A !! i = Some row → dot row s = 0.
Proof. unfold orth. by rewrite Forall_lookup. Qed.

Lemma row_op_orth r n s A A' :
  row_op A A' → bitmatrix r n A → (orth s A' ↔ orth s A).
Proof.
  intros Hop HA. rewrite !orth_lookup.
  destruct Hop as [A p k rp rk Hp Hk | A i k a b Hne Ha Hb].
  - assert (p < length A)%nat as Hpl by (by eapply lookup_lt_Some).
    assert (k < length A)%nat as Hkl by (by eapply lookup_lt_Some).
    split; intros H i row Hrow.
    + destruct (decide (i = p)) as [-> | Hip].
      { apply (H k). rewrite list_lookup_insert_eq by (by rewrite length_insert).
        congruence. }
      destruct (decide (i = k)) as [-> | Hik].
      { apply (H p). rewrite list_lookup_insert_ne by done.
        rewrite list_lookup_insert_eq by done. congruence. }
      apply (H i). by rewrite !list_lookup_insert_ne.
    + destruct (decide (i = k)) as [-> | Hik].
      { rewrite list_lookup_insert_eq in Hrow by (by rewrite length_insert).
        injection Hrow as <-. by apply (H p). }
      rewrite list_lookup_insert_ne in Hrow by done.
      destruct (decide (i = p)) as [-> | Hip].
      { rewrite list_lookup_insert_eq in Hrow by done.
        injection Hrow as <-. by apply (H k). }
      rewrite list_lookup_insert_ne in Hrow by done. by apply (H i).
  - assert (i < length A)%nat as Hil by (by eapply lookup_lt_Some).
    assert (length a = length b) as Hab.
    { destruct (bitmatrix_row _ _ _ _ _ HA Ha) as [[-> _] _].
      by destruct (bitmatrix_row _ _ _ _ _ HA Hb) as [[-> _] _]. }
    split; intros H i' row Hrow.
    + destruct (decide (i' = i)) as [-> | Hi].
      * assert (row = a) as -> by congruence.
        assert (dot (xor_rows a b) s = 0) as Hx
          by (apply (H i); by apply list_lookup_insert_eq).
        assert (dot b s = 0) as Hb0
          by (apply (H k); by rewrite list_lookup_insert_ne).
        rewrite dot_xor, Hb0, Z.lxor_0_r in Hx; done.
      * apply (H i'). by rewrite list_lookup_insert_ne.
    + destruct (decide (i' = i)) as [-> | Hi].
      * rewrite list_lookup_insert_eq in Hrow by done. injection Hrow as <-.
        rewrite dot_xor, (H i a), (H k b); done.
      * rewrite list_lookup_insert_ne in Hrow by done. by apply (H i').
Qed.

Lemma rtc_row_op_orth r n s A A' :
  rtc row_op A A' → bitmatrix r n A → (orth s A' ↔ orth s A).
Proof.
  induction 1 as [|A A1 A' Hop _ IH]; [done|]. intros HA.
  rewrite IH by (by eapply row_op_bitmatrix). by eapply row_op_orth.
Qed.

(** ** Back-substitution *)

Lemma first_one_spec n row p :
  bitvec n row → leads_at p row →
  ∀ m a, (a ≤ p < a + m)%nat → first_one row (seq a m) = Ok (Some p).
Proof.
  intros Hrow [H1 H0]. induction m as [|m IH]; intros a Ha; [lia|].
  simpl. destruct (decide (a = p)) as [-> | Hap].
  - by rewrite H1.
  - rewrite (H0 a) by lia. rewrite decide_False by done. apply IH. lia.
Qed.

Lemma compute_rhs_spec row s :
  ∀ m a acc, (a + m ≤ length row)%nat → (a + m ≤ length s)%nat →
  compute_rhs row s (seq a m) acc =
  Ok (Z.lxor acc (dot (take m (drop a row)) (take m (drop a s)))).
Proof.
  induction m as [|m IH]; intros a acc Hrow Hs.
  - simpl. by rewrite Z.lxor_0_r.
  - destruct (lookup_lt_is_Some_2 row a) as [x Hx]; [lia|].
    destruct (lookup_lt_is_Some_2 s a) as [y Hy]; [lia|].
    simpl. rewrite Hx, Hy, IH by lia.
    rewrite (drop_S row x a Hx), (drop_S s y a Hy). simpl.
    rewrite dot_cons. f_equal. xor_ac.
Qed.

Section BackSubstitution.
Context (n r : nat) (st : elim_state) (Hech : echelon n r n st).

Lemma pivot_row i : (i < es_rank st)%nat →
  ∃ p row, es_pivot_cols st !! i = Some p ∧ es_A st !! i = Some row ∧
           (p < n)%nat ∧ bitvec n row ∧ leads_at p row.
Proof.
  intros Hi. destruct Hech as [Hwf Hlen Hrank Hlt Hsorted Hlead Hlow].
  destruct (lookup_lt_is_Some_2 (es_pivot_cols st) i) as [p Hp]; [lia|].
  destruct (bitmatrix_lookup r n (es_A st) i Hwf) as (row & Hrow & Hbv); [lia|].
  exists p, row. split; [done|]. split; [done|].
  split; [by eapply (Forall_lookup_1 _ _ _ _ Hlt)|].
  split; [done|]. by eapply Hlead.
Qed.

Lemma back_substitute_spec :
  ∀ k s, (k ≤ es_rank st)%nat → bitvec n s →
  ∃ s', back_substitute n (es_A st) (rev (seq 0 k)) s = Ok s' ∧
        bitvec n s' ∧
        (∀ j, j ∉ take k (es_pivot_cols st) → s' !! j = s !! j) ∧
        (∀ i row, (i < es_rank st)%nat → es_A st !! i = Some row →
                  (i < k)%nat ∨ dot row s = 0 → dot row s' = 0).
Proof.
  induction k as [|k IH]; intros s Hk Hs.
  - exists s. split; [done|]. split; [done|]. split; [done|].
    intros i row _ _ [?|?]; [lia | done].
  - destruct (pivot_row k) as (p & rowk & Hp & Hrowk & Hpn & Hbvk & Hleadk); [lia|].
    rewrite seq_S, rev_unit. change (0 + k)%nat with k. cbn [back_substitute].
    rewrite (getrow_ok _ _ _ Hrowk). cbn [mbind result_bind].
    rewrite (first_one_spec n rowk p) by (done || lia). cbn [mbind result_bind].
    destruct Hbvk as [Hlenk Hbitsk]. destruct Hs as [Hlens Hbitss].
    rewrite compute_rhs_spec by lia. cbn [mbind result_bind].
    rewrite Z.lxor_0_l, !take_ge by (rewrite length_drop; lia).
    set (rhs := dot (drop (p + 1) rowk) (drop (p + 1) s)).
    assert (bit rhs) as Hrhs by (apply dot_bit; by apply Forall_drop).
    destruct (IH (<[p := rhs]> s)) as (s' & Hs' & Hbv' & Hoff & Hdot); [lia | |].
    { split; [by rewrite length_insert|]. by apply Forall_insert. }
    exists s'. split; [done|]. split; [done|]. split.
    + intros j Hj. rewrite (take_S_r _ _ p Hp) in Hj.
      rewrite not_elem_of_app, not_elem_of_cons in Hj.
      destruct Hj as [Hj1 [Hj2 _]].
      rewrite Hoff by done. by rewrite list_lookup_insert_ne.
    + intros i row Hi Hrow Hcase. apply (Hdot i); [done | done |].
      destruct (decide (i < k)%nat) as [Hik | Hik]; [by left | right].
      destruct (decide (i = k)) as [-> | Hne].
      * assert (row = rowk) as -> by congruence. unfold rhs.
        replace (p + 1)%nat with (S p) by lia.
        apply dot_insert_leads; try done. lia.
      * destruct Hcase as [Hc | Hc]; [lia|].
        destruct (pivot_row i Hi) as (pi & rowi & Hpi & Hrowi & _ & [Hleni _] & [_ Hzero]).
        assert (row = rowi) as -> by congruence.
        rewrite dot_insert_zero; [done | lia |].
        apply Hzero. eapply (ech_sorted _ _ _ _ Hech k i); [lia | done | done].
Qed.
End BackSubstitution.

(** ** The solver on well-formed input *)

Lemma solver_reduction_spec n ms :
  (0 < n)%nat → ms ≠ [] → Forall (bitstring n) ms →
  ∃ st, solver_reduction n ms = Ok (Some st) ∧
        echelon n (length ms) n st ∧
        rtc row_op (map bits_of ms) (es_A st).
Proof.
  intros Hn Hms Hbits.
  destruct (bitstrings_rows n ms Hbits) as [Hparse HA].
  assert (0 < length ms)%nat as Hr by (destruct ms; [done | simpl; lia]).
  unfold solver_reduction. rewrite Hparse. cbn [mbind result_bind].
  rewrite (np_array_bitmatrix _ _ _ HA). cbn [mbind result_bind].
  rewrite (shape_bitmatrix _ _ _ HA Hr). cbv beta iota zeta.
  destruct (decide ((length ms * n)%nat = 0%nat)) as [Hz | _]; [nia|].
  destruct (decide (length ms = 0%nat)) as [Hz | _]; [lia|].
  destruct (forward_elimination_spec n (length ms) n 0 (elim_start (map bits_of ms)))
    as (st & -> & Hech & _ & Hrtc); [lia | by apply echelon_start |].
  exists st. done.
Qed.

Lemma echelon_NoDup n r j st : echelon n r j st → NoDup (es_pivot_cols st).
Proof.
  intros Hech. apply NoDup_alt. intros i1 i2 p H1 H2.
  destruct (Nat.lt_trichotomy i1 i2) as [Hlt | [-> | Hlt]]; [|done|].
  - pose proof (ech_sorted _ _ _ _ Hech i1 i2 p p Hlt H1 H2). lia.
  - pose proof (ech_sorted _ _ _ _ Hech i2 i1 p p Hlt H2 H1). lia.
Qed.

Lemma echelon_rank_le n r j st : echelon n r j st → (es_rank st ≤ j)%nat.
Proof.
  intros Hech.
  assert (length (es_pivot_cols st) ≤ length (seq 0 j))%nat as Hle.
  { apply submseteq_length, NoDup_submseteq; [by eapply echelon_NoDup|].
    intros p Hp. apply elem_of_seq.
    pose proof (proj1 (Forall_forall _ _) (ech_lt _ _ _ _ Hech) p Hp). simpl in *. lia. }
  by rewrite length_seq, (ech_len _ _ _ _ Hech) in Hle.
Qed.

Lemma echelon_free_col n r st :
  echelon n r n st → es_rank st ≠ n →
  ∃ f rest, filter (fun col => col ∉ es_pivot_cols st) (seq 0 n) = f :: rest ∧
            (f < n)%nat ∧ f ∉ es_pivot_cols st.
Proof.
  intros Hech Hrank.
  destruct (filter _ (seq 0 n)) as [|f rest] eqn:Hfilter.
  - exfalso. pose proof (echelon_rank_le _ _ _ _ Hech) as Hle.
    assert (length (seq 0 n) ≤ length (es_pivot_cols st))%nat as Hge.
    { apply submseteq_length, NoDup_submseteq; [apply NoDup_seq|].
      intros c Hc. destruct (decide (c ∈ es_pivot_cols st)) as [|Hnot]; [done|].
      assert (c ∈ filter (fun col => col ∉ es_pivot_cols st) (seq 0 n)) as Hin
        by (by apply list_elem_of_filter).
      rewrite Hfilter in Hin. by apply elem_of_nil in Hin. }
    rewrite length_seq, (ech_len _ _ _ _ Hech) in Hge. lia.
  - exists f, rest. split; [done|].
    assert (f ∈ filter (fun col => col ∉ es_pivot_cols st) (seq 0 n)) as Hin
      by (rewrite Hfilter; left).
    apply list_elem_of_filter in Hin as [Hnot Hin]. apply elem_of_seq in Hin.
    split; [lia | done].
Qed.

Lemma zero_row_dot n row s :
  bitvec n row → (∀ q, (q < n)%nat → row !! q = Some 0) → dot row s = 0.
Proof.
  intros [Hlen _] Hzero.
  rewrite <- (take_ge row n) by lia. rewrite (take_zero n row Hzero).
  apply dot_zero_l.
Qed.

(** What [nullspace_vector] computes below full rank: the bits [s'] of a
    vector orthogonal to the reduced rows, with 1 in the first free column
    and 0 in the other free columns. *)
Lemma nullspace_vector_spec n r st :
  echelon n r n st → es_rank st ≠ n →
  ∃ s' f, nullspace_vector n st = Ok (bits_to_int s') ∧
          bitvec n s' ∧ orth s' (es_A st) ∧
          (f < n)%nat ∧ (f ∉ es_pivot_cols st) ∧ s' !! f = Some 1 ∧
          (∀ j, (j < n)%nat → j ∉ es_pivot_cols st → j ≠ f → s' !! j = Some 0).
Proof.
  intros Hech Hrank.
  destruct (echelon_free_col n r st Hech Hrank) as (f & rest & Hfilter & Hf & Hfree).
  unfold nullspace_vector. rewrite decide_False by done. cbv zeta. rewrite Hfilter.
  assert (bitvec n (<[f := 1]> (replicate n 0))) as Hs0.
  { split; [by rewrite length_insert, length_replicate|].
    apply Forall_insert; [|by right]. apply Forall_replicate. by left. }
  destruct (back_substitute_spec n r st Hech (es_rank st) _ ltac:(lia) Hs0)
    as (s' & -> & Hbv' & Hoff & Hdot).
  exists s', f. cbn [mbind result_bind]. split; [done|]. split; [done|].
  rewrite take_ge in Hoff by (rewrite (ech_len _ _ _ _ Hech); lia).
  split.
  { apply orth_lookup. intros i row Hrow.
    destruct (bitmatrix_row _ _ _ _ _ (ech_wf _ _ _ _ Hech) Hrow) as [Hbv Hir].
    destruct (decide (i < es_rank st)%nat) as [Hi | Hi].
    - apply (Hdot i); [done | done | by left].
    - apply (zero_row_dot n); [done|]. intros q Hq.
      apply (ech_low _ _ _ _ Hech i); [lia | done | done]. }
  split; [done|]. split; [done|]. split.
  - rewrite Hoff by done. apply list_lookup_insert_eq. by rewrite length_replicate.
  - intros j Hj Hnot Hjf. rewrite Hoff by done.
    rewrite list_lookup_insert_ne by done. by apply lookup_replicate_2.
Qed.

Lemma full_rank_vector n st : es_rank st = n → nullspace_vector n st = Ok 0.
Proof. intros H. unfold nullspace_vector. by rewrite decide_True. Qed.

Lemma bitvec_nonzero_int n s f :
  bitvec n s → s !! f = Some 1 → 0 < bits_to_int s < 2 ^ Z.of_nat n.
Proof.
  intros [Hlen Hbits] Hf. pose proof (bits_to_int_range s) as Hrange.
  rewrite Hlen in Hrange. destruct (decide (bits_to_int s = 0)) as [H0 | Hne]; [|lia].
  apply bits_to_int_zero in H0; [|done]. rewrite H0 in Hf.
  apply lookup_replicate in Hf as [? _]. done.
Qed.

Lemma orth_elem s A row : orth s A → row ∈ A → dot row s = 0.
Proof. unfold orth. rewrite Forall_forall. auto. Qed.

Lemma solve_for_s_from_measurements_spec n ms :
  (0 < n)%nat → ms ≠ [] → Forall (bitstring n) ms →
  ∃ st s, solver_reduction n ms = Ok (Some st) ∧
          echelon n (length ms) n st ∧
          rtc row_op (map bits_of ms) (es_A st) ∧
          solve_for_s_from_measurements n ms = Ok (Some s) ∧
          (s = 0 ↔ es_rank st = n) ∧
          (es_rank st ≠ n →
             0 < s < 2 ^ Z.of_nat n ∧
             orth (int_to_bits s n) (map bits_of ms)).
Proof.
  intros Hn Hms Hbits.
  destruct (solver_reduction_spec n ms Hn Hms Hbits) as (st & Hred & Hech & Hrtc).
  destruct (bitstrings_rows n ms Hbits) as [_ HA].
  unfold solve_for_s_from_measurements. rewrite Hred. cbn [mbind result_bind].
  destruct (decide (es_rank st = n)) as [Hfull | Hless].
  - exists st, 0. rewrite (full_rank_vector _ _ Hfull). done.
  - destruct (nullspace_vector_spec n _ st Hech Hless)
      as (s' & f & -> & Hbv & Horth & Hf & Hfree & Hone & _).
    exists st, (bits_to_int s'). cbn [mbind result_bind].
    pose proof (bitvec_nonzero_int n s' f Hbv Hone) as Hpos.
    do 4 (split; [done|]). split; [split; [lia | done]|].
    intros _. split; [done|].
    destruct Hbv as [Hlen Hbits']. rewrite <- Hlen, int_to_bits_to_int by done.
    by apply (rtc_row_op_orth _ _ _ _ _ Hrtc HA).
Qed.

(** ** Uniqueness of the nullspace vector at rank n-1 *)

Lemma pigeonhole (l extra : list nat) n :
  NoDup l → NoDup extra → (∀ x, x ∈ extra → x ∉ l) →
  Forall (fun p => (p < n)%nat) l → Forall (fun p => (p < n)%nat) extra →
  (length extra + length l ≤ n)%nat.
Proof.
  intros Hl Hextra Hdisj Hln Hen.
  assert (length (extra ++ l) ≤ length (seq 0 n))%nat as Hle.
  { apply submseteq_length, NoDup_submseteq.
    - apply NoDup_app. done.
    - intros x [Hx | Hx]%elem_of_app; apply elem_of_seq.
      + pose proof (proj1 (Forall_forall _ _) Hen x Hx). simpl in *. lia.
      + pose proof (proj1 (Forall_forall _ _) Hln x Hx). simpl in *. lia. }
  by rewrite length_app, length_seq in Hle.
Qed.

Section Determined.
Context (n r : nat) (st : elim_state) (Hech : echelon n r n st).

(** Two vectors orthogonal to the pivot rows that agree on the free
    columns agree everywhere: the pivot coordinates are forced from the
    right. *)
Lemma echelon_determined t1 t2 :
  bitvec n t1 → bitvec n t2 →
  orth t1 (es_A st) → orth t2 (es_A st) →
  (∀ j, (j < n)%nat → j ∉ es_pivot_cols st → t1 !! j = t2 !! j) →
  t1 = t2.
Proof.
  intros Hbv1 Hbv2 Ho1 Ho2 Hfree.
  assert (∀ m, (m ≤ n)%nat → drop (n - m) t1 = drop (n - m) t2) as Hdrop.
  { induction m as [|m IH]; intros Hm.
    - destruct Hbv1 as [Hl1 _], Hbv2 as [Hl2 _].
      rewrite Nat.sub_0_r, !drop_ge by lia. done.
    - set (j := (n - S m)%nat).
      destruct (bitvec_lookup n t1 j Hbv1) as (b1 & Hb1 & Hbit1); [lia|].
      destruct (bitvec_lookup n t2 j Hbv2) as (b2 & Hb2 & Hbit2); [lia|].
      rewrite (drop_S t1 b1 j Hb1), (drop_S t2 b2 j Hb2).
      replace (S j) with (n - m)%nat by lia. rewrite IH by lia. f_equal.
      destruct (decide (j ∈ es_pivot_cols st)) as [Hin | Hnot].
      + apply list_elem_of_lookup in Hin as [i Hi].
        assert (i < es_rank st)%nat as Hirank
          by (rewrite <- (ech_len _ _ _ _ Hech); by eapply lookup_lt_Some).
        destruct (pivot_row n r st Hech i Hirank)
          as (p & row & Hp & Hrow & _ & [Hlen _] & Hlead).
        assert (p = j) as -> by congruence.
        apply list_elem_of_lookup_2 in Hrow.
        pose proof (orth_elem _ _ _ Ho1 Hrow) as Hd1.
        pose proof (orth_elem _ _ _ Ho2 Hrow) as Hd2.
        destruct Hbv1 as [Hl1 _], Hbv2 as [Hl2 _].
        rewrite (dot_leads j row t1 b1) in Hd1 by (done || lia).
        rewrite (dot_leads j row t2 b2) in Hd2 by (done || lia).
        apply Z.lxor_eq in Hd1, Hd2.
        replace (S j) with (n - m)%nat in Hd1, Hd2 by lia.
        rewrite IH in Hd1 by lia. congruence.
      + specialize (Hfree j ltac:(lia) Hnot). congruence. }
  specialize (Hdrop n ltac:(lia)). by rewrite Nat.sub_diag in Hdrop.
Qed.

Lemma zero_bitvec : bitvec n (replicate n 0).
Proof. split; [apply length_replicate | apply Forall_replicate; by left]. Qed.

Lemma zero_orth A : orth (replicate n 0) A.
Proof. apply Forall_forall. intros row _. apply dot_zero_r. Qed.

(** At full rank only the zero vector is orthogonal to the rows. *)
Lemma full_rank_trivial t :
  es_rank st = n → bitvec n t → orth t (es_A st) → t = replicate n 0.
Proof.
  intros Hfull Hbv Ho.
  apply echelon_determined; [done | apply zero_bitvec | done | apply zero_orth |].
  intros j Hj Hnot. exfalso.
  pose proof (pigeonhole (es_pivot_cols st) [j] n) as Hp.
  rewrite (ech_len _ _ _ _ Hech) in Hp. simpl in Hp.
  enough (1 + es_rank st ≤ n)%nat by lia. apply Hp.
  - by eapply echelon_NoDup.
  - apply NoDup_singleton.
  - intros x Hx. apply list_elem_of_singleton in Hx. by subst.
  - by apply (ech_lt _ _ _ _ Hech).
  - by repeat constructor.
Qed.

(** One short of full rank, the solver's vector is the only non-zero
    vector orthogonal to the rows. *)
Lemma nullspace_unique t :
  S (es_rank st) = n → bitvec n t → orth t (es_A st) → t ≠ replicate n 0 →
  nullspace_vector n st = Ok (bits_to_int t).
Proof.
  intros Hrank Hbv Ho Hne.
  destruct (nullspace_vector_spec n r st Hech ltac:(lia))
    as (s' & f & -> & Hbv' & Ho' & Hf & Hfree & Hone & _).
  assert (∀ j, (j < n)%nat → j ∉ es_pivot_cols st → j = f) as Honly.
  { intros j Hj Hnot. destruct (decide (j = f)) as [|Hjf]; [done|]. exfalso.
    pose proof (pigeonhole (es_pivot_cols st) [j; f] n) as Hp.
    rewrite (ech_len _ _ _ _ Hech) in Hp. simpl in Hp.
    enough (2 + es_rank st ≤ n)%nat by lia. apply Hp.
    - by eapply echelon_NoDup.
    - apply NoDup_cons. split; [|apply NoDup_singleton].
      rewrite not_elem_of_cons. split; [done | apply not_elem_of_nil].
    - intros x Hx. apply elem_of_cons in Hx as [-> | Hx]; [done|].
      apply list_elem_of_singleton in Hx. by subst.
    - by apply (ech_lt _ _ _ _ Hech).
    - by repeat constructor. }
  do 2 f_equal. apply echelon_determined; try done.
  intros j Hj Hnot. rewrite (Honly j Hj Hnot), Hone.
  destruct (bitvec_lookup n t f Hbv Hf) as (b & Hb & [-> | ->]); [|done].
  exfalso. apply Hne.
  apply echelon_determined; [done | apply zero_bitvec | done | apply zero_orth |].
  intros j' Hj' Hnot'. rewrite (Honly j' Hj' Hnot'), Hb.
  symmetry. by apply lookup_replicate_2.
Qed.
End Determined.

(** ** The rank check against the solver's elimination *)

Lemma forward_elimination_full r cols st :
  es_rank st = r → forward_elimination r cols st = Ok st.
Proof.
  intros Hfull. induction cols as [|col cols IH]; [done|].
  rewrite forward_elimination_cons, Hfull, Nat.sub_diag. done.
Qed.

Lemma forward_elimination_app r cols1 cols2 :
  ∀ st, forward_elimination r (cols1 ++ cols2) st =
        forward_elimination r cols1 st ≫= forward_elimination r cols2.
Proof.
  induction cols1 as [|col cols1 IH]; intros st; [done|].
  rewrite <- app_comm_cons, !forward_elimination_cons.
  destruct (find_pivot _ _ _) as [[p|]|e]; cbn [mbind result_bind]; [|by apply IH|done].
  destruct (if decide (p ≠ es_rank st) then _ else _) as [A1|e];
    cbn [mbind result_bind]; [|done].
  destruct (eliminate_below _ _ _ _) as [A2|e]; cbn [mbind result_bind]; [|done].
  cbv zeta. case_decide as Hbreak; [|by apply IH].
  cbn [mbind result_bind]. symmetry. by apply forward_elimination_full.
Qed.

Lemma check_linear_independence_spec n vs :
  vs ≠ [] → Forall (bitstring n) vs →
  ∃ st, forward_elimination (length vs) (seq 0 (n `min` length vs))
          (elim_start (map bits_of vs)) = Ok st ∧
        echelon n (length vs) (n `min` length vs) st ∧
        rtc row_op (map bits_of vs) (es_A st) ∧
        check_linear_independence vs n =
          Ok (bool_decide (Z.of_nat (es_rank st) >= Z.of_nat n - 1),
              Z.of_nat (es_rank st)).
Proof.
  intros Hvs Hbits.
  destruct (bitstrings_rows n vs Hbits) as [Hparse HA].
  assert (0 < length vs)%nat as Hr by (destruct vs; [done | simpl; lia]).
  destruct (forward_elimination_spec n (length vs) (n `min` length vs) 0
              (elim_start (map bits_of vs)))
    as (st & Hst & Hech & _ & Hrtc); [lia | by apply echelon_start |].
  exists st. split; [done|]. split; [done|]. split; [done|].
  unfold check_linear_independence. destruct vs as [|v vs']; [done|].
  rewrite Hparse. cbn [mbind result_bind].
  rewrite (np_array_bitmatrix _ _ _ HA). cbn [mbind result_bind].
  rewrite (shape_bitmatrix _ _ _ HA Hr). cbv beta iota zeta.
  rewrite Hst. done.
Qed.

Lemma check_below_solver n vs :
  (0 < n)%nat → vs ≠ [] → Forall (bitstring n) vs →
  ∃ st_c st_s,
    check_linear_independence vs n =
      Ok (bool_decide (Z.of_nat (es_rank st_c) >= Z.of_nat n - 1),
          Z.of_nat (es_rank st_c)) ∧
    solver_reduction n vs = Ok (Some st_s) ∧
    echelon n (length vs) n st_s ∧
    rtc row_op (map bits_of vs) (es_A st_s) ∧
    (es_rank st_c ≤ es_rank st_s)%nat ∧
    ((n ≤ length vs)%nat → st_c = st_s).
Proof.
  intros Hn Hvs Hbits.
  destruct (check_linear_independence_spec n vs Hvs Hbits)
    as (st_c & Hfc & Hechc & _ & Hc).
  destruct (solver_reduction_spec n vs Hn Hvs Hbits) as (st_s & Hred & Hechs & Hrtc).
  exists st_c, st_s. do 4 (split; [done|]).
  assert (forward_elimination (length vs) (seq 0 n) (elim_start (map bits_of vs))
          = Ok st_s) as Hfs.
  { unfold solver_reduction in Hred.
    destruct (bitstrings_rows n vs Hbits) as [Hparse HA].
    assert (0 < length vs)%nat as Hr by (destruct vs; [done | simpl; lia]).
    rewrite Hparse in Hred. cbn [mbind result_bind] in Hred.
    rewrite (np_array_bitmatrix _ _ _ HA) in Hred. cbn [mbind result_bind] in Hred.
    rewrite (shape_bitmatrix _ _ _ HA Hr) in Hred. cbv beta iota zeta in Hred.
    destruct (decide ((length vs * n)%nat = 0%nat)) as [Hz | _]; [nia|].
    destruct (decide (length vs = 0%nat)) as [Hz | _]; [lia|].
    apply bind_Ok_inv in Hred as (st' & Hst' & [= <-]). done. }
  set (m := (n `min` length vs)%nat) in *.
  replace n with (m + (n - m))%nat in Hfs at 1 by lia.
  rewrite seq_app, forward_elimination_app, Hfc in Hfs.
  cbn [mbind result_bind] in Hfs. split.
  - destruct (forward_elimination_spec n (length vs) (n - m) m st_c)
      as (st' & Hst' & _ & Hle & _); [lia | done |].
    simpl in Hfs. rewrite Hfs in Hst'. injection Hst' as <-. done.
  - intros Hge. replace (n - m)%nat with 0%nat in Hfs by lia.
    simpl in Hfs. congruence.
Qed.

Lemma Forall_filter_keep {A} (P Q : A → Prop) `{∀ x, Decision (Q x)} l :
  Forall P l → Forall P (filter Q l).
Proof.
  rewrite !Forall_forall. intros HP x Hx.
  apply list_elem_of_filter in Hx as [_ Hx]. auto.
Qed.

Lemma useful_measurements_bitstring n ms :
  Forall (bitstring n) ms → Forall (bitstring n) (useful_measurements n ms).
Proof. apply Forall_filter_keep. Qed.

Lemma solve_for_s_enhanced_unfold n ms :
  useful_measurements n ms ≠ [] →
  solve_for_s_enhanced n ms =
  ('(is_independent, rank) ← check_linear_independence (useful_measurements n ms) n;
   if negb is_independent && bool_decide (rank < Z.of_nat n - 1)
   then Ok (None, Insufficient rank (Z.of_nat n - 1))
   else s_int ← solve_for_s_from_measurements n (useful_measurements n ms);
        Ok (s_int, Success)).
Proof.
  intros Huse. unfold solve_for_s_enhanced.
  destruct ms as [|m ms]; [done|].
  by destruct (useful_measurements n (m :: ms)).
Qed.

(** With a non-zero vector orthogonal to every measurement, a passed rank
    check makes the solver return exactly that vector. *)
Lemma solve_for_s_enhanced_recovers n s ms st_c :
  (0 < n)%nat → 0 < s < 2 ^ Z.of_nat n →
  Forall (bitstring n) ms →
  Forall (fun y => dot (bits_of y) (int_to_bits s n) = 0) ms →
  useful_measurements n ms ≠ [] →
  check_linear_independence (useful_measurements n ms) n =
    Ok (bool_decide (Z.of_nat (es_rank st_c) >= Z.of_nat n - 1),
        Z.of_nat (es_rank st_c)) →
  solve_for_s_enhanced n ms =
    if decide (Z.of_nat (es_rank st_c) < Z.of_nat n - 1)
    then Ok (None, Insufficient (Z.of_nat (es_rank st_c)) (Z.of_nat n - 1))
    else Ok (Some s, Success).
Proof.
  intros Hn Hs Hbits Horth Huse Hcheck.
  rewrite solve_for_s_enhanced_unfold, Hcheck by done. cbn [mbind result_bind].
  destruct (decide (Z.of_nat (es_rank st_c) < Z.of_nat n - 1)) as [Hlow | Hlow].
  { rewrite (bool_decide_eq_false_2 (_ >= _)) by lia.
    by rewrite (bool_decide_eq_true_2 (_ < _)) by lia. }
  rewrite (bool_decide_eq_false_2 (_ < _)) by lia. rewrite andb_false_r.
  pose proof (useful_measurements_bitstring n ms Hbits) as Hubits.
  destruct (check_below_solver n _ Hn Huse Hubits)
    as (st_c' & st_s & Hc' & Hred & Hech & Hrtc & Hle & _).
  rewrite Hcheck in Hc'. injection Hc' as _ Heq. apply Nat2Z.inj in Heq.
  destruct (bitstrings_rows n _ Hubits) as [_ HA].
  set (t := int_to_bits s n).
  assert (bitvec n t) as Hbv by apply int_to_bits_bitvec.
  assert (t ≠ replicate n 0) as Hne.
  { intros Hz. pose proof (bits_to_int_to_bits n s ltac:(lia)) as Hround.
    fold t in Hround. rewrite Hz, bits_to_int_replicate in Hround. lia. }
  assert (orth t (es_A st_s)) as Ho.
  { apply (rtc_row_op_orth _ _ _ _ _ Hrtc HA). unfold orth.
    apply Forall_map. unfold useful_measurements. by apply Forall_filter_keep. }
  assert (es_rank st_s ≠ n) as Hnotfull.
  { intros Hfull. by apply Hne, (full_rank_trivial n _ st_s Hech). }
  pose proof (echelon_rank_le _ _ _ _ Hech) as Hrk.
  unfold solve_for_s_from_measurements. rewrite Hred. cbn [mbind result_bind].
  rewrite (nullspace_unique n _ st_s Hech t) by (done || lia).
  cbn [mbind result_bind]. unfold t. by rewrite bits_to_int_to_bits by lia.
Qed.

(** ** The Simon function *)

Lemma lxor_involutive z s : Z.lxor (Z.lxor z s) s = z.
Proof. by rewrite Z.lxor_assoc, Z.lxor_nilpotent, Z.lxor_0_r. Qed.

Lemma lxor_range n a b :
  0 ≤ a < 2 ^ Z.of_nat n → 0 ≤ b < 2 ^ Z.of_nat n →
  0 ≤ Z.lxor a b < 2 ^ Z.of_nat n.
Proof.
  intros Ha Hb. assert (0 ≤ Z.lxor a b) as Hnn by (apply Z.lxor_nonneg; lia).
  split; [done|].
  destruct (decide (Z.lxor a b = 0)) as [-> | Hne]; [lia|].
  assert (0 < Z.of_nat n) as Hn.
  { destruct n as [|n]; [|lia]. exfalso. apply Hne.
    change (2 ^ Z.of_nat 0) with 1 in *.
    assert (a = 0) as -> by lia. assert (b = 0) as -> by lia. done. }
  apply Z.log2_lt_pow2; [lia|].
  pose proof (Z.log2_lxor a b ltac:(lia) ltac:(lia)) as Hlog.
  assert (Z.log2 a < Z.of_nat n) as Hla.
  { destruct (decide (a = 0)) as [-> | ?]; [simpl; lia|].
    apply Z.log2_lt_pow2; lia. }
  assert (Z.log2 b < Z.of_nat n) as Hlb.
  { destruct (decide (b = 0)) as [-> | ?]; [simpl; lia|].
    apply Z.log2_lt_pow2; lia. }
  lia.
Qed.

Lemma lookup_insert_pair (m : gmap Z Z) X Y v z :
  <[Y := v]> (<[X := v]> m) !! z =
  if decide (z = X ∨ z = Y) then Some v else m !! z.
Proof.
  rewrite !lookup_insert.
  destruct (decide (Y = z)) as [<- | HY]; [by rewrite decide_True by (by right)|].
  destruct (decide (X = z)) as [<- | HX]; [by rewrite decide_True by (by left)|].
  rewrite decide_False; [done|]. intros [? | ?]; congruence.
Qed.

Lemma list_lookup_insert_pair (l : list bool) x y z :
  (x < length l)%nat → (y < length l)%nat →
  <[y := true]> (<[x := true]> l) !! z =
  if decide (z = x ∨ z = y) then Some true else l !! z.
Proof.
  intros Hx Hy. destruct (decide (z = y)) as [-> | Hzy].
  - rewrite list_lookup_insert_eq by (by rewrite length_insert).
    rewrite decide_True; [done | by right].
  - rewrite list_lookup_insert_ne by done. destruct (decide (z = x)) as [-> | Hzx].
    + rewrite list_lookup_insert_eq by done. rewrite decide_True; [done | by left].
    + rewrite list_lookup_insert_ne by done. rewrite decide_False; [done|].
      by intros [? | ?].
Qed.

Section SimonFunction.
Context (N : nat) (s : Z).
Context (Hs : 0 ≤ s).
Context (Hclosed : ∀ z, 0 ≤ z < Z.of_nat N → 0 ≤ Z.lxor z s < Z.of_nat N).

Lemma simon_inv_start :
  simon_inv N s 0 {| seen := replicate N false; mapping := ∅; next_output := 0 |}.
Proof.
  split; simpl.
  - apply length_replicate.
  - intros z Hz. rewrite lookup_replicate_2 by done. f_equal.
    symmetry. apply bool_decide_eq_false_2.
    pose proof (Hclosed (Z.of_nat z) ltac:(lia)). lia.
  - intros z. rewrite lookup_empty. split; [by intros [? ?]|].
    intros [Hz Hlt]. pose proof (Hclosed z Hz). lia.
  - intros z v. by rewrite lookup_empty.
  - intros z v. by rewrite lookup_empty.
  - intros z1 z2 v. by rewrite lookup_empty.
Qed.

Lemma simon_step_spec x st :
  (x < N)%nat → simon_inv N s x st →
  ∃ st', simon_step s st x = Ok st' ∧ simon_inv N s (S x) st'.
Proof.
  intros Hx [Hlen Hseen Hdom Hval Hpair Htwo].
  set (X := Z.of_nat x). set (Y := Z.lxor X s).
  assert (0 ≤ Y < Z.of_nat N) as HY by (apply Hclosed; lia).
  assert (Z.lxor Y s = X) as HYX by apply lxor_involutive.
  assert (∀ z, Z.lxor z s = X → z = Y) as Hinv1.
  { intros z Hz. unfold Y. rewrite <- Hz. symmetry. apply lxor_involutive. }
  assert (∀ z, Z.lxor z s = Y → z = X) as Hinv2.
  { intros z Hz. rewrite <- HYX, <- Hz. symmetry. apply lxor_involutive. }
  unfold simon_step. rewrite (Hseen x Hx). fold X Y.
  destruct (decide (Y < X)) as [Hlt | Hge].
  - rewrite bool_decide_eq_true_2 by (by right).
    exists st. split; [done|]. split; try done.
    + intros z Hz. rewrite (Hseen z Hz). f_equal. apply bool_decide_ext.
      fold X. split; [lia|]. intros [Hc | Hc].
      * destruct (decide (Z.of_nat z = X)) as [Heq | Hne]; [|lia].
        right. rewrite Heq. by fold Y.
      * destruct (decide (Z.lxor (Z.of_nat z) s = X)) as [Heq | Hne]; [|lia].
        left. rewrite (Hinv1 _ Heq). done.
    + intros z. rewrite Hdom. fold X. split; intros [Hz Hc]; (split; [done|]).
      * lia.
      * destruct Hc as [Hc | Hc].
        -- destruct (decide (z = X)) as [-> | Hne]; [|lia]. right. by fold Y.
        -- destruct (decide (Z.lxor z s = X)) as [Heq | Hne]; [|lia].
           left. rewrite (Hinv1 _ Heq). done.
  - rewrite bool_decide_eq_false_2 by lia.
    set (st' := {| seen := <[Z.to_nat Y := true]> (<[x := true]> (seen st));
                   mapping := <[Y := next_output st]>
                                (<[X := next_output st]> (mapping st));
                   next_output := next_output st + 1 |}).
    exists st'. split.
    { destruct (decide (Y = X)) as [Heq | Hne].
      - assert (Z.to_nat Y = x) as HtoN by (rewrite Heq; apply Nat2Z.id).
        f_equal. unfold st'. rewrite HtoN, Heq.
        by rewrite list_insert_insert_eq, insert_insert_eq.
      - unfold py_setitem, py_index. rewrite length_insert, Hlen.
        rewrite decide_True by done. done. }
    assert (∀ z v, mapping st !! z = Some v → z ≠ X ∧ z ≠ Y) as Hold.
    { intros z v Hz. assert (is_Some (mapping st !! z)) as Hsome by done.
      apply Hdom in Hsome as [_ Hc]. fold X in Hc. split; intros ->; lia. }
    split; unfold st'; simpl.
    + by rewrite !length_insert.
    + intros z Hz.
      rewrite list_lookup_insert_pair by (rewrite ?Hlen; lia).
      case_decide as Hc.
      * f_equal. symmetry. apply bool_decide_eq_true_2.
        destruct Hc as [-> | ->]; [left; lia|].
        right. rewrite Z2Nat.id by lia. rewrite HYX. unfold X. lia.
      * rewrite (Hseen z Hz). f_equal. apply bool_decide_ext. fold X.
        split; [lia|]. intros [Hd | Hd].
        -- left. assert (z ≠ x) by tauto. unfold X in *. lia.
        -- right. destruct (decide (Z.lxor (Z.of_nat z) s = X)) as [Heq | Hne]; [|lia].
           exfalso. apply Hc. right. rewrite <- (Hinv1 _ Heq). by rewrite Nat2Z.id.
    + intros z. rewrite lookup_insert_pair. fold X. case_decide as Hc.
      * split; [|done]. intros _. destruct Hc as [-> | ->].
        -- split; [unfold X; lia | left; lia].
        -- split; [done | right; lia].
      * rewrite Hdom. fold X. split; intros [Hz Hd]; (split; [done|]); [lia|].
        destruct Hd as [Hd | Hd].
        -- left. assert (z ≠ X) by tauto. lia.
        -- right. destruct (decide (Z.lxor z s = X)) as [Heq | Hne]; [|lia].
           exfalso. apply Hc. right. by apply Hinv1.
    + intros z v. rewrite lookup_insert_pair. case_decide.
      * intros [= <-]. lia.
      * intros Hz. apply Hval in Hz. lia.
    + intros z v. rewrite !lookup_insert_pair.
      case_decide as Hc.
      * intros [= <-]. rewrite decide_True; [done|].
        destruct Hc as [-> | ->]; [right; done | left; done].
      * intros Hz. rewrite decide_False; [by apply Hpair|].
        intros [Hd | Hd]; apply Hc; [right; by apply Hinv1 | left; by apply Hinv2].
    + intros z1 z2 v. rewrite !lookup_insert_pair.
      case_decide as Hc1; case_decide as Hc2.
      * intros _ _. fold Y. destruct Hc1 as [-> | ->], Hc2 as [-> | ->]; auto.
      * intros [= <-] Hz2. apply Hval in Hz2. lia.
      * intros Hz1 [= <-]. apply Hval in Hz1. lia.
      * apply Htwo.
Qed.

Lemma simon_loop_spec :
  ∀ k x st, (x + k ≤ N)%nat → simon_inv N s x st →
  ∃ st', simon_loop s (seq x k) st = Ok st' ∧ simon_inv N s (x + k) st'.
Proof.
  induction k as [|k IH]; intros x st Hk Hinv.
  - exists st. by rewrite Nat.add_0_r.
  - destruct (simon_step_spec x st ltac:(lia) Hinv) as (st1 & Hst1 & Hinv1).
    destruct (IH (S x) st1 ltac:(lia) Hinv1) as (st' & Hst' & Hinv').
    exists st'. simpl. rewrite Hst1. simpl.
    replace (x + S k)%nat with (S x + k)%nat by lia. done.
Qed.
End SimonFunction.

(** ** Combinations, spans and the exchange bound *)

Lemma xor_rows_cancel v : ∀ a b, length v = length a → length v = length b →
  xor_rows (xor_rows v a) (xor_rows v b) = xor_rows a b.
Proof.
  induction v as [|x v IH]; intros [|y a] [|z b] Ha Hb; try done.
  unfold xor_rows in *. simpl in *. f_equal; [xor_ac | apply IH; lia].
Qed.

Lemma xor_rows_assoc v : ∀ a b,
  xor_rows (xor_rows v a) b = xor_rows v (xor_rows a b).
Proof.
  induction v as [|x v IH]; intros [|y a] [|z b]; try done.
  unfold xor_rows in *. simpl. f_equal; [xor_ac | apply IH].
Qed.

Lemma xor_rows_comm v : ∀ a, xor_rows v a = xor_rows a v.
Proof.
  induction v as [|x v IH]; intros [|y a]; try done.
  unfold xor_rows in *. simpl. f_equal; [apply Z.lxor_comm | apply IH].
Qed.

Lemma xor_rows_nilpotent n v : length v = n → xor_rows v v = replicate n 0.
Proof.
  intros <-. induction v as [|x v IH]; [done|].
  unfold xor_rows in *. simpl. by rewrite Z.lxor_nilpotent, IH.
Qed.

Lemma xor_rows_zero_r n v : length v = n → xor_rows v (replicate n 0) = v.
Proof.
  intros <-. induction v as [|x v IH]; [done|].
  unfold xor_rows in *. simpl. by rewrite Z.lxor_0_r, IH.
Qed.

Lemma xor_rows_zero_l n v : length v = n → xor_rows (replicate n 0) v = v.
Proof. intros Hv. by rewrite xor_rows_comm, xor_rows_zero_r. Qed.

Lemma combination_bitvec n vs : Forall (bitvec n) vs →
  ∀ cs, bitvec n (combination n cs vs).
Proof.
  induction 1 as [|v vs Hv _ IH]; intros [|c cs]; simpl;
    try (split; [apply length_replicate | apply Forall_replicate; by left]).
  destruct c; [by apply xor_rows_bitvec | apply IH].
Qed.

Lemma combination_none n vs k : combination n (replicate k false) vs = replicate n 0.
Proof.
  revert k. induction vs as [|v vs IH]; intros [|k]; simpl; auto.
Qed.

Lemma combination_xor n vs : Forall (bitvec n) vs →
  ∀ cs1 cs2, length cs1 = length vs → length cs2 = length vs →
  combination n (zip_with xorb cs1 cs2) vs =
  xor_rows (combination n cs1 vs) (combination n cs2 vs).
Proof.
  induction 1 as [|v vs Hv Hvs IH]; intros [|c1 cs1] [|c2 cs2] H1 H2; try done.
  - simpl. by rewrite (xor_rows_nilpotent n) by apply length_replicate.
  - simpl in H1, H2.
    pose proof (combination_bitvec n vs Hvs cs1) as [Hl1 _].
    pose proof (combination_bitvec n vs Hvs cs2) as [Hl2 _].
    destruct Hv as [Hlv _].
    destruct c1, c2; simpl; rewrite IH by lia.
    + symmetry. apply xor_rows_cancel; lia.
    + by rewrite xor_rows_assoc.
    + by rewrite <- !xor_rows_assoc, (xor_rows_comm v).
    + done.
Qed.

Lemma in_span_zero n ws : in_span n ws (replicate n 0).
Proof.
  exists (replicate (length ws) false).
  split; [apply length_replicate | apply combination_none].
Qed.

Lemma in_span_xor n ws a b : Forall (bitvec n) ws →
  in_span n ws a → in_span n ws b → in_span n ws (xor_rows a b).
Proof.
  intros Hws (ca & Hla & <-) (cb & Hlb & <-).
  exists (zip_with xorb ca cb). split.
  - rewrite length_zip_with. lia.
  - by apply combination_xor.
Qed.

Lemma in_span_cons n w ws v : bitvec n w → in_span n ws v → in_span n (w :: ws) v.
Proof. intros Hw (cs & Hl & <-). exists (false :: cs). split; [simpl; lia | done]. Qed.

Lemma in_span_elem n ws v : Forall (bitvec n) ws → v ∈ ws → in_span n ws v.
Proof.
  induction 1 as [|w ws Hw Hws IH]; [by intros ?%elem_of_nil|].
  intros [-> | Hin]%elem_of_cons.
  - exists (true :: replicate (length ws) false). split.
    + simpl. by rewrite length_replicate.
    + simpl. rewrite combination_none. apply xor_rows_zero_r, Hw.
  - by apply in_span_cons, IH.
Qed.

Lemma in_span_combination n ws vs : Forall (bitvec n) ws →
  Forall (in_span n ws) vs → ∀ cs, in_span n ws (combination n cs vs).
Proof.
  intros Hws. induction 1 as [|v vs Hv _ IH]; intros [|c cs]; simpl;
    try apply in_span_zero.
  destruct c; [by apply in_span_xor | apply IH].
Qed.

Lemma in_span_trans n ws ws' v : Forall (bitvec n) ws' →
  Forall (in_span n ws') ws → in_span n ws v → in_span n ws' v.
Proof. intros Hws' Hall (cs & _ & <-). by apply in_span_combination. Qed.







(** ** The rank covers every independent family among the rows *)

Lemma xor_rows_undo n a b : length a = n → length b = n →
  xor_rows (xor_rows a b) b = a.
Proof.
  intros Ha Hb. by rewrite xor_rows_assoc, (xor_rows_nilpotent n), (xor_rows_zero_r n).
Qed.

Lemma bitmatrix_rows r n A : bitmatrix r n A → Forall (bitvec n) A.
Proof. by intros [_ ?]. Qed.

Lemma row_op_span r n A A' :
  row_op A A' → bitmatrix r n A → Forall (in_span n A') A.
Proof.
  intros Hop HA.
  pose proof (bitmatrix_rows _ _ _ (row_op_bitmatrix _ _ _ _ Hop HA)) as HA'.
  apply Forall_lookup. intros i v Hv.
  destruct Hop as [A p k rp rk Hp Hk | A j k a b Hne Ha Hb].
  - assert (p < length A)%nat as Hpl by (by eapply lookup_lt_Some).
    assert (k < length A)%nat as Hkl by (by eapply lookup_lt_Some).
    apply in_span_elem; [done|]. apply list_elem_of_lookup.
    destruct (decide (i = p)) as [-> | Hip].
    { exists k. rewrite list_lookup_insert_eq by (by rewrite length_insert).
      congruence. }
    destruct (decide (i = k)) as [-> | Hik].
    { exists p. rewrite list_lookup_insert_ne by done.
      rewrite list_lookup_insert_eq by done. congruence. }
    exists i. by rewrite !list_lookup_insert_ne.
  - assert (j < length A)%nat as Hjl by (by eapply lookup_lt_Some).
    destruct (decide (i = j)) as [-> | Hij].
    + assert (v = a) as -> by congruence.
      destruct (bitmatrix_row _ _ _ _ _ HA Ha) as [[Hla _] _].
      destruct (bitmatrix_row _ _ _ _ _ HA Hb) as [[Hlb _] _].
      assert (in_span n (<[j := xor_rows a b]> A) (xor_rows (xor_rows a b) b)) as Hsp.
      { apply in_span_xor; [done | |]; (apply in_span_elem; [done|]);
          apply list_elem_of_lookup.
        - exists j. by apply list_lookup_insert_eq.
        - exists k. by rewrite list_lookup_insert_ne. }
      by rewrite (xor_rows_undo n a b) in Hsp.
    + apply in_span_elem; [done|]. apply list_elem_of_lookup.
      exists i. by rewrite list_lookup_insert_ne.
Qed.

Lemma rtc_row_op_span r n A A' :
  rtc row_op A A' → bitmatrix r n A → Forall (in_span n A') A.
Proof.
  induction 1 as [A | A A1 A' Hop Hrtc IH]; intros HA.
  - apply Forall_forall. intros v Hv. apply in_span_elem; [|done].
    by eapply bitmatrix_rows.
  - pose proof (row_op_bitmatrix _ _ _ _ Hop HA) as HA1.
    pose proof (rtc_row_op_bitmatrix _ _ _ _ Hrtc HA1) as HA'.
    eapply Forall_impl; [by eapply row_op_span|].
    intros v Hv. eapply in_span_trans; [by eapply bitmatrix_rows | by apply IH | done].
Qed.



Lemma zeros_bitstring n : bitstring n (zeros n).
Proof.
  split; induction n as [|n IH]; simpl; try done; [by f_equal|].
  constructor; [by left | done].
Qed.

Lemma bits_of_zeros n : bits_of (zeros n) = replicate n 0.
Proof. induction n as [|n IH]; [done|]. unfold bits_of in *. simpl. by rewrite IH. Qed.

(** ** The pivot columns are the leading positions of the row space *)

Lemma row_op_span_rev r n A A' :
  row_op A A' → bitmatrix r n A → Forall (in_span n A) A'.
Proof.
  intros Hop HA. pose proof (bitmatrix_rows _ _ _ HA) as Hrows.
  apply Forall_lookup. intros i v Hv.
  destruct Hop as [A p k rp rk Hp Hk | A j k a b Hne Ha Hb].
  - apply in_span_elem; [done|]. apply list_elem_of_lookup.
    destruct (decide (i = k)) as [-> | Hik].
    { rewrite list_lookup_insert_eq in Hv
        by (rewrite length_insert; by eapply lookup_lt_Some).
      exists p. congruence. }
    rewrite list_lookup_insert_ne in Hv by done.
    destruct (decide (i = p)) as [-> | Hip].
    { rewrite list_lookup_insert_eq in Hv by (by eapply lookup_lt_Some).
      exists k. congruence. }
    rewrite list_lookup_insert_ne in Hv by done. by exists i.
  - destruct (decide (i = j)) as [-> | Hij].
    + rewrite list_lookup_insert_eq in Hv by (by eapply lookup_lt_Some).
      injection Hv as <-.
      apply in_span_xor; [done | |]; (apply in_span_elem; [done|]);
        by eapply list_elem_of_lookup_2.
    + rewrite list_lookup_insert_ne in Hv by done.
      apply in_span_elem; [done|]. by eapply list_elem_of_lookup_2.
Qed.

Lemma rtc_row_op_span_rev r n A A' :
  rtc row_op A A' → bitmatrix r n A → Forall (in_span n A) A'.
Proof.
  induction 1 as [A | A A1 A' Hop Hrtc IH]; intros HA.
  - apply Forall_forall. intros v Hv. apply in_span_elem; [|done].
    by eapply bitmatrix_rows.
  - pose proof (row_op_bitmatrix _ _ _ _ Hop HA) as HA1.
    eapply Forall_impl; [by apply IH|].
    intros v Hv. eapply in_span_trans;
      [by eapply bitmatrix_rows | by eapply row_op_span_rev | done].
Qed.

Lemma in_span_app_l n ws ws' x : in_span n ws x → in_span n (ws ++ ws') x.
Proof.
  intros (cs & Hlen & <-). exists (cs ++ replicate (length ws') false). split.
  - rewrite !length_app, length_replicate. lia.
  - revert cs Hlen. induction ws as [|w ws IH]; intros [|c cs] Hlen; try done.
    + simpl. by rewrite combination_none.
    + simpl. injection Hlen as Hlen. by rewrite IH.
Qed.

Lemma leads_at_unique p c x : leads_at p x → leads_at c x → p = c.
Proof.
  intros [Hp1 Hp0] [Hc1 Hc0].
  destruct (Nat.lt_trichotomy p c) as [Hlt | [-> | Hlt]]; [|done|].
  - specialize (Hc0 p Hlt). congruence.
  - specialize (Hp0 c Hlt). congruence.
Qed.

Lemma echelon_pivot_row n r j st i : echelon n r j st → (i < es_rank st)%nat →
  ∃ p row, es_pivot_cols st !! i = Some p ∧ es_A st !! i = Some row ∧
           (p < j)%nat ∧ bitvec n row ∧ leads_at p row.
Proof.
  intros [Hwf Hlen Hrank Hlt Hsorted Hlead Hlow] Hi.
  destruct (lookup_lt_is_Some_2 (es_pivot_cols st) i) as [p Hp]; [lia|].
  destruct (bitmatrix_lookup r n (es_A st) i Hwf) as (row & Hrow & Hbv); [lia|].
  exists p, row. split; [done|]. split; [done|].
  split; [by eapply (Forall_lookup_1 _ _ _ _ Hlt)|].
  split; [done|]. by eapply Hlead.
Qed.

Lemma echelon_stair n r j st : echelon n r j st →
  stair n j (es_pivot_cols st) (es_A st).
Proof.
  intros Hech.
  enough (∀ d k, (k + d = es_rank st)%nat →
                 stair n j (drop k (es_pivot_cols st)) (drop k (es_A st))) as H.
  { specialize (H (es_rank st) 0%nat ltac:(lia)). by rewrite !drop_0 in H. }
  induction d as [|d IH]; intros k Hk.
  - rewrite (drop_ge (es_pivot_cols st))
      by (rewrite (ech_len _ _ _ _ Hech); lia).
    simpl. apply Forall_lookup. intros i row Hrow. rewrite lookup_drop in Hrow.
    split; [by eapply bitmatrix_row, Hrow; eapply ech_wf|].
    intros q Hq. apply (ech_low _ _ _ _ Hech (k + i)%nat); [lia | done | done].
  - destruct (echelon_pivot_row n r j st k Hech ltac:(lia))
      as (p & row & Hp & Hrow & Hpj & Hbv & Hlead).
    rewrite (drop_S _ _ _ Hp), (drop_S _ _ _ Hrow). simpl.
    split; [done|]. split; [done|]. split; [done|]. split; [|apply IH; lia].
    apply Forall_lookup. intros i p' Hp'. rewrite lookup_drop in Hp'.
    apply (ech_sorted _ _ _ _ Hech k (S k + i)); [lia | done | done].
Qed.

Lemma zero_below_combination n j rows : (j ≤ n)%nat →
  Forall (fun row => bitvec n row ∧ ∀ q, (q < j)%nat → row !! q = Some 0) rows →
  ∀ cs q, (q < j)%nat → combination n cs rows !! q = Some 0.
Proof.
  intros Hj. induction 1 as [|row rows [Hbv Hz] _ IH]; intros [|c cs] q Hq; simpl;
    try (apply lookup_replicate_2; lia).
  destruct c; [|by apply IH].
  rewrite (xor_rows_lookup _ _ _ 0 0); [done | by apply Hz | by apply IH].
Qed.

(** A combination of echelon rows is zero below [j] or leads in a pivot
    column. *)
Lemma stair_combination n j : (j ≤ n)%nat →
  ∀ pivots rows, stair n j pivots rows →
  ∀ cs, (∀ q, (q < j)%nat → combination n cs rows !! q = Some 0) ∨
        (∃ p, p ∈ pivots ∧ leads_at p (combination n cs rows)).
Proof.
  intros Hj. induction pivots as [|p ps IH]; intros rows Hst cs.
  - left. intros q Hq. by apply (zero_below_combination n j).
  - destruct rows as [|row rest]; [done|].
    destruct Hst as (Hbv & [H1 H0] & Hpj & Hps & Hrest).
    destruct cs as [|c cs].
    { left. intros q Hq. simpl. apply lookup_replicate_2. lia. }
    simpl. specialize (IH rest Hrest cs).
    assert (∀ q, (q ≤ p)%nat → combination n cs rest !! q = Some 0) as Hy.
    { intros q Hq. destruct IH as [Hz | (p' & Hp' & [_ Hz])].
      - apply Hz. lia.
      - apply Hz. pose proof (proj1 (Forall_forall _ _) Hps p' Hp'). simpl in *. lia. }
    destruct c.
    + right. exists p. split; [left|]. split.
      * rewrite (xor_rows_lookup _ _ _ 1 0); [done | done | by apply Hy].
      * intros q Hq.
        rewrite (xor_rows_lookup _ _ _ 0 0); [done | by apply H0 | apply Hy; lia].
    + destruct IH as [Hz | (p' & Hp' & Hlead)]; [by left|].
      right. exists p'. split; [by right | done].
Qed.

Section PivotColumns.
Context (n r j : nat) (A0 : matrix) (st : elim_state).
Context (Hj : (j ≤ n)%nat) (HA0 : bitmatrix r n A0).
Context (Hrtc : rtc row_op A0 (es_A st)) (Hech : echelon n r j st).

Lemma pivot_is_lead c : c ∈ es_pivot_cols st →
  (c < j)%nat ∧ ∃ x, in_span n A0 x ∧ leads_at c x.
Proof.
  intros [i Hi]%list_elem_of_lookup.
  assert (i < es_rank st)%nat as Hirank
    by (rewrite <- (ech_len _ _ _ _ Hech); by eapply lookup_lt_Some).
  destruct (echelon_pivot_row n r j st i Hech Hirank)
    as (p & row & Hp & Hrow & Hpj & _ & Hlead).
  assert (p = c) as -> by congruence. split; [done|]. exists row. split; [|done].
  eapply (proj1 (Forall_forall _ _)); [by eapply rtc_row_op_span_rev|].
  by eapply list_elem_of_lookup_2.
Qed.

Lemma lead_is_pivot c x :
  in_span n A0 x → leads_at c x → (c < j)%nat → c ∈ es_pivot_cols st.
Proof.
  intros Hspan Hlead Hc.
  assert (in_span n (es_A st) x) as (cs & _ & <-).
  { eapply in_span_trans; [|by eapply rtc_row_op_span|done].
    by eapply bitmatrix_rows, ech_wf. }
  destruct (stair_combination n j Hj _ _ (echelon_stair n r j st Hech) cs)
    as [Hz | (p & Hp & Hlead')].
  - destruct Hlead as [H1 _]. rewrite (Hz c Hc) in H1. done.
  - by rewrite <- (leads_at_unique _ _ _ Hlead' Hlead).
Qed.
End PivotColumns.

(** Appending a vector never lowers the rank that
    [check_linear_independence] reports. *)
Lemma check_rank_monotone n vs v :
  Forall (bitstring n) vs → bitstring n v →
  ∃ b rk b' rk', check_linear_independence vs n = Ok (b, rk) ∧
                 check_linear_independence (vs ++ [v]) n = Ok (b', rk') ∧
                 rk ≤ rk'.
Proof.
  intros Hvs Hv.
  assert (Forall (bitstring n) (vs ++ [v])) as Hvs'
    by (apply Forall_app; split; [done | by apply Forall_singleton]).
  destruct (check_linear_independence_spec n (vs ++ [v]))
    as (st' & _ & Hech' & Hrtc' & Hc'); [by destruct vs | done |].
  destruct (decide (vs = [])) as [-> | Hne].
  { do 4 eexists. split; [reflexivity|]. split; [exact Hc' | lia]. }
  destruct (check_linear_independence_spec n vs Hne Hvs)
    as (st & _ & Hech & Hrtc & Hc).
  do 4 eexists. split; [exact Hc|]. split; [exact Hc'|].
  destruct (bitstrings_rows n vs Hvs) as [_ HA].
  destruct (bitstrings_rows n _ Hvs') as [_ HA'].
  rewrite length_app in Hech', HA'. simpl in Hech', HA'.
  rewrite map_app in Hrtc', HA'. simpl in Hrtc', HA'.
  apply inj_le. rewrite <- (ech_len _ _ _ _ Hech), <- (ech_len _ _ _ _ Hech').
  apply submseteq_length, NoDup_submseteq; [by eapply echelon_NoDup|].
  intros c Hc0.
  destruct (pivot_is_lead n _ _ _ st HA Hrtc Hech c Hc0) as (Hcm & x & Hx & Hlead).
  eapply (lead_is_pivot n _ (n `min` (length vs + 1)) _ st' ltac:(lia)
            HA' Hrtc' Hech' c x);
    [by apply in_span_app_l | done | lia].
Qed.

(** * The claims *)

Local Open Scope string_scope.

(** ** The solver *)

(** C2. For a width [n >= 1] and a non-empty list of n-bit rows, the pivot
    count of the solver's forward elimination is the GF(2) rank of the
    rows, and [solve_for_s_from_measurements] returns 0 exactly when that
    rank is [n], that is, exactly when 0 is the only n-bit vector
    orthogonal to every input row; otherwise it returns a non-zero n-bit
    vector whose GF(2) dot product with every input row is 0. *)
Theorem solver_zero_iff_full_rank n ms :
  (0 < n)%nat → ms ≠ [] → Forall (bitstring n) ms →
  ∃ rank s,
    row_rank n (map bits_of ms) rank ∧
    solver_rank n ms = Ok (Some rank) ∧
    solve_for_s_from_measurements n ms = Ok (Some s) ∧
    (s = 0 ↔ rank = n) ∧
    (s = 0 ↔ ∀ t, 0 ≤ t < 2 ^ Z.of_nat n →
                  (∀ y, y ∈ ms → dot (bits_of y) (int_to_bits t n) = 0) → t = 0) ∧
    (rank ≠ n →
       0 < s < 2 ^ Z.of_nat n ∧
       ∀ y, y ∈ ms → dot (bits_of y) (int_to_bits s n) = 0).
Proof.
  intros Hn Hms Hbits.
  destruct (solve_for_s_from_measurements_spec n ms Hn Hms Hbits)
    as (st & s & Hred & Hech & Hrtc & Hsolve & Hzero & Hnz).
  destruct (bitstrings_rows n ms Hbits) as [_ HA].
  assert (es_rank st ≠ n →
          0 < s < 2 ^ Z.of_nat n ∧
          ∀ y, y ∈ ms → dot (bits_of y) (int_to_bits s n) = 0) as Hnz'.
  { intros Hrank. destruct (Hnz Hrank) as [Hrange Horth]. split; [done|].
    intros y Hy. apply (orth_elem _ (map bits_of ms)); [done|].
    by apply list_elem_of_fmap_2. }
  exists (es_rank st), s. unfold solver_rank. rewrite Hred.
  split; [|split; [done|]; split; [done|]; split; [done|]; split; [|done]].
  - exists (es_pivot_cols st). split; [apply (ech_len _ _ _ _ Hech)|].
    split; [by eapply echelon_NoDup|]. intros c. split.
    + apply (pivot_is_lead n _ _ _ st HA Hrtc Hech).
    + intros (Hc & x & Hx & Hlead).
      by apply (lead_is_pivot n _ n _ st ltac:(lia) HA Hrtc Hech c x).
  - rewrite Hzero. split.
    + intros Hfull t Ht Horth.
      assert (int_to_bits t n = replicate n 0) as Hbitsz.
      { apply (full_rank_trivial n _ st Hech); [done | apply int_to_bits_bitvec |].
        apply (rtc_row_op_orth _ _ _ _ _ Hrtc HA).
        unfold orth. by rewrite Forall_map, Forall_forall. }
      rewrite <- (bits_to_int_to_bits n t Ht), Hbitsz.
      apply bits_to_int_replicate.
    + intros Honly. destruct (decide (es_rank st = n)) as [|Hless]; [done|].
      destruct (Hnz' Hless) as [Hrange Horth].
      specialize (Honly s ltac:(lia) Horth). lia.
Qed.

Ltac bitstrings :=
  repeat (apply Forall_cons; split;
          [split; [reflexivity | repeat constructor; first [by left | by right]]|]);
  apply Forall_nil_2.

Lemma solver_zero_iff_full_rank_witness :
  ∃ rank s,
    row_rank 4 (map bits_of ["0010"; "0111"; "1001"]) rank ∧
    solver_rank 4 ["0010"; "0111"; "1001"] = Ok (Some rank) ∧
    solve_for_s_from_measurements 4 ["0010"; "0111"; "1001"] = Ok (Some s) ∧
    (s = 0 ↔ rank = 4%nat) ∧
    (s = 0 ↔ ∀ t, 0 ≤ t < 2 ^ Z.of_nat 4 →
                  (∀ y, y ∈ ["0010"; "0111"; "1001"] →
                        dot (bits_of y) (int_to_bits t 4) = 0) → t = 0) ∧
    (rank ≠ 4%nat →
       0 < s < 2 ^ Z.of_nat 4 ∧
       ∀ y, y ∈ ["0010"; "0111"; "1001"] → dot (bits_of y) (int_to_bits s 4) = 0).
Proof.
  apply (solver_zero_iff_full_rank 4 ["0010"; "0111"; "1001"]);
    [lia | done | bitstrings].
Defined.

(** ** The validating front end *)

Lemma check_linear_independence_flag vs n b rank :
  vs ≠ [] → check_linear_independence vs n = Ok (b, rank) →
  b = bool_decide (rank >= Z.of_nat n - 1).
Proof.
  intros Hvs. unfold check_linear_independence. destruct vs as [|v vs]; [done|].
  intros (rows & _ & H)%bind_Ok_inv.
  apply bind_Ok_inv in H as (A & _ & H).
  destruct (shape A) as [r c].
  apply bind_Ok_inv in H as (st & _ & H). by injection H as <- <-.
Qed.

(** C3. Once the all-zero filter leaves a non-empty list whose rank
    [check_linear_independence] computes as [rank], [solve_for_s_enhanced]
    fails with the detail (rank, n-1) if and only if [rank < n-1], and it
    reports no other insufficiency detail; for n = 4 the list
    ['0110', '0110'] fails with rank 1 and needed 3. *)
Theorem insufficient_iff_rank_below n ms b rank :
  useful_measurements n ms ≠ [] →
  check_linear_independence (useful_measurements n ms) n = Ok (b, rank) →
  (solve_for_s_enhanced n ms = Ok (None, Insufficient rank (Z.of_nat n - 1))
     ↔ rank < Z.of_nat n - 1) ∧
  (∀ rk need, solve_for_s_enhanced n ms = Ok (None, Insufficient rk need) →
              rk = rank ∧ need = Z.of_nat n - 1) ∧
  solve_for_s_enhanced 4 ["0110"; "0110"] = Ok (None, Insufficient 1 3).
Proof.
  intros Huse Hcheck.
  pose proof (check_linear_independence_flag _ _ _ _ Huse Hcheck) as ->.
  rewrite solve_for_s_enhanced_unfold, Hcheck by done. cbn [mbind result_bind].
  destruct (decide (rank < Z.of_nat n - 1)) as [Hlow | Hhigh].
  - rewrite (bool_decide_eq_false_2 (_ >= _)) by lia.
    rewrite (bool_decide_eq_true_2 (_ < _)) by lia. simpl.
    split; [done|]. split; [|done]. by intros rk need [= <- <-].
  - rewrite (bool_decide_eq_false_2 (_ < _)) by lia. rewrite andb_false_r.
    destruct (solve_for_s_from_measurements _ _) as [s|e]; cbn [mbind result_bind];
      (split; [split; [done | lia] | split; [done | reflexivity]]).
Qed.

Lemma insufficient_iff_rank_below_witness :
  (solve_for_s_enhanced 4 ["0110"; "0110"] = Ok (None, Insufficient 1 (Z.of_nat 4 - 1))
     ↔ 1 < Z.of_nat 4 - 1) ∧
  (∀ rk need, solve_for_s_enhanced 4 ["0110"; "0110"] = Ok (None, Insufficient rk need) →
              rk = 1 ∧ need = Z.of_nat 4 - 1) ∧
  solve_for_s_enhanced 4 ["0110"; "0110"] = Ok (None, Insufficient 1 3).
Proof.
  apply (insufficient_iff_rank_below 4 ["0110"; "0110"] false 1);
    [done | reflexivity].
Defined.

Lemma useful_measurements_zeros n ms :
  Forall (fun m => m = zeros n) ms → useful_measurements n ms = [].
Proof.
  induction 1 as [|m ms Hm _ IH]; [done|].
  unfold useful_measurements in *. rewrite filter_cons, decide_False; [done|].
  by intros Hne.
Qed.

(** C4. An empty list, or a list of all-zero n-bit strings, yields no
    vector at all, with one of the two no-informative-measurements reasons. *)
Theorem uninformative_input_fails n ms :
  Forall (fun m => m = zeros n) ms →
  solve_for_s_enhanced n ms =
    Ok (None, match ms with [] => NoMeasurements | _ => AllUninformative end).
Proof.
  intros Hzero. pose proof (useful_measurements_zeros n ms Hzero) as Huse.
  unfold solve_for_s_enhanced. destruct ms as [|m ms]; [done|]. by rewrite Huse.
Qed.

Lemma uninformative_input_fails_witness :
  solve_for_s_enhanced 4 ["0000"; "0000"; "0000"] = Ok (None, AllUninformative).
Proof.
  apply (uninformative_input_fails 4 ["0000"; "0000"; "0000"]).
  by repeat constructor.
Defined.

(** C5. The rank of [check_linear_independence] changes when a duplicate
    is appended: for n = 2 the list ['01'] has computed rank 0 and
    ['01', '01'] has computed rank 1. *)
Theorem duplicate_changes_checked_rank :
  check_linear_independence ["01"] 2 = Ok (false, 0) ∧
  check_linear_independence (["01"] ++ ["01"]) 2 = Ok (true, 1).
Proof. by split. Qed.

(** C6. On the single row '01' with n = 2 the rank check reports rank 0
    while the solver's forward elimination finds one pivot. *)
Theorem checked_rank_differs_from_solver_rank :
  check_linear_independence ["01"] 2 = Ok (false, 0) ∧
  solver_rank 2 ["01"] = Ok (Some 1%nat).
Proof. by split. Qed.

(** C7, as stated, fails: the cleaned list for ['0110', '0110'] still
    holds the vector twice. *)
Lemma cleaned_list_has_duplicates :
  useful_measurements 4 ["0110"; "0110"] = ["0110"; "0110"] ∧
  ¬ NoDup (useful_measurements 4 ["0110"; "0110"]).
Proof.
  split; [done|]. intros Hnd. change (NoDup ["0110"; "0110"]) in Hnd.
  apply NoDup_cons in Hnd as [Hnot _]. apply Hnot. left.
Qed.

(** C7, amended. The validator only strips all-zero strings: every other
    string occurs in the cleaned list as often as in the input, the
    all-zero string never, and this cleaned list is what the rank check
    and the solver receive. *)
Theorem cleaned_list_keeps_multiplicity n ms m :
  m ≠ zeros n →
  occurrences m (useful_measurements n ms) = occurrences m ms ∧
  (zeros n ∉ useful_measurements n ms) ∧
  (useful_measurements n ms ≠ [] →
   solve_for_s_enhanced n ms =
   ('(is_independent, rank) ← check_linear_independence (useful_measurements n ms) n;
    if negb is_independent && bool_decide (rank < Z.of_nat n - 1)
    then Ok (None, Insufficient rank (Z.of_nat n - 1))
    else s_int ← solve_for_s_from_measurements n (useful_measurements n ms);
         Ok (s_int, Success))).
Proof.
  intros Hm. split; [|split].
  - unfold occurrences, useful_measurements.
    induction ms as [|x ms IH]; [done|].
    rewrite !filter_cons. destruct (decide (x ≠ zeros n)) as [Hx | Hx].
    + rewrite filter_cons. case_decide; simpl; by rewrite IH.
    + rewrite decide_False; [done|]. intros ->. by apply Hx.
  - unfold useful_measurements. intros Hin.
    by apply list_elem_of_filter in Hin as [Hne _].
  - apply solve_for_s_enhanced_unfold.
Qed.

Lemma cleaned_list_keeps_multiplicity_witness :
  occurrences "0110" (useful_measurements 4 ["0110"; "0000"; "0110"]) = 2%nat ∧
  (zeros 4 ∉ useful_measurements 4 ["0110"; "0000"; "0110"]) ∧
  solve_for_s_enhanced 4 ["0110"; "0000"; "0110"] = Ok (None, Insufficient 1 3).
Proof.
  destruct (cleaned_list_keeps_multiplicity 4 ["0110"; "0000"; "0110"] "0110")
    as (Hocc & Hzero & Hrun); [done|].
  split; [exact Hocc|]. split; [exact Hzero|].
  rewrite Hrun by done. reflexivity.
Defined.

(** C8. For n = 4 and s = 1101 the clean vectors give 1101; with the
    first vector corrupted to '0011' the pipeline returns 1011, not 1101. *)
Theorem noise_scenario :
  solve_for_s_enhanced 4 ["0010"; "0111"; "1001"] = Ok (Some 13, Success) ∧
  solve_for_s_enhanced 4 ["0011"; "0111"; "1001"] = Ok (Some 11, Success) ∧
  solve_for_s_enhanced 4 ["0011"; "0111"; "1001"] ≠ Ok (Some 13, Success).
Proof. by repeat split. Qed.

(** ** The Simon function *)

(** C10. For [0 <= s_int < 2^n], [build_simon_function] returns a mapping
    defined exactly on the 2^n inputs, with the same value at [x] and at
    [x XOR s_int]; two inputs share a value only if they are equal or
    differ by [s_int], so the mapping is two-to-one for [s_int <> 0] and
    injective for [s_int = 0]. *)
Theorem build_simon_function_two_to_one n s_int :
  0 ≤ s_int < 2 ^ Z.of_nat n →
  ∃ m, build_simon_function n s_int = Ok m ∧
       (∀ x, is_Some (m !! x) ↔ 0 ≤ x < 2 ^ Z.of_nat n) ∧
       (∀ x, 0 ≤ x < 2 ^ Z.of_nat n →
             ∃ v, m !! x = Some v ∧ m !! Z.lxor x s_int = Some v) ∧
       (∀ x y v, m !! x = Some v → m !! y = Some v →
                 y = x ∨ y = Z.lxor x s_int) ∧
       (s_int ≠ 0 → ∀ x, Z.lxor x s_int ≠ x) ∧
       (s_int = 0 → ∀ x y v, m !! x = Some v → m !! y = Some v → y = x).
Proof.
  intros Hs. unfold build_simon_function. rewrite Z.shiftl_1_l.
  set (N := Z.to_nat (2 ^ Z.of_nat n)).
  assert (Z.of_nat N = 2 ^ Z.of_nat n) as HN by (unfold N; lia).
  assert (∀ z, 0 ≤ z < Z.of_nat N → 0 ≤ Z.lxor z s_int < Z.of_nat N) as Hclosed.
  { intros z Hz. rewrite HN in *. by apply lxor_range. }
  destruct (simon_loop_spec N s_int Hclosed N 0
              {| seen := replicate N false; mapping := ∅; next_output := 0 |})
    as (st & -> & [_ _ Hdom _ Hpair Htwo]); [lia | by apply simon_inv_start |].
  exists (mapping st). cbn [mbind result_bind]. split; [done|].
  assert (∀ x, is_Some (mapping st !! x) ↔ 0 ≤ x < 2 ^ Z.of_nat n) as Hdom'.
  { intros x. rewrite Hdom, HN. simpl. split; [by intros [? _]|].
    intros Hx. split; [done|]. left. lia. }
  split; [done|]. split; [|split; [done|split]].
  - intros x Hx. apply Hdom' in Hx as [v Hv]. exists v. split; [done|].
    by apply Hpair.
  - intros Hne x Hx. apply Hne. apply (f_equal (Z.lxor x)) in Hx.
    rewrite <- Z.lxor_assoc, !Z.lxor_nilpotent in Hx. by rewrite Z.lxor_0_l in Hx.
  - intros -> x y v Hx Hy. destruct (Htwo x y v Hx Hy) as [-> | ->]; [done|].
    apply Z.lxor_0_r.
Qed.

Lemma build_simon_function_two_to_one_witness :
  ∃ m, build_simon_function 2 2 = Ok m ∧
       (∀ x, is_Some (m !! x) ↔ 0 ≤ x < 2 ^ Z.of_nat 2) ∧
       (∀ x, 0 ≤ x < 2 ^ Z.of_nat 2 →
             ∃ v, m !! x = Some v ∧ m !! Z.lxor x 2 = Some v) ∧
       (∀ x y v, m !! x = Some v → m !! y = Some v →
                 y = x ∨ y = Z.lxor x 2) ∧
       (2 ≠ 0 → ∀ x, Z.lxor x 2 ≠ x) ∧
       (2 = 0 → ∀ x y v, m !! x = Some v → m !! y = Some v → y = x).
Proof. apply (build_simon_function_two_to_one 2 2). simpl. lia. Defined.

(** ** The retry loop *)

Section RunTestCaseFacts.
Context (counts_keys : nat → list string) (n : nat) (s_int : Z).
Context (limit_measurements : option nat) (add_noise : bool) (max_retries : nat).

Lemma attempts_loop_log attempts :
  ∀ log, ∃ ran, (attempts_loop counts_keys n s_int limit_measurements add_noise
             max_retries attempts log).2 = (rev ran ++ log)%list ∧ ran `prefix_of` attempts.
Proof.
  induction attempts as [|a attempts IH]; intros log.
  - exists []. by split.
  - assert (∃ ran, a :: log = (rev ran ++ log)%list ∧ ran `prefix_of` a :: attempts)
      as Hstop by (exists [a]; split; [done | by apply prefix_cons, prefix_nil]).
    assert (∃ ran, (attempts_loop counts_keys n s_int limit_measurements
                     add_noise max_retries attempts (a :: log)).2 = (rev ran ++ log)%list
                   ∧ ran `prefix_of` a :: attempts) as Hgo.
    { destruct (IH (a :: log)) as (ran & -> & Hpre). exists (a :: ran).
      split; [|by apply prefix_cons]. simpl. by rewrite <- app_assoc. }
    simpl. destruct (solve_for_s_enhanced _ _) as [[[s_found|] why]|e]; try done.
    + repeat case_decide; try done. by destruct add_noise.
    + by case_decide.
Qed.

Lemma attempts_loop_all_fail :
  (∀ attempt, ∃ why,
      solve_for_s_enhanced n (measured_at counts_keys limit_measurements attempt)
      = Ok (None, why)) →
  ∀ k a log, (a + k = max_retries)%nat →
  attempts_loop counts_keys n s_int limit_measurements add_noise max_retries
    (seq a k) log =
    (match k with O => None | S _ => Some (Ok false) end,
     (rev (seq a k) ++ log)%list).
Proof.
  intros Hfail. induction k as [|k IH]; intros a log Hk; [done|].
  destruct (Hfail a) as [why Hwhy]. cbn [seq attempts_loop]. rewrite Hwhy.
  case_decide as Hlast.
  - rewrite IH by lia. destruct k as [|k]; [lia|].
    f_equal. simpl. by rewrite <- !app_assoc.
  - assert (k = 0%nat) as -> by lia. done.
Qed.
End RunTestCaseFacts.

(** C9. [run_test_case] runs the oracle at most [max_retries] times, at
    attempts 0, 1, ... in order; when every attempt fails validation it
    runs exactly [max_retries] attempts (three for [max_retries = 3]) and
    returns [False]. *)
Theorem run_test_case_attempts counts_keys n s_int limit_measurements add_noise
    max_retries :
  let run := run_test_case counts_keys n s_int limit_measurements add_noise
               max_retries in
  (length run.2 ≤ max_retries)%nat ∧
  run.2 `prefix_of` seq 0 max_retries ∧
  ((∀ attempt, ∃ why,
       solve_for_s_enhanced n (measured_at counts_keys limit_measurements attempt)
       = Ok (None, why)) →
   run = (Ok false, seq 0 max_retries) ∧
   (max_retries = 3%nat → run = (Ok false, [0; 1; 2]%nat))).
Proof.
  cbv zeta. unfold run_test_case.
  destruct (attempts_loop_log counts_keys n s_int limit_measurements add_noise
              max_retries (seq 0 max_retries) []) as (ran & Hlog & Hpre).
  split; [|split].
  - destruct (attempts_loop _ _ _ _ _ _ _ _) as [ret log]. simpl in *. subst log.
    rewrite app_nil_r, rev_involutive.
    apply prefix_length in Hpre. by rewrite length_seq in Hpre.
  - destruct (attempts_loop _ _ _ _ _ _ _ _) as [ret log]. simpl in *. subst log.
    by rewrite app_nil_r, rev_involutive.
  - intros Hfail.
    rewrite (attempts_loop_all_fail _ _ _ _ _ _ Hfail max_retries 0) by lia.
    rewrite app_nil_r, rev_involutive.
    split; [by destruct max_retries | by intros ->].
Qed.

Lemma run_test_case_attempts_witness :
  run_test_case (fun _ => ["0000"]) 4 13 None false 3 = (Ok false, [0; 1; 2]%nat).
Proof.
  apply (run_test_case_attempts (fun _ => ["0000"]) 4 13 None false 3);
    [intros attempt; by exists AllUninformative | done].
Defined.

(** ** The round trip *)





(** * Further properties of the code *)

Local Open Scope list_scope.

(** ** Bit conversions on arbitrary integers *)

Lemma bits_to_int_low_bits l :
  bits_to_int (map (fun b => Z.land b 1) l) = bits_to_int l.
Proof.
  induction l as [|b l IH] using rev_ind; [done|].
  rewrite map_app. simpl. rewrite !bits_to_int_snoc, IH.
  by rewrite (bit_land_1 (Z.land b 1)) by apply land_1_bit.
Qed.

(** X1. Converting an integer to [n] bits and back keeps exactly its low
    [n] bits: the result is [x mod 2^n] for every integer [x], negative
    ones included, so the round trip is the identity precisely on
    [0 <= x < 2^n]. *)
Theorem int_to_bits_round_trip_mod x n :
  bits_to_int (int_to_bits x n) = x mod 2 ^ Z.of_nat n ∧
  (bits_to_int (int_to_bits x n) = x ↔ 0 ≤ x < 2 ^ Z.of_nat n).
Proof.
  assert (bits_to_int (int_to_bits x n) = x mod 2 ^ Z.of_nat n) as Hmod.
  { revert x. induction n as [|n IH]; intros x.
    - unfold int_to_bits, bits_to_int. simpl. by rewrite Z.mod_1_r.
    - rewrite int_to_bits_snoc, bits_to_int_snoc, IH.
      rewrite (bit_land_1 (Z.land x 1)) by apply land_1_bit.
      apply Z.bits_inj'. intros k Hk.
      rewrite Z.lor_spec, Z.land_spec.
      destruct (decide (k = 0)) as [-> | Hne].
      + rewrite Z.shiftl_spec_low by lia.
        rewrite Z.mod_pow2_bits_low by lia.
        change (Z.testbit 1 0) with true. by rewrite andb_true_r.
      + rewrite Z.shiftl_spec by lia.
        rewrite testbit_1_high, andb_false_r, orb_false_r by done.
        destruct (decide (k < Z.of_nat (S n))) as [Hlow | Hhigh].
        * rewrite !Z.mod_pow2_bits_low by lia.
          rewrite Z.shiftr_spec by lia. f_equal. lia.
        * rewrite !Z.mod_pow2_bits_high by lia. done. }
  split; [done|]. rewrite Hmod. split.
  - intros Heq. rewrite <- Heq. apply Z.mod_pos_bound. lia.
  - intros Hx. by apply Z.mod_small.
Qed.

(** X2. Reading a list back as [len] bits returns the lowest bit of every
    entry: [bits_to_int] ignores everything but that bit, and its value
    lies in [0, 2^len). *)
Theorem bits_to_int_round_trip l :
  int_to_bits (bits_to_int l) (length l) = map (fun b => Z.land b 1) l ∧
  0 ≤ bits_to_int l < 2 ^ Z.of_nat (length l).
Proof.
  split; [|apply bits_to_int_range].
  rewrite <- bits_to_int_low_bits.
  rewrite <- (length_map (fun b => Z.land b 1) l) at 1.
  apply int_to_bits_to_int. apply Forall_map, Forall_forall.
  intros b _. apply land_1_bit.
Qed.

(** ** The Simon function outside its domain, and its labels *)

(** X3. A period outside the n-bit range, [s_int >= 2^n] or
    [s_int < -2^n], makes [build_simon_function] raise [IndexError] at the
    first input. *)
Theorem build_simon_function_out_of_range n s_int :
  2 ^ Z.of_nat n ≤ s_int ∨ s_int < - 2 ^ Z.of_nat n →
  build_simon_function n s_int = Raise IndexError.
Proof.
  intros Hs. unfold build_simon_function. rewrite Z.shiftl_1_l.
  assert (0 < 2 ^ Z.of_nat n) as Hpos by (apply Z.pow_pos_nonneg; lia).
  destruct (Z.to_nat (2 ^ Z.of_nat n)) as [|N] eqn:HN; [lia|].
  cbn [seq simon_loop]. unfold simon_step. cbn [seen replicate lookup].
  simpl (_ !! _). rewrite Z.lxor_0_l.
  rewrite decide_False by lia.
  unfold py_setitem, py_index. rewrite length_insert. simpl length.
  rewrite length_replicate.
  rewrite decide_False by lia. rewrite decide_False by lia. done.
Qed.

Lemma build_simon_function_out_of_range_witness :
  build_simon_function 2 5 = Raise IndexError.
Proof. apply (build_simon_function_out_of_range 2 5). left. simpl. lia. Defined.

Section SimonLabels.
Context (N : nat) (s : Z).
Context (Hclosed : ∀ z, 0 ≤ z < Z.of_nat N → 0 ≤ Z.lxor z s < Z.of_nat N).

(** The labels handed out while the inputs below [x] are done: each is at
    most its input, and they fill [0, next_output) without gaps. *)
Lemma simon_step_labels x st st' :
  (x < N)%nat → simon_inv N s x st →
  (0 ≤ next_output st ≤ Z.of_nat x ∧
   (∀ z v, mapping st !! z = Some v → 0 ≤ v ≤ z ∧ v < next_output st) ∧
   (∀ v, 0 ≤ v < next_output st → ∃ z, mapping st !! z = Some v)) →
  simon_step s st x = Ok st' →
  0 ≤ next_output st' ≤ Z.of_nat (S x) ∧
  (∀ z v, mapping st' !! z = Some v → 0 ≤ v ≤ z ∧ v < next_output st') ∧
  (∀ v, 0 ≤ v < next_output st' → ∃ z, mapping st' !! z = Some v).
Proof.
  intros Hx Hinv (Hnext & Hval & Hfill). unfold simon_step.
  rewrite (si_seen _ _ _ _ Hinv x Hx).
  set (X := Z.of_nat x). set (Y := Z.lxor X s).
  assert (0 ≤ Y < Z.of_nat N) as HY by (apply Hclosed; lia).
  destruct (bool_decide (X < X ∨ Y < X)) eqn:Hseen.
  - intros [= <-]. split; [lia|]. done.
  - apply bool_decide_eq_false in Hseen.
    assert (0 ≤ next_output st ≤ X ∧ X ≤ Y) as Hord by (unfold X in *; lia).
    assert (∀ z v, mapping st !! z = Some v → z ≠ X ∧ z ≠ Y) as Hold.
    { intros z v Hz. assert (is_Some (mapping st !! z)) as Hsome by done.
      apply (si_dom _ _ _ _ Hinv) in Hsome as [_ Hc]. fold X in Hc.
      split; intros ->; [lia|].
      unfold Y in Hc at 2. rewrite lxor_involutive in Hc. lia. }
    assert (∀ m', (m' = <[X := next_output st]> (mapping st) ∨
                   m' = <[Y := next_output st]>
                          (<[X := next_output st]> (mapping st))) →
            (∀ z v, m' !! z = Some v → 0 ≤ v ≤ z ∧ v < next_output st + 1) ∧
            (∀ v, 0 ≤ v < next_output st + 1 → ∃ z, m' !! z = Some v)) as Hboth.
    { intros m' Hm'. split.
      - intros z v Hz.
        assert (z = X ∧ v = next_output st ∨ z = Y ∧ v = next_output st
                ∨ mapping st !! z = Some v) as Hcases.
        { destruct Hm' as [-> | ->].
          - rewrite lookup_insert in Hz. case_decide; [left|right; right; done].
            split; [done | congruence].
          - rewrite lookup_insert_pair in Hz.
            case_decide as Hc; [|right; right; done].
            injection Hz as <-. destruct Hc; [left | right; left]; done. }
        destruct Hcases as [[-> ->] | [[-> ->] | Hprev]]; [lia | lia |].
        apply Hval in Hprev. lia.
      - intros v Hv. destruct (decide (v = next_output st)) as [-> | Hne].
        + exists X. destruct Hm' as [-> | ->].
          * apply lookup_insert_eq.
          * rewrite lookup_insert_pair. rewrite decide_True; [done | by left].
        + destruct (Hfill v ltac:(lia)) as [z Hz]. exists z.
          destruct (Hold z v Hz) as [HzX HzY].
          destruct Hm' as [-> | ->].
          * by rewrite lookup_insert_ne.
          * rewrite lookup_insert_pair. rewrite decide_False; [done|].
            by intros [? | ?]. }
    case_decide as Heq.
    + intros [= <-]. simpl. split; [lia|]. apply Hboth. by left.
    + intros (seen' & _ & [= <-])%bind_Ok_inv. simpl. split; [lia|].
      apply Hboth. by right.
Qed.

Lemma simon_loop_labels :
  ∀ k x st st', (x + k ≤ N)%nat → simon_inv N s x st →
  (0 ≤ next_output st ≤ Z.of_nat x ∧
   (∀ z v, mapping st !! z = Some v → 0 ≤ v ≤ z ∧ v < next_output st) ∧
   (∀ v, 0 ≤ v < next_output st → ∃ z, mapping st !! z = Some v)) →
  simon_loop s (seq x k) st = Ok st' →
  (∀ z v, mapping st' !! z = Some v → 0 ≤ v ≤ z ∧ v < next_output st') ∧
  (∀ v, 0 ≤ v < next_output st' → ∃ z, mapping st' !! z = Some v).
Proof.
  induction k as [|k IH]; intros x st st' Hk Hinv Hlab.
  - intros [= <-]. by destruct Hlab as (_ & ? & ?).
  - cbn [seq simon_loop]. intros (st1 & Hst1 & Hrest)%bind_Ok_inv.
    destruct (simon_step_spec N s Hclosed x st ltac:(lia) Hinv) as (st1' & Hst1' & Hinv1).
    assert (st1' = st1) as -> by congruence.
    apply (IH (S x) st1 st'); [lia | done | | done].
    apply (simon_step_labels x st st1); [lia | done | done | done].
Qed.
End SimonLabels.

(** X4. For [0 <= s_int < 2^n] every label of [build_simon_function] is
    at most its input, [0 <= f(x) <= x], so the outputs are n-bit values;
    and the labels are used without gaps: below a label that occurs, every
    natural number occurs. *)
Theorem build_simon_function_labels n s_int m :
  0 ≤ s_int < 2 ^ Z.of_nat n →
  build_simon_function n s_int = Ok m →
  (∀ x v, m !! x = Some v → 0 ≤ v ≤ x ∧ v < 2 ^ Z.of_nat n) ∧
  (∀ x v v', m !! x = Some v → 0 ≤ v' ≤ v → ∃ x', m !! x' = Some v').
Proof.
  intros Hs. unfold build_simon_function. rewrite Z.shiftl_1_l.
  set (N := Z.to_nat (2 ^ Z.of_nat n)).
  assert (Z.of_nat N = 2 ^ Z.of_nat n) as HN by (unfold N; lia).
  assert (∀ z, 0 ≤ z < Z.of_nat N → 0 ≤ Z.lxor z s_int < Z.of_nat N) as Hclosed.
  { intros z Hz. rewrite HN in *. by apply lxor_range. }
  intros (st & Hloop & [= <-])%bind_Ok_inv.
  destruct (simon_loop_spec N s_int Hclosed N 0 _ ltac:(lia)
              (simon_inv_start N s_int Hclosed)) as (st' & Hloop' & Hinv).
  assert (st' = st) as -> by congruence.
  destruct (simon_loop_labels N s_int Hclosed N 0 _ st ltac:(lia)
              (simon_inv_start N s_int Hclosed)) as [Hval Hfill]; [|done|].
  { simpl. split; [lia|]. split.
    - intros z v. by rewrite lookup_empty.
    - intros v. lia. }
  split.
  - intros x v Hx. destruct (Hval x v Hx) as [Hv _]. split; [done|].
    assert (is_Some (mapping st !! x)) as Hsome by done.
    apply (si_dom _ _ _ _ Hinv) in Hsome. lia.
  - intros x v v' Hx Hv'. apply Hfill.
    destruct (Hval x v Hx) as [_ Hlt]. lia.
Qed.

Lemma build_simon_function_labels_witness :
  ∃ m, build_simon_function 2 2 = Ok m ∧
       (∀ x v, m !! x = Some v → 0 ≤ v ≤ x ∧ v < 2 ^ Z.of_nat 2) ∧
       (∀ x v v', m !! x = Some v → 0 ≤ v' ≤ v → ∃ x', m !! x' = Some v').
Proof.
  eexists. split; [reflexivity|].
  apply (build_simon_function_labels 2 2); [simpl; lia | reflexivity].
Defined.

(** ** The oracle circuit on basis states *)

Lemma run_gates_app gs1 gs2 st :
  run_gates (gs1 ++ gs2) st = run_gates gs2 (run_gates gs1 st).
Proof. apply fold_left_app. Qed.

Lemma alter_middle {A} (f : A → A) pre b l :
  alter f (length pre) (pre ++ b :: l) = pre ++ f b :: l.
Proof. induction pre as [|a pre IH]; [done|]. simpl. by f_equal. Qed.

Lemma control_flips_run x_bits : ∀ pre inp post,
  length inp = length x_bits →
  run_gates (control_flips (length pre) x_bits) (pre ++ inp ++ post) =
  pre ++ flip_controls inp x_bits ++ post.
Proof.
  induction x_bits as [|bit rest IH]; intros pre [|b inp] post Hlen; try done.
  injection Hlen as Hlen. cbn [control_flips]. rewrite run_gates_app.
  assert (∀ b', pre ++ b' :: inp ++ post = (pre ++ [b']) ++ inp ++ post) as Hassoc
    by (intros b'; by rewrite <- app_assoc).
  assert (S (length pre) = length (pre ++ [b])) as Hpre
    by (rewrite length_app; simpl; lia).
  assert (S (length pre) = length (pre ++ [negb b])) as Hpre'
    by (rewrite length_app; simpl; lia).
  unfold flip_controls. cbn [zip_with]. case_decide as Hbit.
  - cbn [run_gates fold_left apply_gate app]. rewrite alter_middle.
    change (fold_left (λ st g, apply_gate g st) ?gs ?st) with (run_gates gs st).
    rewrite (Hassoc (negb b)), Hpre', IH by done.
    by rewrite <- app_assoc.
  - cbn [run_gates fold_left app].
    change (fold_left (λ st g, apply_gate g st) ?gs ?st) with (run_gates gs st).
    rewrite (Hassoc b), Hpre, IH by done.
    by rewrite <- app_assoc.
Qed.

Lemma flip_controls_twice x_bits : ∀ inp,
  flip_controls (flip_controls inp x_bits) x_bits = inp ∨
  length inp ≠ length x_bits.
Proof.
  induction x_bits as [|x rest IH]; intros [|b inp]; try (by left); try (by right).
  destruct (IH inp) as [Heq | Hne]; [left | right; simpl; lia].
  unfold flip_controls in *. cbn [zip_with]. rewrite Heq.
  case_decide; [by rewrite negb_involutive | done].
Qed.

Lemma flip_controls_length inp x_bits :
  length inp = length x_bits → length (flip_controls inp x_bits) = length inp.
Proof. intros Hlen. unfold flip_controls. rewrite length_zip_with. lia. Qed.

Lemma flip_controls_all x_bits : ∀ inp, length inp = length x_bits →
  forallb id (flip_controls inp x_bits) = bool_decide (inp = control_pattern x_bits).
Proof.
  induction x_bits as [|x rest IH]; intros [|b inp] Hlen; try done.
  injection Hlen as Hlen. unfold flip_controls, control_pattern in *.
  cbn [zip_with forallb map id]. rewrite (IH inp Hlen).
  assert ((if decide (x = 0) then negb b else b) = true ↔ b = bool_decide (x ≠ 0))
    as Hhead.
  { destruct (decide (x = 0)) as [-> | Hx].
    - rewrite (bool_decide_eq_false_2 (0 ≠ 0)) by (by intros ?). by destruct b.
    - rewrite (bool_decide_eq_true_2 (x ≠ 0)) by done. by destruct b. }
  destruct (decide (b :: inp = bool_decide (x ≠ 0) :: map (λ x0, bool_decide (x0 ≠ 0)) rest))
    as [Heq | Hne].
  - rewrite (bool_decide_eq_true_2 _ Heq). injection Heq as Hb Hinp.
    rewrite (bool_decide_eq_true_2 _ Hinp), andb_true_r. by apply Hhead.
  - rewrite (bool_decide_eq_false_2 _ Hne).
    destruct (decide (inp = map (λ x0, bool_decide (x0 ≠ 0)) rest)) as [Hinp | Hinp].
    + rewrite (bool_decide_eq_true_2 _ Hinp), andb_true_r.
      apply not_true_is_false. intros Htrue. apply Hne.
      f_equal; [by apply Hhead | done].
    + by rewrite (bool_decide_eq_false_2 _ Hinp), andb_false_r.
Qed.

Lemma forallb_nth_seq (l : list bool) : ∀ pre post,
  forallb (fun c => nth c (pre ++ l ++ post) false) (seq (length pre) (length l))
  = forallb id l.
Proof.
  induction l as [|b l IH]; intros pre post; [done|].
  cbn [length seq forallb app]. rewrite app_nth2, Nat.sub_diag by lia.
  cbn [nth id]. f_equal.
  replace (pre ++ b :: l ++ post) with ((pre ++ [b]) ++ l ++ post)
    by (by rewrite <- app_assoc).
  replace (S (length pre)) with (length (pre ++ [b]))
    by (rewrite length_app; simpl; lia).
  apply IH.
Qed.

Lemma controlled_x_run n inp out i :
  length inp = n →
  apply_gate (controlled_x n (n + i)%nat) (inp ++ out) =
  inp ++ (if forallb id inp then alter negb i out else out).
Proof.
  intros Hn.
  assert (alter negb (n + i)%nat (inp ++ out) = inp ++ alter negb i out) as Halter
    by (rewrite <- Hn; apply alter_app_r).
  destruct n as [|[|n]].
  - destruct inp; [done | simpl in Hn; lia].
  - destruct inp as [|b [|b' inp]]; try (simpl in Hn; lia).
    cbn [controlled_x apply_gate]. cbn [app nth]. destruct b; [|done].
    exact Halter.
  - cbn [controlled_x apply_gate].
    pose proof (forallb_nth_seq inp [] out) as Hall.
    cbn [app length] in Hall. rewrite Hn in Hall. rewrite Hall.
    destruct (forallb id inp); [exact Halter | done].
Qed.

Lemma target_block_run n x_bits inp out i :
  length inp = n → length x_bits = n →
  run_gates (target_block n x_bits (n + i)%nat) (inp ++ out) =
  inp ++ (if decide (inp = control_pattern x_bits) then alter negb i out else out).
Proof.
  intros Hinp Hx. unfold target_block. rewrite !run_gates_app.
  pose proof (control_flips_run x_bits [] inp out ltac:(lia)) as Hflip.
  cbn [length app] in Hflip. rewrite Hflip.
  cbn [run_gates fold_left].
  rewrite controlled_x_run by (rewrite flip_controls_length; lia).
  change (fold_left (λ st g, apply_gate g st) ?gs ?st) with (run_gates gs st).
  rewrite flip_controls_all by lia.
  pose proof (control_flips_run x_bits [] (flip_controls inp x_bits)) as Hflip2.
  cbn [length app] in Hflip2.
  rewrite Hflip2 by (rewrite flip_controls_length; lia).
  destruct (flip_controls_twice x_bits inp) as [-> | Hne]; [|lia].
  f_equal. by destruct (decide (inp = control_pattern x_bits));
    [rewrite bool_decide_eq_true_2 | rewrite bool_decide_eq_false_2].
Qed.

Lemma targets_run n x_bits inp :
  length inp = n → length x_bits = n →
  ∀ fx_bits pre o post, length o = length fx_bits →
  run_gates (concat (map (target_block n x_bits)
                       (target_qubits n (length pre) fx_bits)))
    (inp ++ pre ++ o ++ post) =
  inp ++ pre ++
    (if decide (inp = control_pattern x_bits)
     then zip_with xorb o (map (fun b => bool_decide (b = 1)) fx_bits)
     else o) ++ post.
Proof.
  intros Hinp Hx. induction fx_bits as [|b rest IH]; intros pre [|c o] post Hlen;
    try done.
  { cbn [target_qubits map concat run_gates fold_left zip_with]. by case_decide. }
  injection Hlen as Hlen. cbn [target_qubits].
  rewrite map_app, concat_app, run_gates_app.
  assert (∀ c', inp ++ pre ++ c' :: o ++ post = inp ++ (pre ++ [c']) ++ o ++ post)
    as Hassoc by (intros c'; by rewrite <- (app_assoc pre)).
  assert (∀ c', S (length pre) = length (pre ++ [c'])) as Hpre
    by (intros c'; rewrite length_app; simpl; lia).
  destruct (decide (b = 1)) as [-> | Hb].
  - cbn [map concat]. rewrite app_nil_r. cbn [app].
    rewrite target_block_run by done. rewrite alter_middle.
    destruct (decide (inp = control_pattern x_bits)) as [Hm | Hm].
    + rewrite (Hassoc (negb c)), (Hpre (negb c)), IH by done. cbn [map zip_with].
      rewrite bool_decide_eq_true_2 by done. rewrite xorb_true_r.
      by rewrite <- (app_assoc pre).
    + rewrite (Hassoc c), (Hpre c), IH by done. by rewrite <- (app_assoc pre).
  - cbn [map concat run_gates fold_left app].
    destruct (decide (inp = control_pattern x_bits)) as [Hm | Hm];
      rewrite (Hassoc c), (Hpre c), IH by done.
    + cbn [map zip_with]. rewrite bool_decide_eq_false_2 by done.
      rewrite xorb_false_r. by rewrite <- (app_assoc pre).
    + by rewrite <- (app_assoc pre).
Qed.

Lemma oracle_item_run n x fx inp out :
  length inp = n → length out = n →
  run_gates (oracle_item n (x, fx)) (inp ++ out) =
  inp ++ (if decide (inp = control_pattern (int_to_bits x n))
          then zip_with xorb out (basis_state n fx) else out).
Proof.
  intros Hinp Hout.
  pose proof (targets_run n (int_to_bits x n) inp Hinp (int_to_bits_length x n)
                (int_to_bits fx n) [] out []) as Hrun.
  cbn [length app] in Hrun. rewrite !app_nil_r in Hrun.
  unfold oracle_item, basis_state. cbn [fst snd].
  destruct (target_qubits n 0 (int_to_bits fx n)) as [|t ts] eqn:Htargets.
  - cbn [map concat] in Hrun. rewrite <- Hrun by (by rewrite int_to_bits_length).
    done.
  - rewrite Hrun by (by rewrite int_to_bits_length). done.
Qed.

Lemma control_pattern_basis n x : control_pattern (int_to_bits x n) = basis_state n x.
Proof.
  unfold control_pattern, basis_state. apply map_ext_in. intros b Hb.
  apply list_elem_of_In in Hb.
  pose proof (proj1 (Forall_forall _ _) (int_to_bits_bits x n) b Hb) as [-> | ->]; done.
Qed.

Lemma basis_state_inj n x y :
  0 ≤ x < 2 ^ Z.of_nat n → 0 ≤ y < 2 ^ Z.of_nat n →
  basis_state n x = basis_state n y → x = y.
Proof.
  intros Hx Hy Heq.
  rewrite <- (bits_to_int_to_bits n x Hx), <- (bits_to_int_to_bits n y Hy).
  f_equal. unfold basis_state in Heq.
  pose proof (int_to_bits_bits x n) as Hbx. pose proof (int_to_bits_bits y n) as Hby.
  revert Heq Hbx Hby. generalize (int_to_bits x n) (int_to_bits y n).
  induction l as [|a l IH]; intros [|b l']; try done.
  cbn [map]. intros [= Hab Hrest] Ha Hb.
  inversion_clear Ha as [|? ? Ha1 Ha2]. inversion_clear Hb as [|? ? Hb1 Hb2].
  f_equal; [|by apply IH].
  destruct Ha1 as [-> | ->], Hb1 as [-> | ->]; done.
Qed.

Lemma basis_state_length n x : length (basis_state n x) = n.
Proof. unfold basis_state. by rewrite length_map, int_to_bits_length. Qed.

Lemma oracle_mask_length n items inp : length (oracle_mask n items inp) = n.
Proof.
  induction items as [|item rest IH]; simpl; [apply length_replicate|].
  case_decide; [|done]. rewrite length_zip_with, basis_state_length, IH. lia.
Qed.

Lemma xorb_lists_false_r (l : list bool) n :
  length l = n → zip_with xorb l (replicate n false) = l.
Proof.
  intros <-. induction l as [|b l IH]; [done|].
  simpl. by rewrite xorb_false_r, IH.
Qed.

Lemma xorb_lists_false_l (l : list bool) n :
  length l = n → zip_with xorb (replicate n false) l = l.
Proof. intros <-. induction l as [|b l IH]; [done|]. simpl. by rewrite IH. Qed.

Lemma xorb_lists_assoc (a : list bool) : ∀ b c,
  zip_with xorb (zip_with xorb a b) c = zip_with xorb a (zip_with xorb b c).
Proof.
  induction a as [|x a IH]; intros [|y b] [|z c]; try done.
  simpl. by rewrite xorb_assoc, IH.
Qed.

Lemma xorb_lists_nilpotent (a : list bool) :
  zip_with xorb a a = replicate (length a) false.
Proof. induction a as [|x a IH]; [done|]. simpl. by rewrite xorb_nilpotent, IH. Qed.

(** On a basis state the whole circuit leaves the input register alone and
    XORs the mask into the output register. *)
Lemma oracle_circuit_run n items : ∀ inp out,
  length inp = n → length out = n →
  run_gates (gates (build_oracle_circuit n items)) (inp ++ out) =
  inp ++ zip_with xorb out (oracle_mask n items inp).
Proof.
  cbn [build_oracle_circuit gates].
  induction items as [|[x fx] rest IH]; intros inp out Hinp Hout.
  - cbn [map concat run_gates fold_left oracle_mask].
    by rewrite xorb_lists_false_r.
  - cbn [map concat oracle_mask fst snd].
    rewrite run_gates_app, oracle_item_run by done.
    destruct (decide (inp = control_pattern (int_to_bits x n))) as [Hm | Hm].
    + rewrite IH; [|done|].
      * by rewrite xorb_lists_assoc.
      * rewrite length_zip_with, basis_state_length. lia.
    + by rewrite IH.
Qed.

Lemma oracle_mask_absent n items x :
  0 ≤ x < 2 ^ Z.of_nat n → Forall (fun it => 0 ≤ fst it < 2 ^ Z.of_nat n) items →
  x ∉ items.*1 → oracle_mask n items (basis_state n x) = replicate n false.
Proof.
  intros Hx. induction 1 as [|[x1 f1] rest Hx1 _ IH]; [done|].
  cbn [fmap list_fmap fst]. rewrite not_elem_of_cons. intros [Hne Hnot].
  cbn [oracle_mask fst snd]. rewrite control_pattern_basis.
  rewrite decide_False; [by apply IH|].
  intros Heq. apply Hne. by apply (basis_state_inj n).
Qed.

Lemma oracle_mask_present n items x fx :
  0 ≤ x < 2 ^ Z.of_nat n → Forall (fun it => 0 ≤ fst it < 2 ^ Z.of_nat n) items →
  NoDup items.*1 → (x, fx) ∈ items →
  oracle_mask n items (basis_state n x) = basis_state n fx.
Proof.
  intros Hx. induction 1 as [|[x1 f1] rest Hx1 Hrest IH]; [by intros _ ?%elem_of_nil|].
  cbn [fmap list_fmap fst]. rewrite NoDup_cons. intros [Hfresh Hnd] Hin.
  cbn [oracle_mask fst snd]. rewrite control_pattern_basis.
  apply elem_of_cons in Hin as [[= <- <-] | Hin].
  - rewrite decide_True by done.
    rewrite (oracle_mask_absent n rest x) by done.
    apply xorb_lists_false_r, basis_state_length.
  - rewrite decide_False; [by apply IH|].
    intros Heq. apply Hfresh. simpl in Hx1.
    rewrite <- (basis_state_inj n x x1 Hx Hx1 Heq).
    apply list_elem_of_fmap. by exists (x, fx).
Qed.

(** X5. On a computational basis state the oracle circuit implements
    [|x>|b> -> |x>|b XOR f(x)>]: with distinct n-bit keys, the input
    register keeps [x], and the output register is XORed with the bits of
    [f(x)] when [x] is a key and left alone otherwise. *)
Theorem oracle_circuit_computes n items x out :
  NoDup items.*1 → Forall (fun it => 0 ≤ fst it < 2 ^ Z.of_nat n) items →
  0 ≤ x < 2 ^ Z.of_nat n → length out = n →
  (∀ fx, (x, fx) ∈ items →
     run_gates (gates (build_oracle_circuit n items)) (basis_state n x ++ out) =
     basis_state n x ++ zip_with xorb out (basis_state n fx)) ∧
  (x ∉ items.*1 →
     run_gates (gates (build_oracle_circuit n items)) (basis_state n x ++ out) =
     basis_state n x ++ out).
Proof.
  intros Hnd Hkeys Hx Hout. split.
  - intros fx Hin.
    rewrite oracle_circuit_run by (done || apply basis_state_length).
    by rewrite (oracle_mask_present n items x fx).
  - intros Hnot.
    rewrite oracle_circuit_run by (done || apply basis_state_length).
    by rewrite oracle_mask_absent, xorb_lists_false_r.
Qed.

Lemma oracle_circuit_computes_witness :
  run_gates (gates (build_oracle_circuit 2 [(0, 0); (2, 0); (1, 1); (3, 1)]))
    (basis_state 2 3 ++ [false; false]) =
  basis_state 2 3 ++ zip_with xorb [false; false] (basis_state 2 1).
Proof.
  refine (proj1 (oracle_circuit_computes 2 [(0, 0); (2, 0); (1, 1); (3, 1)] 3
                   [false; false] _ _ _ _) 1 _).
  - cbn [fmap list_fmap fst].
    repeat (apply NoDup_cons; split; [rewrite ?elem_of_cons, elem_of_nil; lia|]).
    apply NoDup_nil_2.
  - repeat (apply Forall_cons; split; [simpl; lia|]). apply Forall_nil_2.
  - simpl. lia.
  - done.
  - rewrite !elem_of_cons. do 3 right. by left.
Defined.

(** X6. Whatever the items, the oracle circuit never changes the input
    register of a basis state, keeps the output register's width, and is
    its own inverse: running it twice restores the state. *)
Theorem oracle_circuit_involutive n items inp out :
  length inp = n → length out = n →
  (∃ out', length out' = n ∧
           run_gates (gates (build_oracle_circuit n items)) (inp ++ out) = inp ++ out') ∧
  run_gates (gates (build_oracle_circuit n items))
    (run_gates (gates (build_oracle_circuit n items)) (inp ++ out)) = inp ++ out.
Proof.
  intros Hinp Hout.
  pose proof (oracle_mask_length n items inp) as Hmask.
  assert (length (zip_with xorb out (oracle_mask n items inp)) = n) as Hlen
    by (rewrite length_zip_with; lia).
  split.
  - eexists. split; [exact Hlen|]. by apply oracle_circuit_run.
  - rewrite !oracle_circuit_run by done.
    rewrite xorb_lists_assoc, xorb_lists_nilpotent, Hmask.
    by rewrite xorb_lists_false_r.
Qed.

Lemma oracle_circuit_involutive_witness :
  (∃ out', length out' = 2%nat ∧
           run_gates (gates (build_oracle_circuit 2 [(0, 1); (1, 3)]))
             ([false; true] ++ [true; false]) = [false; true] ++ out') ∧
  run_gates (gates (build_oracle_circuit 2 [(0, 1); (1, 3)]))
    (run_gates (gates (build_oracle_circuit 2 [(0, 1); (1, 3)]))
       ([false; true] ++ [true; false])) = [false; true] ++ [true; false].
Proof.
  by apply (oracle_circuit_involutive 2 [(0, 1); (1, 3)] [false; true] [true; false]).
Defined.

(** The mapping returned by [build_simon_function] satisfies the loop
    invariant at the end of the range. *)
Lemma build_simon_function_inv n s_int m :
  0 ≤ s_int < 2 ^ Z.of_nat n →
  build_simon_function n s_int = Ok m →
  (∀ x, is_Some (m !! x) ↔ 0 ≤ x < 2 ^ Z.of_nat n) ∧
  (∀ x v, m !! x = Some v → m !! Z.lxor x s_int = Some v).
Proof.
  intros Hs. unfold build_simon_function. rewrite Z.shiftl_1_l.
  set (N := Z.to_nat (2 ^ Z.of_nat n)).
  assert (Z.of_nat N = 2 ^ Z.of_nat n) as HN by (unfold N; lia).
  assert (∀ z, 0 ≤ z < Z.of_nat N → 0 ≤ Z.lxor z s_int < Z.of_nat N) as Hclosed.
  { intros z Hz. rewrite HN in *. by apply lxor_range. }
  intros (st & Hloop & [= <-])%bind_Ok_inv.
  destruct (simon_loop_spec N s_int Hclosed N 0 _ ltac:(lia)
              (simon_inv_start N s_int Hclosed)) as (st' & Hloop' & Hinv).
  assert (st' = st) as -> by congruence.
  split.
  - intros x. rewrite (si_dom _ _ _ _ Hinv), HN. simpl. split; [by intros [? _]|].
    intros Hx. split; [done|]. left. lia.
  - apply (si_pair _ _ _ _ Hinv).
Qed.

(** X7. The oracle built from the items of [build_simon_function]'s
    mapping, in any order, sends [|x>|0>] to [|x>|f(x)>] for every n-bit
    [x], and maps [x] and [x XOR s_int] to the same output register. *)
Theorem oracle_of_simon_function n s_int m items x :
  0 ≤ s_int < 2 ^ Z.of_nat n →
  build_simon_function n s_int = Ok m →
  items ≡ₚ map_to_list m →
  0 ≤ x < 2 ^ Z.of_nat n →
  ∃ v, m !! x = Some v ∧
       run_gates (gates (build_oracle_circuit n items))
         (basis_state n x ++ replicate n false) =
       basis_state n x ++ basis_state n v ∧
       run_gates (gates (build_oracle_circuit n items))
         (basis_state n (Z.lxor x s_int) ++ replicate n false) =
       basis_state n (Z.lxor x s_int) ++ basis_state n v.
Proof.
  intros Hs Hm Hitems Hx.
  destruct (build_simon_function_inv n s_int m Hs Hm) as [Hdom Hpair].
  destruct (proj2 (Hdom x) Hx) as [v Hv]. exists v. split; [done|].
  assert (NoDup items.*1) as Hnd.
  { rewrite Hitems. apply NoDup_fst_map_to_list. }
  assert (Forall (fun it => 0 ≤ fst it < 2 ^ Z.of_nat n) items) as Hkeys.
  { apply Forall_forall. intros [k w] Hin. rewrite Hitems in Hin.
    apply elem_of_map_to_list in Hin. apply Hdom. by exists w. }
  assert (∀ z, 0 ≤ z < 2 ^ Z.of_nat n → m !! z = Some v →
          run_gates (gates (build_oracle_circuit n items))
            (basis_state n z ++ replicate n false) =
          basis_state n z ++ basis_state n v) as Hrun.
  { intros z Hz Hzv.
    rewrite oracle_circuit_run by (apply basis_state_length || apply length_replicate).
    rewrite (oracle_mask_present n items z v); [| done | done | done |].
    - by rewrite xorb_lists_false_l by apply basis_state_length.
    - rewrite Hitems. by apply elem_of_map_to_list. }
  split; [by apply Hrun|].
  apply Hrun; [by apply lxor_range | by apply Hpair].
Qed.

Lemma oracle_of_simon_function_witness :
  ∃ m, build_simon_function 2 2 = Ok m ∧
  ∃ v, m !! 1 = Some v ∧
       run_gates (gates (build_oracle_circuit 2 (map_to_list m)))
         (basis_state 2 1 ++ replicate 2 false) =
       basis_state 2 1 ++ basis_state 2 v ∧
       run_gates (gates (build_oracle_circuit 2 (map_to_list m)))
         (basis_state 2 (Z.lxor 1 2) ++ replicate 2 false) =
       basis_state 2 (Z.lxor 1 2) ++ basis_state 2 v.
Proof.
  eexists. split; [reflexivity|].
  apply (oracle_of_simon_function 2 2); [simpl; lia | reflexivity | done | simpl; lia].
Defined.

(** ** The solver beyond well-formed input *)

Lemma back_substitute_length n A : ∀ rows s s',
  back_substitute n A rows s = Ok s' → length s' = length s.
Proof.
  induction rows as [|i rest IH]; intros s s'; [by intros [= <-]|].
  cbn [back_substitute].
  intros (row & _ & (p & _ & Hrest)%bind_Ok_inv)%bind_Ok_inv.
  destruct p as [pivot_col|]; [|by apply IH].
  apply bind_Ok_inv in Hrest as (rhs & _ & Hrest).
  apply IH in Hrest. by rewrite length_insert in Hrest.
Qed.

(** X8. Whatever the strings, an integer returned by the solver is an
    n-bit value. *)
Theorem solver_answer_range n ms s :
  solve_for_s_from_measurements n ms = Ok (Some s) → 0 ≤ s < 2 ^ Z.of_nat n.
Proof.
  unfold solve_for_s_from_measurements.
  intros ([st|] & _ & Hv)%bind_Ok_inv; [|done].
  apply bind_Ok_inv in Hv as (s_int & Hv & [= ->]).
  assert (0 < 2 ^ Z.of_nat n) as Hpos by lia.
  unfold nullspace_vector in Hv.
  destruct (decide (es_rank st = n)); [injection Hv as <-; lia|].
  destruct (filter _ (seq 0 n)) as [|free_choice ?]; [injection Hv as <-; lia|].
  apply bind_Ok_inv in Hv as (s' & Hs' & [= <-]).
  apply back_substitute_length in Hs'.
  rewrite length_insert, length_replicate in Hs'.
  pose proof (bits_to_int_range s') as Hrange. by rewrite Hs' in Hrange.
Qed.

Lemma solver_answer_range_witness : 0 ≤ 13 < 2 ^ Z.of_nat 4.
Proof. apply (solver_answer_range 4 ["0010"; "0111"; "1001"]%string 13). reflexivity. Defined.

Lemma solver_rank_reduction n ms k :
  solver_rank n ms = Ok (Some k) →
  ∃ st, solver_reduction n ms = Ok (Some st) ∧ es_rank st = k.
Proof.
  unfold solver_rank. intros ([st|] & Hred & [= <-])%bind_Ok_inv. by exists st.
Qed.

Lemma orth_measurements ms t :
  orth t (map bits_of ms) ↔ ∀ y, y ∈ ms → dot (bits_of y) t = 0.
Proof. unfold orth. by rewrite Forall_map, Forall_forall. Qed.

Lemma int_to_bits_nonzero n t :
  0 < t < 2 ^ Z.of_nat n → int_to_bits t n ≠ replicate n 0.
Proof.
  intros Ht Hz. pose proof (bits_to_int_to_bits n t ltac:(lia)) as Hround.
  rewrite Hz, bits_to_int_replicate in Hround. lia.
Qed.

(** X9. With n-1 pivots the solver returns the hidden string: every
    non-zero n-bit [t] orthogonal to all the measurements is its answer. *)
Theorem solver_recovers_at_rank n ms t :
  (0 < n)%nat → ms ≠ [] → Forall (bitstring n) ms →
  solver_rank n ms = Ok (Some (n - 1)%nat) →
  0 < t < 2 ^ Z.of_nat n →
  (∀ y, y ∈ ms → dot (bits_of y) (int_to_bits t n) = 0) →
  solve_for_s_from_measurements n ms = Ok (Some t).
Proof.
  intros Hn Hms Hbits Hrank Ht Horth.
  destruct (solver_reduction_spec n ms Hn Hms Hbits) as (st & Hred & Hech & Hrtc).
  destruct (solver_rank_reduction n ms _ Hrank) as (st' & Hred' & Hrk).
  assert (st' = st) as -> by congruence.
  destruct (bitstrings_rows n ms Hbits) as [_ HA].
  unfold solve_for_s_from_measurements. rewrite Hred. cbn [mbind result_bind].
  rewrite (nullspace_unique n _ st Hech (int_to_bits t n)).
  - cbn [mbind result_bind]. by rewrite bits_to_int_to_bits by lia.
  - lia.
  - apply int_to_bits_bitvec.
  - apply (rtc_row_op_orth _ _ _ _ _ Hrtc HA). by apply orth_measurements.
  - by apply int_to_bits_nonzero.
Qed.

Lemma solver_recovers_at_rank_witness :
  solve_for_s_from_measurements 4 ["0010"; "0111"; "1001"]%string = Ok (Some 13).
Proof.
  apply (solver_recovers_at_rank 4 ["0010"; "0111"; "1001"]%string 13).
  - lia.
  - done.
  - bitstrings.
  - reflexivity.
  - simpl. lia.
  - intros y Hy. rewrite !elem_of_cons, elem_of_nil in Hy.
    destruct Hy as [-> | [-> | [-> | []]]]; reflexivity.
Defined.

(** The vector that back-substitution builds from a free column [f]. *)
Lemma free_column_vector n r st f :
  echelon n r n st → (f < n)%nat → f ∉ es_pivot_cols st →
  ∃ s', back_substitute n (es_A st) (rev (seq 0 (es_rank st)))
          (<[f := 1]> (replicate n 0)) = Ok s' ∧
        bitvec n s' ∧ orth s' (es_A st) ∧ s' !! f = Some 1 ∧
        (∀ j, (j < n)%nat → j ∉ es_pivot_cols st → j ≠ f → s' !! j = Some 0).
Proof.
  intros Hech Hf Hfree.
  assert (bitvec n (<[f := 1]> (replicate n 0))) as Hs0.
  { split; [by rewrite length_insert, length_replicate|].
    apply Forall_insert; [|by right]. apply Forall_replicate. by left. }
  destruct (back_substitute_spec n r st Hech (es_rank st) _ ltac:(lia) Hs0)
    as (s' & Hs' & Hbv' & Hoff & Hdot).
  exists s'. split; [done|]. split; [done|].
  rewrite take_ge in Hoff by (rewrite (ech_len _ _ _ _ Hech); lia).
  split.
  { apply orth_lookup. intros i row Hrow.
    destruct (bitmatrix_row _ _ _ _ _ (ech_wf _ _ _ _ Hech) Hrow) as [Hbv Hir].
    destruct (decide (i < es_rank st)%nat) as [Hi | Hi].
    - apply (Hdot i); [done | done | by left].
    - apply (zero_row_dot n); [done|]. intros q Hq.
      apply (ech_low _ _ _ _ Hech i); [lia | done | done]. }
  split.
  - rewrite Hoff by done. apply list_lookup_insert_eq. by rewrite length_replicate.
  - intros j Hj Hnot Hjf. rewrite Hoff by done.
    rewrite list_lookup_insert_ne by done. by apply lookup_replicate_2.
Qed.

(** Two short of full rank there are two free columns. *)
Lemma echelon_second_free_col n r st f :
  echelon n r n st → (es_rank st + 2 ≤ n)%nat →
  ∃ f2, (f2 < n)%nat ∧ (f2 ∉ es_pivot_cols st) ∧ f2 ≠ f.
Proof.
  intros Hech Hrank.
  destruct (filter (fun col => col ∉ f :: es_pivot_cols st) (seq 0 n))
    as [|f2 rest] eqn:Hfilter.
  - exfalso.
    assert (length (seq 0 n) ≤ length (f :: es_pivot_cols st))%nat as Hge.
    { apply submseteq_length, NoDup_submseteq; [apply NoDup_seq|].
      intros c Hc. destruct (decide (c ∈ f :: es_pivot_cols st)) as [|Hnot]; [done|].
      assert (c ∈ filter (fun col => col ∉ f :: es_pivot_cols st) (seq 0 n)) as Hin
        by (by apply list_elem_of_filter).
      rewrite Hfilter in Hin. by apply elem_of_nil in Hin. }
    rewrite length_seq in Hge. simpl in Hge.
    rewrite (ech_len _ _ _ _ Hech) in Hge. lia.
  - assert (f2 ∈ filter (fun col => col ∉ f :: es_pivot_cols st) (seq 0 n)) as Hin
      by (rewrite Hfilter; left).
    apply list_elem_of_filter in Hin as [Hnot Hin]. apply elem_of_seq in Hin.
    apply not_elem_of_cons in Hnot as [Hne Hnot].
    exists f2. split; [lia|]. done.
Qed.

(** X10. Two or more pivots short of full rank, the solver's answer is
    not forced by the measurements: another non-zero n-bit vector is
    orthogonal to all of them. *)
Theorem solver_ambiguous_below_rank n ms k :
  (0 < n)%nat → ms ≠ [] → Forall (bitstring n) ms →
  solver_rank n ms = Ok (Some k) → (k + 2 ≤ n)%nat →
  ∃ s t, solve_for_s_from_measurements n ms = Ok (Some s) ∧
         0 < t < 2 ^ Z.of_nat n ∧ t ≠ s ∧
         (∀ y, y ∈ ms → dot (bits_of y) (int_to_bits s n) = 0) ∧
         (∀ y, y ∈ ms → dot (bits_of y) (int_to_bits t n) = 0).
Proof.
  intros Hn Hms Hbits Hrank Hk.
  destruct (solver_reduction_spec n ms Hn Hms Hbits) as (st & Hred & Hech & Hrtc).
  destruct (solver_rank_reduction n ms _ Hrank) as (st' & Hred' & Hrk).
  assert (st' = st) as -> by congruence. subst k.
  destruct (bitstrings_rows n ms Hbits) as [_ HA].
  destruct (nullspace_vector_spec n _ st Hech ltac:(lia))
    as (s1 & f & Hs1 & Hbv1 & Ho1 & Hf & Hfree & Hone & _).
  destruct (echelon_second_free_col n _ st f Hech Hk) as (f2 & Hf2 & Hfree2 & Hne).
  destruct (free_column_vector n _ st f2 Hech Hf2 Hfree2)
    as (s2 & _ & Hbv2 & Ho2 & Hone2 & Hzero2).
  exists (bits_to_int s1), (bits_to_int s2).
  unfold solve_for_s_from_measurements. rewrite Hred. cbn [mbind result_bind].
  rewrite Hs1. cbn [mbind result_bind]. split; [done|].
  split; [by apply (bitvec_nonzero_int n s2 f2)|].
  destruct Hbv1 as [Hlen1 Hbits1]. destruct Hbv2 as [Hlen2 Hbits2].
  split.
  { intros Heq.
    assert (s2 = s1) as ->.
    { rewrite <- (int_to_bits_to_int s2), <- (int_to_bits_to_int s1) by done.
      by rewrite Heq, Hlen1, Hlen2. }
    rewrite (Hzero2 f Hf Hfree) in Hone by done. done. }
  split.
  - apply orth_measurements. rewrite <- Hlen1, int_to_bits_to_int by done.
    by apply (rtc_row_op_orth _ _ _ _ _ Hrtc HA).
  - apply orth_measurements. rewrite <- Hlen2, int_to_bits_to_int by done.
    by apply (rtc_row_op_orth _ _ _ _ _ Hrtc HA).
Qed.

Lemma solver_ambiguous_below_rank_witness :
  ∃ s t, solve_for_s_from_measurements 3 ["011"]%string = Ok (Some s) ∧
         0 < t < 2 ^ Z.of_nat 3 ∧ t ≠ s ∧
         (∀ y, y ∈ ["011"]%string → dot (bits_of y) (int_to_bits s 3) = 0) ∧
         (∀ y, y ∈ ["011"]%string → dot (bits_of y) (int_to_bits t 3) = 0).
Proof.
  apply (solver_ambiguous_below_rank 3 ["011"]%string 1).
  - lia.
  - done.
  - bitstrings.
  - reflexivity.
  - lia.
Defined.

(** ** Malformed measurement strings *)

Lemma mapM_raise_kind {A B} (f : A → result B) e l :
  Forall (fun a => ∀ e', f a = Raise e' → e' = e) l →
  ∀ e', mapM f l = Raise e' → e' = e.
Proof.
  induction 1 as [|a l Ha _ IH]; intros e'; [done|].
  cbn [mapM]. destruct (f a) as [b | e0] eqn:Hfa; cbn [mbind result_bind].
  - destruct (mapM f l) as [bs | e1]; cbn [mbind result_bind]; [done|].
    intros [= <-]. by apply IH.
  - intros [= <-]. by apply Ha.
Qed.

Lemma mapM_raise {A B} (f : A → result B) e l :
  Exists (fun a => f a = Raise e) l →
  Forall (fun a => ∀ e', f a = Raise e' → e' = e) l →
  mapM f l = Raise e.
Proof.
  induction l as [|a l IH]; intros Hex Hkind; [by inversion Hex|].
  apply Forall_cons in Hkind as [Ha Hl]. cbn [mapM].
  destruct (f a) as [b | e0] eqn:Hfa; cbn [mbind result_bind].
  - rewrite IH; [done | | done].
    apply Exists_cons in Hex as [Hh | Ht]; [congruence | done].
  - f_equal. by apply Ha.
Qed.

Lemma int_of_char_raise_kind ch e : int_of_char ch = Raise e → e = ValueError.
Proof. unfold int_of_char. case_decide; congruence. Qed.

Lemma row_of_string_raise_kind m e : row_of_string m = Raise e → e = ValueError.
Proof.
  apply mapM_raise_kind, Forall_forall. intros ch _ e'. apply int_of_char_raise_kind.
Qed.

Lemma rows_of_strings_non_digit ms :
  Exists (fun m => Exists ascii_non_digit (chars m)) ms →
  mapM row_of_string ms = Raise ValueError.
Proof.
  intros Hex. apply mapM_raise.
  - eapply Exists_impl; [exact Hex|]. intros m Hm. apply mapM_raise.
    + eapply Exists_impl; [exact Hm|]. intros ch [_ Hch].
      unfold int_of_char. by rewrite decide_False.
    + apply Forall_forall. intros ch _ e'. apply int_of_char_raise_kind.
  - apply Forall_forall. intros m _ e'. apply row_of_string_raise_kind.
Qed.

Lemma chars_zeros n : chars (zeros n) = replicate n "0"%char.
Proof. induction n as [|n IH]; [done|]. simpl. by rewrite IH. Qed.

(** X11. An ASCII character other than '0'..'9' anywhere in the input
    makes the solver, the rank check and the validating front end raise
    [ValueError]. *)
Theorem non_digit_raises n ms :
  Exists (fun m => Exists ascii_non_digit (chars m)) ms →
  solve_for_s_from_measurements n ms = Raise ValueError ∧
  check_linear_independence ms n = Raise ValueError ∧
  solve_for_s_enhanced n ms = Raise ValueError.
Proof.
  intros Hex. split; [|split].
  - unfold solve_for_s_from_measurements, solver_reduction.
    by rewrite rows_of_strings_non_digit.
  - unfold check_linear_independence. destruct ms as [|m ms]; [by inversion Hex|].
    by rewrite rows_of_strings_non_digit.
  - assert (Exists (fun m => Exists ascii_non_digit (chars m))
              (useful_measurements n ms)) as Hex'.
    { apply Exists_exists in Hex as (m & Hin & Hm). apply Exists_exists.
      exists m. split; [|done]. apply list_elem_of_filter. split; [|done].
      intros ->. rewrite chars_zeros in Hm.
      apply Exists_exists in Hm as (ch & Hch & Hbad).
      apply elem_of_replicate in Hch as [-> _]. destruct Hbad as [_ Hbad].
      apply Hbad. change (48 ≤ 48 ≤ 57). lia. }
    rewrite solve_for_s_enhanced_unfold by (intros Hnil; rewrite Hnil in Hex'; inversion Hex').
    unfold check_linear_independence.
    destruct (useful_measurements n ms) as [|m' ms'] eqn:Huse; [by inversion Hex'|].
    by rewrite rows_of_strings_non_digit.
Qed.

Lemma non_digit_raises_witness :
  solve_for_s_from_measurements 3 ["011"; "1x0"]%string = Raise ValueError ∧
  check_linear_independence ["011"; "1x0"]%string 3 = Raise ValueError ∧
  solve_for_s_enhanced 3 ["011"; "1x0"]%string = Raise ValueError.
Proof.
  apply (non_digit_raises 3 ["011"; "1x0"]%string).
  apply Exists_cons_tl, Exists_cons_hd. simpl.
  apply Exists_cons_tl, Exists_cons_hd. change (120 < 128 ∧ ¬ (48 ≤ 120 ≤ 57)). lia.
Defined.

(** ** Strings narrower than n *)

Lemma compute_rhs_short row s c n :
  length row = c → length s = n →
  ∀ m a acc, (a ≤ c < a + m)%nat → (a + m ≤ n)%nat →
  compute_rhs row s (seq a m) acc = Raise IndexError.
Proof.
  intros Hrow Hs. induction m as [|m IH]; intros a acc Hc Hn; [lia|].
  cbn [seq compute_rhs]. destruct (decide (a = c)) as [-> | Hne].
  - by rewrite (lookup_ge_None_2 row c) by lia.
  - destruct (lookup_lt_is_Some_2 row a) as [x ->]; [lia|].
    destruct (lookup_lt_is_Some_2 s a) as [y ->]; [lia|].
    apply IH; lia.
Qed.

(** X12. On a non-empty list of bit strings of one width [c] with
    [0 < c < n] the solver raises [IndexError]: either the column scan
    or the back-substitution reads column [c]. *)
Theorem short_rows_raise n c ms :
  (0 < c < n)%nat → ms ≠ [] → Forall (bitstring c) ms →
  solve_for_s_from_measurements n ms = Raise IndexError.
Proof.
  intros Hc Hms Hbits.
  destruct (bitstrings_rows c ms Hbits) as [Hparse HA].
  assert (0 < length ms)%nat as Hr by (destruct ms; [done | simpl; lia]).
  unfold solve_for_s_from_measurements, solver_reduction.
  rewrite Hparse. cbn [mbind result_bind].
  rewrite (np_array_bitmatrix _ _ _ HA). cbn [mbind result_bind].
  rewrite (shape_bitmatrix _ _ _ HA Hr). cbv beta iota zeta.
  destruct (decide ((length ms * c)%nat = 0%nat)) as [Hz | _]; [nia|].
  destruct (decide (length ms = 0%nat)) as [Hz | _]; [lia|].
  set (r := length ms) in *.
  destruct (forward_elimination_spec c r c 0 (elim_start (map bits_of ms)))
    as (st & Hst & Hech & _ & _); [lia | by apply echelon_start |].
  simpl in Hech.
  replace n with (c + S (n - S c))%nat at 1 by lia.
  rewrite seq_app, forward_elimination_app, Hst. cbn [mbind result_bind].
  change (0 + c)%nat with c.
  pose proof (ech_rank _ _ _ _ Hech) as Hrank.
  pose proof (echelon_rank_le _ _ _ _ Hech) as Hrankc.
  destruct (decide (es_rank st = r)) as [Hfull | Hless].
  - rewrite forward_elimination_full by done. cbn [mbind result_bind].
    unfold nullspace_vector. rewrite decide_False by lia. cbv zeta.
    destruct (filter _ (seq 0 n)) as [|f rest] eqn:Hfilter.
    { exfalso.
      assert (c ∈ filter (fun col => col ∉ es_pivot_cols st) (seq 0 n)) as Hin.
      { apply list_elem_of_filter. split; [|apply elem_of_seq; lia].
        intros Hin.
        pose proof (proj1 (Forall_forall _ _) (ech_lt _ _ _ _ Hech) c Hin). simpl in *. lia. }
      rewrite Hfilter in Hin. by apply elem_of_nil in Hin. }
    destruct (es_rank st) as [|k] eqn:Hk; [lia|].
    rewrite seq_S, rev_unit. change (0 + k)%nat with k. cbn [back_substitute].
    destruct (pivot_row c r st Hech k) as (p & row & Hp & Hrow & Hpc & Hbv & Hlead); [lia|].
    rewrite (getrow_ok _ _ _ Hrow). cbn [mbind result_bind].
    rewrite (first_one_spec c row p) by (done || lia). cbn [mbind result_bind].
    rewrite (compute_rhs_short row _ c n); [done | by destruct Hbv | | lia | lia].
    by rewrite length_insert, length_replicate.
  - cbn [seq]. rewrite forward_elimination_cons.
    replace (r - es_rank st)%nat with (S (r - S (es_rank st))) by lia.
    cbn [seq find_pivot].
    destruct (bitmatrix_lookup r c (es_A st) (es_rank st) (ech_wf _ _ _ _ Hech))
      as (row & Hrow & [Hlen _]); [lia|].
    unfold getitem2. rewrite Hrow.
    by rewrite (lookup_ge_None_2 row c) by lia.
Qed.

Lemma short_rows_raise_witness :
  solve_for_s_from_measurements 3 ["01"; "11"]%string = Raise IndexError.
Proof.
  apply (short_rows_raise 3 2 ["01"; "11"]%string); [lia | done | bitstrings].
Defined.

(** ** The validating front end on bit strings *)

Lemma int_to_bits_zero n : int_to_bits 0 n = replicate n 0.
Proof.
  rewrite <- (bits_to_int_replicate n) at 1.
  rewrite <- (length_replicate n 0) at 2.
  apply int_to_bits_to_int, Forall_replicate. by left.
Qed.

Lemma bitstring_width_zero ms :
  Forall (bitstring 0) ms → Forall (fun m => m = zeros 0) ms.
Proof.
  intros Hms. eapply Forall_impl; [exact Hms|].
  intros m [Hlen _]. destruct m; [done | simpl in Hlen; lia].
Qed.

(** Orthogonality to the filtered list is orthogonality to the whole list. *)
Lemma orth_useful n ms t :
  length t = n →
  (∀ y, y ∈ useful_measurements n ms → dot (bits_of y) t = 0) →
  ∀ y, y ∈ ms → dot (bits_of y) t = 0.
Proof.
  intros Hlen Huse y Hy. destruct (decide (y = zeros n)) as [-> | Hne].
  - rewrite bits_of_zeros. apply dot_zero_l.
  - apply Huse. by apply list_elem_of_filter.
Qed.

(** What the front end does once the filtered list is non-empty, in terms
    of the two pivot counts. *)
Lemma solve_for_s_enhanced_cases n ms :
  (0 < n)%nat → Forall (bitstring n) ms → useful_measurements n ms ≠ [] →
  ∃ st_c st_s s,
    echelon n (length (useful_measurements n ms)) n st_s ∧
    rtc row_op (map bits_of (useful_measurements n ms)) (es_A st_s) ∧
    (es_rank st_c ≤ es_rank st_s)%nat ∧
    solver_reduction n (useful_measurements n ms) = Ok (Some st_s) ∧
    solve_for_s_from_measurements n (useful_measurements n ms) = Ok (Some s) ∧
    (s = 0 ↔ es_rank st_s = n) ∧
    (es_rank st_s ≠ n →
       0 < s < 2 ^ Z.of_nat n ∧
       orth (int_to_bits s n) (map bits_of (useful_measurements n ms))) ∧
    solve_for_s_enhanced n ms =
      if decide (Z.of_nat (es_rank st_c) < Z.of_nat n - 1)
      then Ok (None, Insufficient (Z.of_nat (es_rank st_c)) (Z.of_nat n - 1))
      else Ok (Some s, Success).
Proof.
  intros Hn Hbits Huse.
  pose proof (useful_measurements_bitstring n ms Hbits) as Hubits.
  destruct (check_below_solver n _ Hn Huse Hubits)
    as (st_c & st_s & Hc & Hred & Hech & Hrtc & Hle & _).
  destruct (solve_for_s_from_measurements_spec n _ Hn Huse Hubits)
    as (st_s' & s & Hred' & _ & _ & Hsolve & Hzero & Hnz).
  assert (st_s' = st_s) as -> by congruence.
  exists st_c, st_s, s. do 7 (split; [done|]).
  rewrite solve_for_s_enhanced_unfold, Hc by done. cbn [mbind result_bind].
  destruct (decide (Z.of_nat (es_rank st_c) < Z.of_nat n - 1)) as [Hlow | Hlow].
  - rewrite (bool_decide_eq_false_2 (_ >= _)) by lia.
    by rewrite (bool_decide_eq_true_2 (_ < _)) by lia.
  - rewrite (bool_decide_eq_false_2 (_ < _)) by lia. rewrite andb_false_r.
    by rewrite Hsolve.
Qed.

(** X13. On strings of n bits the validating front end never raises; it
    reports [Success] exactly when it returns a vector, and a returned
    vector is an n-bit integer orthogonal to every measurement, the
    filtered all-zero ones included. *)
Theorem solve_for_s_enhanced_total n ms :
  Forall (bitstring n) ms →
  ∃ found why,
    solve_for_s_enhanced n ms = Ok (found, why) ∧
    (why = Success ↔ is_Some found) ∧
    (∀ s, found = Some s →
          0 ≤ s < 2 ^ Z.of_nat n ∧
          ∀ y, y ∈ ms → dot (bits_of y) (int_to_bits s n) = 0).
Proof.
  intros Hbits.
  assert (∀ why, why ≠ Success →
          (why = Success ↔ is_Some (@None Z)) ∧
          (∀ s, @None Z = Some s →
                0 ≤ s < 2 ^ Z.of_nat n ∧
                ∀ y, y ∈ ms → dot (bits_of y) (int_to_bits s n) = 0)) as Hnone.
  { intros why Hwhy. split; [|done]. split; [done | by intros [? ?]]. }
  destruct (decide (useful_measurements n ms = [])) as [Hnil | Huse].
  { unfold solve_for_s_enhanced. destruct ms as [|m ms'].
    - exists None, NoMeasurements. split; [done|]. by apply Hnone.
    - rewrite Hnil. exists None, AllUninformative. split; [done|]. by apply Hnone. }
  destruct n as [|n'].
  { exfalso. apply Huse, useful_measurements_zeros. by apply bitstring_width_zero. }
  set (n := S n') in *.
  destruct (solve_for_s_enhanced_cases n ms ltac:(lia) Hbits Huse)
    as (st_c & st_s & s & Hech & Hrtc & Hle & _ & _ & Hzero & Hnz & ->).
  destruct (decide (Z.of_nat (es_rank st_c) < Z.of_nat n - 1)) as [Hlow | Hlow].
  { eexists None, _. split; [done|]. by apply Hnone. }
  exists (Some s), Success. split; [done|]. split; [done|].
  intros s' [= <-].
  destruct (decide (es_rank st_s = n)) as [Hfull | Hless].
  - apply Hzero in Hfull as ->. split; [lia|].
    intros y _. rewrite int_to_bits_zero. apply dot_zero_r.
  - destruct (Hnz Hless) as [Hs Horth]. split; [lia|].
    apply (orth_useful n); [apply int_to_bits_length|].
    by apply orth_measurements.
Qed.

Lemma solve_for_s_enhanced_total_witness :
  ∃ found why,
    solve_for_s_enhanced 4 ["0010"; "0000"; "0111"; "1001"]%string = Ok (found, why) ∧
    (why = Success ↔ is_Some found) ∧
    (∀ s, found = Some s →
          0 ≤ s < 2 ^ Z.of_nat 4 ∧
          ∀ y, y ∈ ["0010"; "0000"; "0111"; "1001"]%string →
               dot (bits_of y) (int_to_bits s 4) = 0).
Proof.
  apply (solve_for_s_enhanced_total 4 ["0010"; "0000"; "0111"; "1001"]%string).
  bitstrings.
Defined.

(** X14. A vector returned by the front end on n-bit strings is
    determined by the measurements: the n-bit vectors orthogonal to all of
    them are exactly 0 and the returned one. *)
Theorem solve_for_s_enhanced_determined n ms s why t :
  Forall (bitstring n) ms →
  solve_for_s_enhanced n ms = Ok (Some s, why) →
  0 ≤ t < 2 ^ Z.of_nat n →
  ((∀ y, y ∈ ms → dot (bits_of y) (int_to_bits t n) = 0) ↔ t = 0 ∨ t = s).
Proof.
  intros Hbits Hrun Ht.
  destruct (decide (useful_measurements n ms = [])) as [Hnil | Huse].
  { unfold solve_for_s_enhanced in Hrun. destruct ms as [|m ms']; [done|].
    by rewrite Hnil in Hrun. }
  destruct n as [|n'].
  { exfalso. apply Huse, useful_measurements_zeros. by apply bitstring_width_zero. }
  set (n := S n') in *.
  destruct (solve_for_s_enhanced_cases n ms ltac:(lia) Hbits Huse)
    as (st_c & st_s & s' & Hech & Hrtc & Hle & Hred & Hsolve & Hzero & Hnz & Hrun').
  rewrite Hrun in Hrun'.
  destruct (decide (Z.of_nat (es_rank st_c) < Z.of_nat n - 1)) as [Hlow | Hlow]; [done|].
  injection Hrun' as <- _.
  pose proof (useful_measurements_bitstring n ms Hbits) as Hubits.
  destruct (bitstrings_rows n _ Hubits) as [_ HA].
  pose proof (echelon_rank_le _ _ _ _ Hech) as Hrk.
  split.
  - intros Horth. destruct (decide (t = 0)) as [|Hne]; [by left | right].
    assert (orth (int_to_bits t n) (es_A st_s)) as Ho.
    { apply (rtc_row_op_orth _ _ _ _ _ Hrtc HA). apply orth_measurements.
      intros y Hy. apply Horth. by apply list_elem_of_filter in Hy as [_ ?]. }
    assert (int_to_bits t n ≠ replicate n 0) as Hnz'
      by (apply int_to_bits_nonzero; lia).
    destruct (decide (es_rank st_s = n)) as [Hfull | Hless].
    { exfalso. apply Hnz'.
      apply (full_rank_trivial n _ st_s Hech); [done | apply int_to_bits_bitvec | done]. }
    pose proof (nullspace_unique n _ st_s Hech (int_to_bits t n) ltac:(lia)
                  (int_to_bits_bitvec t n) Ho Hnz') as Hv.
    unfold solve_for_s_from_measurements in Hsolve. rewrite Hred in Hsolve.
    cbn [mbind result_bind] in Hsolve. rewrite Hv in Hsolve.
    cbn [mbind result_bind] in Hsolve.
    rewrite bits_to_int_to_bits in Hsolve by lia. congruence.
  - intros [-> | ->].
    + intros y _. rewrite int_to_bits_zero. apply dot_zero_r.
    + destruct (decide (es_rank st_s = n)) as [Hfull | Hless].
      * apply Hzero in Hfull as ->. intros y _.
        rewrite int_to_bits_zero. apply dot_zero_r.
      * destruct (Hnz Hless) as [_ Horth].
        apply (orth_useful n); [apply int_to_bits_length|].
        by apply orth_measurements.
Qed.

Lemma solve_for_s_enhanced_determined_witness :
  (∀ y, y ∈ ["0010"; "0111"; "1001"]%string →
        dot (bits_of y) (int_to_bits 13 4) = 0) ↔ 13 = 0 ∨ 13 = 13.
Proof.
  apply (solve_for_s_enhanced_determined 4 ["0010"; "0111"; "1001"]%string 13 Success 13).
  - bitstrings.
  - reflexivity.
  - simpl. lia.
Defined.

(** ** The rank check *)

(** X15. On a non-empty list of n-bit strings the rank check returns a
    rank between 0 and [min(n, r)] that never exceeds the solver's pivot
    count, and equals it once there are at least n rows; the flag is
    [rank >= n - 1]. *)
Theorem checked_rank_bounds n vs :
  (0 < n)%nat → vs ≠ [] → Forall (bitstring n) vs →
  ∃ rank k,
    check_linear_independence vs n = Ok (bool_decide (rank >= Z.of_nat n - 1), rank) ∧
    solver_rank n vs = Ok (Some k) ∧
    0 ≤ rank ≤ Z.of_nat (n `min` length vs) ∧
    rank ≤ Z.of_nat k ∧
    (k ≤ n `min` length vs)%nat ∧
    ((n ≤ length vs)%nat → rank = Z.of_nat k).
Proof.
  intros Hn Hvs Hbits.
  destruct (check_linear_independence_spec n vs Hvs Hbits)
    as (st_c & _ & Hechc & _ & Hc).
  destruct (check_below_solver n vs Hn Hvs Hbits)
    as (st_c' & st_s & Hc' & Hred & Hechs & _ & Hle & Heq).
  rewrite Hc in Hc'. injection Hc' as _ Hsame. apply Nat2Z.inj in Hsame.
  exists (Z.of_nat (es_rank st_c)), (es_rank st_s).
  split; [done|]. unfold solver_rank. rewrite Hred. cbn [mbind result_bind].
  split; [done|].
  pose proof (echelon_rank_le _ _ _ _ Hechc).
  pose proof (echelon_rank_le _ _ _ _ Hechs).
  pose proof (ech_rank _ _ _ _ Hechs).
  split; [lia|]. split; [lia|]. split; [lia|].
  intros Hge. rewrite Hsame. by rewrite (Heq Hge).
Qed.

Lemma checked_rank_bounds_witness :
  ∃ rank k,
    check_linear_independence ["0010"; "0111"]%string 4 =
      Ok (bool_decide (rank >= Z.of_nat 4 - 1), rank) ∧
    solver_rank 4 ["0010"; "0111"]%string = Ok (Some k) ∧
    0 ≤ rank ≤ Z.of_nat (4 `min` length ["0010"; "0111"]%string) ∧
    rank ≤ Z.of_nat k ∧
    (k ≤ 4 `min` length ["0010"; "0111"]%string)%nat ∧
    ((4 ≤ length ["0010"; "0111"]%string)%nat → rank = Z.of_nat k).
Proof.
  apply (checked_rank_bounds 4 ["0010"; "0111"]%string); [lia | done | bitstrings].
Defined.

(** X16. Appending any n-bit strings to the input of the rank check never
    lowers the reported rank and never turns the flag off. *)
Theorem checked_rank_append n vs ws :
  Forall (bitstring n) vs → Forall (bitstring n) ws →
  ∃ b rank b' rank',
    check_linear_independence vs n = Ok (b, rank) ∧
    check_linear_independence (vs ++ ws) n = Ok (b', rank') ∧
    rank ≤ rank' ∧ (b = true → b' = true).
Proof.
  intros Hvs. induction ws as [|w ws IH] using rev_ind; intros Hws.
  - destruct (check_rank_monotone n vs (zeros n) Hvs (zeros_bitstring n))
      as (b & rk & _ & _ & Hc & _ & _).
    exists b, rk, b, rk. rewrite app_nil_r. done.
  - apply Forall_app in Hws as [Hws Hw]. rewrite Forall_singleton in Hw.
    destruct (IH Hws) as (b & rk & b1 & rk1 & Hc & Hc1 & Hle & Hflag).
    destruct (check_rank_monotone n (vs ++ ws) w) as (b1' & rk1' & b2 & rk2 & Hc1' & Hc2 & Hle2);
      [by apply Forall_app | done |].
    rewrite Hc1 in Hc1'. injection Hc1' as <- <-.
    exists b, rk, b2, rk2. rewrite app_assoc. split; [done|]. split; [done|].
    split; [lia|]. intros Hb. specialize (Hflag Hb). subst b1.
    assert (vs ++ ws ≠ []) as Hne1.
    { intros Hnil. rewrite Hnil in Hc1. simpl in Hc1. congruence. }
    apply check_linear_independence_flag in Hc1; [|done].
    apply check_linear_independence_flag in Hc2; [|by destruct (vs ++ ws)].
    symmetry in Hc1. apply bool_decide_eq_true in Hc1.
    rewrite Hc2. apply bool_decide_eq_true. lia.
Qed.

Lemma checked_rank_append_witness :
  ∃ b rank b' rank',
    check_linear_independence ["0010"]%string 4 = Ok (b, rank) ∧
    check_linear_independence (["0010"] ++ ["0111"; "0010"]) 4 = Ok (b', rank') ∧
    rank ≤ rank' ∧ (b = true → b' = true).
Proof.
  apply (checked_rank_append 4 ["0010"]%string ["0111"; "0010"]%string); bitstrings.
Defined.

(** ** The retry loop: how a run ends *)

Section RunTestCaseVerdict.
Context (counts_keys : nat → list string) (n : nat) (s_int : Z).
Context (limit_measurements : option nat) (add_noise : bool) (max_retries : nat).

Lemma attempts_loop_true attempts :
  ∀ log, (attempts_loop counts_keys n s_int limit_measurements add_noise
            max_retries attempts log).1 = Some (Ok true) →
  ∃ k rest why,
    (attempts_loop counts_keys n s_int limit_measurements add_noise
       max_retries attempts log).2 = k :: rest ∧
    solve_for_s_enhanced n (measured_at counts_keys limit_measurements k)
      = Ok (Some s_int, why).
Proof.
  induction attempts as [|a attempts IH]; intros log; [done|].
  cbn [attempts_loop].
  destruct (solve_for_s_enhanced n (measured_at counts_keys limit_measurements a))
    as [[[s_found|] why]|e] eqn:Hsolve.
  - destruct (decide (s_found = s_int)) as [-> | Hne].
    + intros _. by exists a, log, why.
    + destruct add_noise; [apply IH | done].
  - case_decide; [apply IH | done].
  - done.
Qed.

Lemma attempts_loop_last attempts :
  ∀ log k rest why, attempts ≠ [] →
  (attempts_loop counts_keys n s_int limit_measurements add_noise
     max_retries attempts log).2 = k :: rest →
  solve_for_s_enhanced n (measured_at counts_keys limit_measurements k)
    = Ok (Some s_int, why) →
  (attempts_loop counts_keys n s_int limit_measurements add_noise
     max_retries attempts log).1 = Some (Ok true).
Proof.
  induction attempts as [|a attempts IH]; intros log k rest why Hne; [done|].
  assert (∀ k' why',
    solve_for_s_enhanced n (measured_at counts_keys limit_measurements a)
      ≠ Ok (Some s_int, why') →
    (attempts_loop counts_keys n s_int limit_measurements add_noise
       max_retries attempts (a :: log)).2 = k' :: rest →
    solve_for_s_enhanced n (measured_at counts_keys limit_measurements k')
      = Ok (Some s_int, why') →
    (attempts_loop counts_keys n s_int limit_measurements add_noise
       max_retries attempts (a :: log)).1 = Some (Ok true)) as Hgo.
  { intros k' why' Hwrong Hlog Hk'. destruct attempts as [|a' attempts'].
    - simpl in Hlog. injection Hlog as <- _. done.
    - by apply (IH (a :: log) k' rest why'). }
  cbn [attempts_loop].
  destruct (solve_for_s_enhanced n (measured_at counts_keys limit_measurements a))
    as [[[s_found|] why0]|e] eqn:Hsolve.
  - destruct (decide (s_found = s_int)) as [-> | Hwrong]; [done|].
    assert (∀ why', Ok (Some s_found, why0) ≠ Ok (Some s_int, why'))
      as Hdiff by (intros why'; congruence).
    destruct add_noise.
    + intros Hlog Hk. by apply (Hgo k why).
    + simpl. intros [= <- _] Hk. rewrite Hsolve in Hk. by destruct (Hdiff why).
  - case_decide.
    + intros Hlog Hk. by apply (Hgo k why).
    + simpl. intros [= <- _] Hk. by rewrite Hsolve in Hk.
  - simpl. intros [= <- _] Hk. by rewrite Hsolve in Hk.
Qed.

(** Attempts [a, a+1, ...] that fail validation, or give a wrong vector
    under [add_noise], are retried up to an attempt [k] that settles the
    run. *)
Lemma attempts_loop_retries k verdict :
  (k < max_retries)%nat →
  (∀ a, (a < k)%nat →
     (∃ why, solve_for_s_enhanced n (measured_at counts_keys limit_measurements a)
             = Ok (None, why)) ∨
     (add_noise = true ∧
      ∃ s' why, solve_for_s_enhanced n (measured_at counts_keys limit_measurements a)
                = Ok (Some s', why) ∧ s' ≠ s_int)) →
  (∀ rest log,
     attempts_loop counts_keys n s_int limit_measurements add_noise max_retries
       (k :: rest) log = (Some (Ok verdict), k :: log)) →
  ∀ j a log, (a + j = k)%nat →
  attempts_loop counts_keys n s_int limit_measurements add_noise max_retries
    (seq a (max_retries - a)) log =
    (Some (Ok verdict), (rev (seq a (S j)) ++ log)%list).
Proof.
  intros Hk Hfail Hend. induction j as [|j IH]; intros a log Ha.
  - replace a with k by lia.
    replace (max_retries - k)%nat with (S (max_retries - S k)) by lia.
    cbn [seq]. by rewrite Hend.
  - replace (max_retries - a)%nat with (S (max_retries - S a)) by lia.
    cbn [seq attempts_loop].
    assert (attempts_loop counts_keys n s_int limit_measurements add_noise
              max_retries (seq (S a) (max_retries - S a)) (a :: log) =
            (Some (Ok verdict), (rev (a :: seq (S a) (S j)) ++ log)%list)) as Hnext.
    { rewrite (IH (S a)) by lia. f_equal.
      change (rev (a :: seq (S a) (S j))) with (rev (seq (S a) (S j)) ++ [a])%list.
      by rewrite <- app_assoc. }
    destruct (Hfail a ltac:(lia)) as [[why ->] | [-> (s' & why & -> & Hwrong)]].
    + rewrite decide_True by lia. exact Hnext.
    + rewrite decide_False by done. exact Hnext.
Qed.
End RunTestCaseVerdict.

Lemma last_rev_cons {A} (k : A) rest : last (rev (k :: rest)) = Some k.
Proof. simpl. apply last_snoc. Qed.

(** X17. [run_test_case] returns [True] exactly when the last attempt it
    made recovered [s_int]. *)
Theorem run_test_case_true_iff counts_keys n s_int limit_measurements add_noise
    max_retries :
  (run_test_case counts_keys n s_int limit_measurements add_noise max_retries).1
    = Ok true ↔
  ∃ k why,
    last (run_test_case counts_keys n s_int limit_measurements add_noise
            max_retries).2 = Some k ∧
    solve_for_s_enhanced n (measured_at counts_keys limit_measurements k)
      = Ok (Some s_int, why).
Proof.
  unfold run_test_case. destruct max_retries as [|m].
  { simpl. split; [done | by intros (k & why & [=] & _)]. }
  pose proof (attempts_loop_true counts_keys n s_int limit_measurements add_noise
                (S m) (seq 0 (S m)) []) as Htrue.
  pose proof (attempts_loop_last counts_keys n s_int limit_measurements add_noise
                (S m) (seq 0 (S m)) []) as Hlast.
  destruct (attempts_loop _ _ _ _ _ _ _ _) as [ret log]. simpl in Htrue, Hlast.
  cbn [fst snd default]. split.
  - intros Hret. destruct ret as [[[|]|e]|]; try done.
    destruct (Htrue eq_refl) as (k & rest & why & -> & Hk).
    exists k, why. split; [apply last_rev_cons | done].
  - intros (k & why & Hk & Hsolve). destruct log as [|k' rest]; [done|].
    rewrite last_rev_cons in Hk. injection Hk as ->.
    by rewrite (Hlast k rest why).
Qed.

Lemma run_test_case_true_iff_witness :
  (run_test_case (fun _ => ["0100"; "1110"; "1001"]) 4 13 None false 3).1 = Ok true.
Proof.
  apply (run_test_case_true_iff (fun _ => ["0100"; "1110"; "1001"]) 4 13 None false 3).
  exists 0%nat, Success. split; reflexivity.
Defined.

(** X18. Retry until success: when the attempts before [k] fail
    validation, or return a wrong vector while [add_noise] is set, and
    attempt [k < max_retries] recovers [s_int], the run makes exactly the
    attempts [0..k] and returns [True]. *)
Theorem run_test_case_retries_until_success counts_keys n s_int limit_measurements
    add_noise max_retries k why :
  (k < max_retries)%nat →
  (∀ a, (a < k)%nat →
     (∃ why', solve_for_s_enhanced n (measured_at counts_keys limit_measurements a)
              = Ok (None, why')) ∨
     (add_noise = true ∧
      ∃ s' why', solve_for_s_enhanced n (measured_at counts_keys limit_measurements a)
                 = Ok (Some s', why') ∧ s' ≠ s_int)) →
  solve_for_s_enhanced n (measured_at counts_keys limit_measurements k)
    = Ok (Some s_int, why) →
  run_test_case counts_keys n s_int limit_measurements add_noise max_retries
    = (Ok true, seq 0 (S k)).
Proof.
  intros Hk Hfail Hsolve. unfold run_test_case.
  rewrite <- (Nat.sub_0_r max_retries) at 2.
  rewrite (attempts_loop_retries counts_keys n s_int limit_measurements add_noise
             max_retries k true Hk Hfail) with (j := k) by
    (lia || (intros rest log; cbn [attempts_loop]; rewrite Hsolve;
             by rewrite decide_True)).
  cbn [default]. by rewrite app_nil_r, rev_involutive.
Qed.

Lemma run_test_case_retries_until_success_witness :
  run_test_case (fun a => if decide (a = 0)%nat then ["0000"] else ["0100"; "1110"; "1001"])
    4 13 None false 3 = (Ok true, seq 0 2).
Proof.
  apply (run_test_case_retries_until_success
           (fun a => if decide (a = 0)%nat then ["0000"] else ["0100"; "1110"; "1001"])
           4 13 None false 3 1 Success).
  - lia.
  - intros a Ha. left. exists AllUninformative.
    assert (a = 0%nat) as -> by lia. reflexivity.
  - reflexivity.
Defined.

(** X19. Without [add_noise] a wrong vector is not retried: when the
    attempts before [k] fail validation and attempt [k < max_retries]
    returns a vector other than [s_int], the run stops there with
    [False]. *)
Theorem run_test_case_wrong_answer_stops counts_keys n s_int limit_measurements
    max_retries k s' why :
  (k < max_retries)%nat →
  (∀ a, (a < k)%nat →
     ∃ why', solve_for_s_enhanced n (measured_at counts_keys limit_measurements a)
             = Ok (None, why')) →
  solve_for_s_enhanced n (measured_at counts_keys limit_measurements k)
    = Ok (Some s', why) →
  s' ≠ s_int →
  run_test_case counts_keys n s_int limit_measurements false max_retries
    = (Ok false, seq 0 (S k)).
Proof.
  intros Hk Hfail Hsolve Hwrong. unfold run_test_case.
  rewrite <- (Nat.sub_0_r max_retries) at 2.
  rewrite (attempts_loop_retries counts_keys n s_int limit_measurements false
             max_retries k false Hk) with (j := k) by
    (lia || (intros a Ha; left; by apply Hfail)
         || (intros rest log; cbn [attempts_loop]; rewrite Hsolve;
             by rewrite decide_False)).
  cbn [default]. by rewrite app_nil_r, rev_involutive.
Qed.

Lemma run_test_case_wrong_answer_stops_witness :
  run_test_case (fun _ => ["1100"; "1110"; "1001"]) 4 13 None false 3
    = (Ok false, seq 0 1).
Proof.
  apply (run_test_case_wrong_answer_stops (fun _ => ["1100"; "1110"; "1001"])
           4 13 None 3 0 11 Success).
  - lia.
  - intros a Ha. lia.
  - reflexivity.
  - done.
Defined.

(** ** The retry loop on well-formed keys *)

Lemma chars_fold_rev l : ∀ acc,
  chars (fold_left (fun acc ch => String ch acc) l acc) = rev l ++ chars acc.
Proof.
  induction l as [|ch l IH]; intros acc; [done|].
  simpl. rewrite IH. simpl. by rewrite <- app_assoc.
Qed.

Lemma chars_string_rev k : chars (string_rev k) = rev (chars k).
Proof. unfold string_rev. rewrite chars_fold_rev. simpl. by rewrite app_nil_r. Qed.

Lemma string_rev_bitstring n k : bitstring n k → bitstring n (string_rev k).
Proof.
  intros [Hlen Hbits]. unfold bitstring. rewrite chars_string_rev.
  split; [by rewrite length_rev|]. by apply List.Forall_rev.
Qed.

Lemma measured_at_bitstring counts_keys limit_measurements n attempt :
  Forall (bitstring n) (counts_keys attempt) →
  Forall (bitstring n) (measured_at counts_keys limit_measurements attempt).
Proof.
  intros Hkeys.
  assert (Forall (bitstring n) (map string_rev (counts_keys attempt))) as Hrev.
  { apply Forall_map. eapply Forall_impl; [exact Hkeys|].
    intros k. apply string_rev_bitstring. }
  unfold measured_at. destruct limit_measurements as [[|k]|]; try done.
  by apply Forall_take.
Qed.

Lemma solve_for_s_enhanced_returns n ms :
  Forall (bitstring n) ms → ∃ found why, solve_for_s_enhanced n ms = Ok (found, why).
Proof.
  intros Hbits.
  destruct (decide (useful_measurements n ms = [])) as [Hnil | Huse].
  { unfold solve_for_s_enhanced. destruct ms as [|m ms']; [by eexists _, _|].
    rewrite Hnil. by eexists _, _. }
  destruct n as [|n'].
  { exfalso. apply Huse, useful_measurements_zeros. by apply bitstring_width_zero. }
  destruct (solve_for_s_enhanced_cases (S n') ms ltac:(lia) Hbits Huse)
    as (st_c & st_s & s & _ & _ & _ & _ & _ & _ & _ & ->).
  case_decide; by eexists _, _.
Qed.

Lemma attempts_loop_no_raise counts_keys n s_int limit_measurements add_noise
    max_retries attempts :
  (∀ attempt, Forall (bitstring n) (counts_keys attempt)) →
  ∀ log e, (attempts_loop counts_keys n s_int limit_measurements add_noise
              max_retries attempts log).1 ≠ Some (Raise e).
Proof.
  intros Hkeys. induction attempts as [|a attempts IH]; intros log e; [done|].
  cbn [attempts_loop].
  destruct (solve_for_s_enhanced_returns n
              (measured_at counts_keys limit_measurements a))
    as (found & why & ->); [by apply measured_at_bitstring|].
  destruct found as [s_found|].
  - case_decide; [done|]. destruct add_noise; [apply IH | done].
  - case_decide; [apply IH | done].
Qed.

(** X20. When every attempt delivers n-bit keys, [run_test_case] never
    raises: it returns [True] or [False]. *)
Theorem run_test_case_never_raises counts_keys n s_int limit_measurements add_noise
    max_retries :
  (∀ attempt, Forall (bitstring n) (counts_keys attempt)) →
  ∃ verdict : bool,
    (run_test_case counts_keys n s_int limit_measurements add_noise max_retries).1
    = Ok verdict.
Proof.
  intros Hkeys. unfold run_test_case.
  pose proof (attempts_loop_no_raise counts_keys n s_int limit_measurements
                add_noise max_retries (seq 0 max_retries) Hkeys []) as Hno.
  destruct (attempts_loop _ _ _ _ _ _ _ _) as [[[verdict | e]|] log]; simpl in *.
  - by exists verdict.
  - by destruct (Hno e).
  - by exists false.
Qed.

Lemma run_test_case_never_raises_witness :
  ∃ verdict : bool,
    (run_test_case (fun _ => ["0100"; "1110"; "1001"]) 4 13 (Some 2%nat) true 3).1
    = Ok verdict.
Proof.
  apply (run_test_case_never_raises (fun _ => ["0100"; "1110"; "1001"]) 4 13
           (Some 2%nat) true 3).
  intros attempt. bitstrings.
Defined.

(** ** Measurement noise *)

Lemma chars_join bits : chars (join bits) = bits.
Proof. induction bits as [|ch bits IH]; [done|]. simpl. by rewrite IH. Qed.

Lemma join_chars m : join (chars m) = m.
Proof. induction m as [|ch m IH]; [done|]. simpl. by rewrite IH. Qed.

Lemma total_shots_set d k count :
  total_shots (dict_set d k (dict_get d k 0 + count)) = total_shots d + count.
Proof.
  induction d as [|[k' v'] d IH]; simpl; [lia|].
  destruct (decide (k' = k)); simpl; lia.
Qed.

Lemma dict_set_keys d k v :
  (dict_set d k v).*1 = if decide (k ∈ d.*1) then d.*1 else d.*1 ++ [k].
Proof.
  induction d as [|[k' v'] d IH]; [done|]. cbn [dict_set fmap list_fmap fst].
  destruct (decide (k' = k)) as [-> | Hne].
  - rewrite decide_True by left. done.
  - cbn [fmap list_fmap fst]. change (list_fmap _ _ fst ?l) with (l.*1). rewrite IH.
    destruct (decide (k ∈ d.*1)) as [Hin | Hnot].
    + rewrite decide_True by (by right). done.
    + rewrite decide_False; [done|]. rewrite elem_of_cons. intros [? | ?]; by subst.
Qed.

Lemma dict_set_NoDup d k v : NoDup d.*1 → NoDup (dict_set d k v).*1.
Proof.
  intros Hnd. rewrite dict_set_keys. destruct (decide (k ∈ d.*1)); [done|].
  apply NoDup_app. split; [done|]. split; [|apply NoDup_singleton].
  intros x Hx Hk. apply list_elem_of_singleton in Hk. by subst.
Qed.

Lemma dict_set_length d k v : (length (dict_set d k v) ≤ S (length d))%nat.
Proof.
  induction d as [|[k' v'] d IH]; simpl; [lia|].
  destruct (decide (k' = k)); simpl; lia.
Qed.

Lemma flip_char_bit ch : ch = "0"%char ∨ ch = "1"%char →
  flip_char ch = "0"%char ∨ flip_char ch = "1"%char.
Proof. unfold flip_char. case_decide; auto. Qed.

Lemma flip_char_ne ch : flip_char ch ≠ ch.
Proof. unfold flip_char. case_decide; [by subst | congruence]. Qed.

Section MeasurementNoiseFacts.
Context (draws : nat → option nat).

(** One item: the key written is the item's key, or that key with the
    character at the drawn position flipped. *)
Lemma noise_step_inv acc i k count acc' :
  noise_step draws acc i (k, count) = Ok acc' →
  ∃ k', acc' = dict_set acc k' (dict_get acc k' 0 + count) ∧
        (draws i = None ∧ k' = k ∨
         ∃ p ch, draws i = Some p ∧ chars k !! p = Some ch ∧
                 k' = join (<[p := flip_char ch]> (chars k))).
Proof.
  unfold noise_step. destruct (draws i) as [p|].
  - case_decide; [done|]. destruct (chars k !! p) as [ch|] eqn:Hp; [|done].
    intros [= <-]. eexists. split; [done|]. right. by exists p, ch.
  - intros [= <-]. exists k. split; [done | by left].
Qed.

Lemma noise_step_ok acc i k count :
  (∀ p, draws i = Some p → (p < length (chars k))%nat) →
  ∃ acc', noise_step draws acc i (k, count) = Ok acc'.
Proof.
  intros Hrange. unfold noise_step. destruct (draws i) as [p|]; [|by eexists].
  specialize (Hrange p eq_refl).
  rewrite decide_False by lia.
  destruct (lookup_lt_is_Some_2 (chars k) p Hrange) as [ch ->]. by eexists.
Qed.

Lemma noise_loop_spec n items : ∀ i acc,
  (∀ j k count p, items !! j = Some (k, count) → draws (i + j)%nat = Some p →
                  (p < length (chars k))%nat) →
  Forall (bitstring n) items.*1 → Forall (bitstring n) acc.*1 → NoDup acc.*1 →
  ∃ noisy, noise_loop draws i items acc = Ok noisy ∧
           total_shots noisy = total_shots acc + total_shots items ∧
           NoDup noisy.*1 ∧ Forall (bitstring n) noisy.*1 ∧
           (length noisy ≤ length acc + length items)%nat.
Proof.
  induction items as [|[k count] items IH]; intros i acc Hrange Hitems Hacc Hnd.
  - exists acc. simpl. split; [done|]. split; [lia|]. split; [done|].
    split; [done | lia].
  - cbn [fmap list_fmap fst] in Hitems. apply Forall_cons in Hitems as [Hk Hitems].
    destruct (noise_step_ok acc i k count) as [acc' Hstep].
    { intros p Hp. apply (Hrange 0%nat k count p); [done|].
      by rewrite Nat.add_0_r. }
    destruct (noise_step_inv _ _ _ _ _ Hstep) as (k' & -> & Hk').
    assert (bitstring n k') as Hbit'.
    { destruct Hk' as [[_ ->] | (p & ch & _ & Hch & ->)]; [done|].
      destruct Hk as [Hlen Hbits]. unfold bitstring. rewrite chars_join.
      split; [by rewrite length_insert|].
      apply Forall_insert; [done|]. apply flip_char_bit.
      by eapply (Forall_lookup_1 _ _ _ _ Hbits). }
    cbn [noise_loop]. rewrite Hstep. cbn [mbind result_bind].
    destruct (IH (S i) (dict_set acc k' (dict_get acc k' 0 + count)))
      as (noisy & Hloop & Htotal & Hnd' & Hbits' & Hlen').
    + intros j kj cj p Hj Hp. apply (Hrange (S j) kj cj p); [done|].
      by replace (i + S j)%nat with (S i + j)%nat by lia.
    + done.
    + rewrite dict_set_keys. destruct (decide (k' ∈ acc.*1)); [done|].
      apply Forall_app. split; [done|]. by apply Forall_singleton.
    + by apply dict_set_NoDup.
    + exists noisy. split; [done|]. rewrite Htotal, total_shots_set.
      split; [simpl; lia|]. split; [done|]. split; [done|].
      pose proof (dict_set_length acc k' (dict_get acc k' 0 + count)).
      simpl. lia.
Qed.

Lemma dict_set_fresh d k v : k ∉ d.*1 → dict_set d k v = d ++ [(k, v)].
Proof.
  induction d as [|[k' v'] d IH]; [done|]. cbn [fmap list_fmap fst].
  rewrite not_elem_of_cons. intros [Hne Hnot]. cbn [dict_set].
  rewrite decide_False by done. simpl. by rewrite IH.
Qed.

Lemma dict_get_fresh d k default : k ∉ d.*1 → dict_get d k default = default.
Proof.
  induction d as [|[k' v'] d IH]; [done|]. cbn [fmap list_fmap fst].
  rewrite not_elem_of_cons. intros [Hne Hnot]. cbn [dict_get].
  rewrite decide_False by done. by apply IH.
Qed.

Lemma noise_loop_quiet items : ∀ i acc,
  (∀ j, (j < length items)%nat → draws (i + j)%nat = None) →
  NoDup (acc ++ items).*1 →
  noise_loop draws i items acc = Ok (acc ++ items).
Proof.
  induction items as [|[k count] items IH]; intros i acc Hquiet Hnd.
  - by rewrite app_nil_r.
  - cbn [noise_loop]. unfold noise_step.
    rewrite <- (Nat.add_0_r i) at 1. rewrite Hquiet by (simpl; lia).
    cbn [mbind result_bind].
    assert (k ∉ acc.*1) as Hfresh.
    { rewrite fmap_app in Hnd. apply NoDup_app in Hnd as (_ & Hdisj & _).
      intros Hin. apply (Hdisj k Hin). left. }
    rewrite dict_get_fresh, dict_set_fresh by done. rewrite Z.add_0_l.
    rewrite IH.
    + by rewrite <- app_assoc.
    + intros j Hj. replace (S i + j)%nat with (i + S j)%nat by lia.
      apply Hquiet. simpl. lia.
    + by rewrite <- app_assoc.
Qed.
End MeasurementNoiseFacts.

(** X21. With every flip position drawn inside its key,
    [add_measurement_noise] returns a dictionary with the same total
    number of shots, distinct keys that are again n-bit strings, and no
    more entries than the input. *)
Theorem add_measurement_noise_preserves draws n counts :
  Forall (bitstring n) counts.*1 →
  (∀ i k count p, counts !! i = Some (k, count) → draws i = Some p →
                  (p < length (chars k))%nat) →
  ∃ noisy, add_measurement_noise draws counts = Ok noisy ∧
           total_shots noisy = total_shots counts ∧
           NoDup noisy.*1 ∧ Forall (bitstring n) noisy.*1 ∧
           (length noisy ≤ length counts)%nat.
Proof.
  intros Hbits Hrange.
  destruct (noise_loop_spec draws n counts 0 []) as (noisy & Hloop & Htotal & Hrest);
    [done | done | by apply Forall_nil_2 | by apply NoDup_nil_2 |].
  exists noisy. split; [done|]. split; [by rewrite Htotal|]. done.
Qed.

Lemma add_measurement_noise_preserves_witness :
  ∃ noisy,
    add_measurement_noise (fun i => if decide (i = 1%nat) then Some 0%nat else None)
      [("00", 500); ("10", 524)] = Ok noisy ∧
    total_shots noisy = total_shots [("00", 500); ("10", 524)] ∧
    NoDup noisy.*1 ∧ Forall (bitstring 2) noisy.*1 ∧
    (length noisy ≤ length [("00", 500); ("10", 524)])%nat.
Proof.
  apply (add_measurement_noise_preserves
           (fun i => if decide (i = 1%nat) then Some 0%nat else None) 2
           [("00", 500); ("10", 524)]).
  - simpl. bitstrings.
  - intros i k count p Hi Hp. case_decide; [subst i | done].
    injection Hp as <-. injection Hi as <- _. simpl. lia.
Defined.

(** X22. When no draw fires, [add_measurement_noise] returns its input
    unchanged, keys in the same order. *)
Theorem add_measurement_noise_quiet draws counts :
  NoDup counts.*1 →
  (∀ i, (i < length counts)%nat → draws i = None) →
  add_measurement_noise draws counts = Ok counts.
Proof.
  intros Hnd Hquiet. unfold add_measurement_noise.
  by rewrite noise_loop_quiet.
Qed.

Lemma add_measurement_noise_quiet_witness :
  add_measurement_noise (fun _ => None) [("00", 500); ("10", 524)]
    = Ok [("00", 500); ("10", 524)].
Proof.
  apply (add_measurement_noise_quiet (fun _ => None) [("00", 500); ("10", 524)]).
  - cbn [fmap list_fmap fst].
    repeat (apply NoDup_cons; split; [rewrite ?elem_of_cons, elem_of_nil; intros H; by repeat destruct H as [H | H]|]).
    apply NoDup_nil_2.
  - done.
Defined.

(** X23. A fired draw always changes the key: the noisy key differs from
    the measured one exactly at the drawn position, so a single
    measurement never survives its own flip. *)
Theorem add_measurement_noise_flips draws k count p :
  draws 0%nat = Some p → (p < length (chars k))%nat →
  ∃ k', add_measurement_noise draws [(k, count)] = Ok [(k', count)] ∧
        k' ≠ k ∧ length (chars k') = length (chars k) ∧
        (∀ q, chars k' !! q = chars k !! q ↔ q ≠ p).
Proof.
  intros Hp Hlen. unfold add_measurement_noise. cbn [noise_loop noise_step].
  rewrite Hp. rewrite decide_False by lia.
  destruct (lookup_lt_is_Some_2 (chars k) p Hlen) as [ch Hch]. rewrite Hch.
  cbn [mbind result_bind dict_get dict_set noise_loop].
  eexists. split; [by rewrite Z.add_0_l|].
  assert (∀ q, <[p := flip_char ch]> (chars k) !! q = chars k !! q ↔ q ≠ p) as Hdiff.
  { intros q. destruct (decide (q = p)) as [-> | Hne].
    - rewrite list_lookup_insert_eq, Hch by done. split; [|done].
      intros [= Heq]. by apply flip_char_ne in Heq.
    - by rewrite list_lookup_insert_ne. }
  rewrite chars_join. split; [|split; [by rewrite length_insert | done]].
  intros Heq. apply (f_equal chars) in Heq. rewrite chars_join in Heq.
  apply (Hdiff p); [by rewrite Heq | done].
Qed.

Lemma add_measurement_noise_flips_witness :
  ∃ k', add_measurement_noise (fun _ => Some 1%nat) [("0110", 1024)]
          = Ok [(k', 1024)] ∧
        k' ≠ "0110" ∧ length (chars k') = length (chars "0110") ∧
        (∀ q, chars k' !! q = chars "0110" !! q ↔ q ≠ 1%nat).
Proof.
  apply (add_measurement_noise_flips (fun _ => Some 1%nat) "0110" 1024 1);
    [done | simpl; lia].
Defined.
